(** * linear-cli: credential resolution and the expiring cache

    A shallow embedding of [internal/auth/auth.go] and
    [internal/cache/cache.go].  Go functions that touch the process
    environment, the keyring, the file system, the clock or the network are
    written in a state monad over a [World]; every such call also leaves an
    [Event] in the world's trace, so that statements of the form "no network
    call is made" or "fetch is invoked once" are statements about the trace. *)

From Stdlib Require Import ZArith String Ascii List Lia DecimalString.
From stdpp Require Import base tactics option list gmap strings pretty.

#[local] Open Scope Z_scope.
#[local] Set Warnings "-clear-no-such-hyp".

(** ** The Go runtime the two packages rely on *)

Module Go.

(** Go's [error] values.  [None : option error] is [nil]. *)
Inductive error : Type :=
| ErrNotExist                              (* ENOENT carried by an *fs.PathError *)
| ErrPermission                            (* EACCES carried by an *fs.PathError *)
| ErrNotFound                              (* keyring: secret not found *)
| ErrorString (msg : string)               (* errors.New / fmt.Errorf without %w *)
| ErrWrap (msg : string) (inner : error).  (* fmt.Errorf("msg%w", inner) *)

#[global] Instance error_eq_dec : EqDecision error.
Proof. solve_decision. Defined.

(** [os.IsNotExist]: it inspects the error itself and does not unwrap [%w]. *)
Definition os_IsNotExist (e : error) : bool :=
  match e with ErrNotExist => true | _ => false end.

(** [time.Time] is an instant counted in nanoseconds; [time.Duration] is an
    [int64] count of nanoseconds. *)
Definition Time := Z.
Definition Duration := Z.

Definition Nanosecond : Duration := 1.
Definition Second : Duration := 1000000000 * Nanosecond.
Definition Minute : Duration := 60 * Second.
Definition Hour : Duration := 60 * Minute.

Definition minDuration : Duration := - 2 ^ 63.
Definition maxDuration : Duration := 2 ^ 63 - 1.

Definition Time_Add (t : Time) (d : Duration) : Time := t + d.
Definition Time_Before (t u : Time) : bool := t <? u.

(** [Time.Sub] saturates at the ends of the [int64] range. *)
Definition Time_Sub (t u : Time) : Duration :=
  let d := t - u in
  if d <? minDuration then minDuration
  else if maxDuration <? d then maxDuration
  else d.

(** *** The keyring *)

Inductive SecretName := api_key | client_id | client_secret | token_info.

#[global] Instance SecretName_eq_dec : EqDecision SecretName.
Proof. solve_decision. Defined.

(** What the keyring holds under one name: nothing, a value, or an entry
    whose retrieval fails (vault locked, undecodable contents, ...). *)
Inductive Slot (A : Type) : Type :=
| Vacant
| Held (a : A)
| Jammed (e : error).
Arguments Vacant {A}.
Arguments Held {A} a.
Arguments Jammed {A} e.

(** [auth.TokenInfo] (declared here because the keyring stores it). *)
Record TokenInfo := mkTokenInfo {
  AccessToken : string;
  TokenType   : string;
  ExpiresIn   : Z;
  ExpiresAt   : Time;
  Scope       : string
}.

Record Keyring := mkKeyring {
  slot_api_key       : Slot string;
  slot_client_id     : Slot string;
  slot_client_secret : Slot string;
  slot_token_info    : Slot TokenInfo;
  (* when [Some e], storing a secret under that name fails with [e] *)
  set_fault          : SecretName -> option error
}.

(** *** The token endpoint

    [encoding/json] is a library of its own: an HTTP response carries what
    the decoder yields for each of the two structs [auth.go] decodes into. *)
Record Body := mkBody {
  errResp_Error            : string;
  errResp_ErrorDescription : string;
  tokenResp                : TokenInfo + error   (* [inr e]: Decode returns e *)
}.

Inductive HttpOutcome :=
| TransportError (e : error)               (* http.DefaultClient.Do fails *)
| Response (StatusCode : Z) (body : Body).

Definition StatusOK : Z := 200.

(** *** The file system *)

Inductive File :=
| Regular (content : string)
| Unreadable (e : error).     (* os.ReadFile on this path fails with [e] *)

Inductive FsOp := OpMkdirAll | OpWriteFile | OpRemove.

(** *** Everything a Go function of this program can observe or change *)
Record Sys := mkSys {
  environ        : gmap string string;
  files          : gmap string File;
  (* when [Some e], that mutating call on that path fails with [e] *)
  fs_fault       : FsOp -> string -> option error;
  (* what a failing [os.WriteFile] leaves at that path: [None], the file as
     it was (the open failed); [Some n], the first [n] bytes of the data (the
     file was opened and truncated, then the write or the close failed) *)
  torn_write     : string -> option nat;
  clock          : Time;
  keyring        : Keyring;
  token_endpoint : string -> string -> HttpOutcome
}.

Inductive Event :=
| EvSecretGet (n : SecretName)
| EvSecretSet (n : SecretName)
| EvExchange (clientID clientSecret : string)   (* POST to the token endpoint *)
| EvReadFile (path : string)
| EvMkdirAll (path : string)
| EvWriteFile (path : string)
| EvRemove (path : string)
| EvFetch                                       (* the caller's fetch closure ran *)
| EvWarning (msg : string) (e : error).         (* "msg: e" on stderr *)

#[global] Instance Event_eq_dec : EqDecision Event.
Proof. solve_decision. Defined.

Record World := mkWorld {
  sys   : Sys;
  trace : list Event
}.

(** *** The monad *)

Definition M (A : Type) : Type := World -> A * World.

#[global] Instance M_ret : MRet M := fun A a w => (a, w).
#[global] Instance M_bind : MBind M :=
  fun A B f m w => let '(a, w') := m w in f a w'.

Definition log (ev : Event) (w : World) : World :=
  {| sys := sys w; trace := trace w ++ [ev] |}.

Definition emit (ev : Event) : M unit := fun w => (tt, log ev w).

Definition set_files (fs : gmap string File) (s : Sys) : Sys :=
  {| environ := environ s; files := fs; fs_fault := fs_fault s;
     torn_write := torn_write s;
     clock := clock s; keyring := keyring s;
     token_endpoint := token_endpoint s |}.

Definition set_keyring (k : Keyring) (s : Sys) : Sys :=
  {| environ := environ s; files := files s; fs_fault := fs_fault s;
     torn_write := torn_write s;
     clock := clock s; keyring := k;
     token_endpoint := token_endpoint s |}.

Definition set_clock (t : Time) (s : Sys) : Sys :=
  {| environ := environ s; files := files s; fs_fault := fs_fault s;
     torn_write := torn_write s;
     clock := t; keyring := keyring s;
     token_endpoint := token_endpoint s |}.

Definition with_sys (s : Sys) (w : World) : World :=
  {| sys := s; trace := trace w |}.

(** [os.Getenv]: the empty string when the variable is unset. *)
Definition os_Getenv (k : string) : M string :=
  fun w => (default EmptyString (environ (sys w) !! k), w).

Definition time_Now : M Time := fun w => (clock (sys w), w).

Definition time_Since (t : Time) : M Duration :=
  now ← time_Now; mret (Time_Sub now t).

Definition os_ReadFile (path : string) : M (string * option error) :=
  fun w =>
    (match files (sys w) !! path with
     | None => (EmptyString, Some ErrNotExist)
     | Some (Regular c) => (c, None)
     | Some (Unreadable e) => (EmptyString, Some e)
     end, log (EvReadFile path) w).

(** Directories are not tracked: [os.MkdirAll] succeeds unless the file
    system refuses it. *)
Definition os_MkdirAll (path : string) : M (option error) :=
  fun w => (fs_fault (sys w) OpMkdirAll path, log (EvMkdirAll path) w).

(** [os.WriteFile] opens the file with O_WRONLY|O_CREATE|O_TRUNC, writes the
    data and closes it: a call that fails may already have truncated the file
    and written part of the data. *)
Definition os_WriteFile (path data : string) : M (option error) :=
  fun w =>
    match fs_fault (sys w) OpWriteFile path with
    | Some e =>
        match torn_write (sys w) path with
        | None => (Some e, log (EvWriteFile path) w)
        | Some n =>
            (Some e, log (EvWriteFile path)
                         (with_sys (set_files (<[path := Regular (substring 0 n data)]>
                                                 (files (sys w))) (sys w)) w))
        end
    | None =>
        (None, log (EvWriteFile path)
                   (with_sys (set_files (<[path := Regular data]> (files (sys w))) (sys w)) w))
    end.

Definition os_Remove (path : string) : M (option error) :=
  fun w =>
    match fs_fault (sys w) OpRemove path with
    | Some e => (Some e, log (EvRemove path) w)
    | None =>
        match files (sys w) !! path with
        | None => (Some ErrNotExist, log (EvRemove path) w)
        | Some _ =>
            (None, log (EvRemove path)
                       (with_sys (set_files (delete path (files (sys w))) (sys w)) w))
        end
    end.

(** [http.DefaultClient.Do] on the POST built by
    [fetchClientCredentialsToken]. *)
Definition http_PostToken (clientID clientSecret : string) : M HttpOutcome :=
  fun w => (token_endpoint (sys w) clientID clientSecret,
            log (EvExchange clientID clientSecret) w).

(** The events a computation adds to the trace when run from [w]. *)
Definition new_events {A} (c : M A) (w : World) : list Event :=
  drop (length (trace w)) (trace (snd (c w))).

Definition is_exchange (ev : Event) : bool :=
  match ev with EvExchange _ _ => true | _ => false end.
Definition is_secret_get (ev : Event) : bool :=
  match ev with EvSecretGet _ => true | _ => false end.
Definition is_secret_set (ev : Event) : bool :=
  match ev with EvSecretSet _ => true | _ => false end.
Definition is_fetch (ev : Event) : bool :=
  match ev with EvFetch => true | _ => false end.
Definition is_cache_write (ev : Event) : bool :=
  match ev with EvWriteFile _ | EvMkdirAll _ => true | _ => false end.
Definition is_mutation (ev : Event) : bool :=
  match ev with
  | EvSecretSet _ | EvMkdirAll _ | EvWriteFile _ | EvRemove _ => true
  | _ => false
  end.

Definition count (p : Event -> bool) (evs : list Event) : nat :=
  length (List.filter p evs).

End Go.

(** ** internal/auth/auth.go *)

Module auth.
Import Go.

Definition DefaultClientID : string := "984973f7762db2dc5dd3c939e3f5139c".

(** [TokenExpiryBuffer = 5 * time.Minute] *)
Definition TokenExpiryBuffer : Duration := 5 * Minute.

(** [type AuthMethod string] with its three constants. *)
Inductive AuthMethod := AuthMethodNone | AuthMethodAPIKey | AuthMethodClientCredentials.

#[global] Instance AuthMethod_eq_dec : EqDecision AuthMethod.
Proof. solve_decision. Defined.

Definition AuthMethod_string (m : AuthMethod) : string :=
  match m with
  | AuthMethodNone => "none"
  | AuthMethodAPIKey => "api_key"
  | AuthMethodClientCredentials => "client_credentials"
  end.

Record UserInfo := mkUserInfo {
  ID : string; Name : string; DisplayName : string; Email : string; Admin : bool
}.

Record AuthStatus := mkAuthStatus {
  Authenticated    : bool;
  Method           : AuthMethod;
  Source           : string;
  status_ExpiresAt : option Time;      (* *time.Time, nil when absent *)
  User             : option UserInfo
}.

(** Modelled from the spec: the [Storage] interface behind [m.storage]
    ([NewKeyringStorage] and the interface declaration are not among the
    sources).  The spec gives the contract
    [GetSecret(name) -> (value, error-or-not-found)] and
    [SetSecret(name, value) -> error] over the four secrets; a getter returns
    the zero value together with the error when the lookup fails. *)
Definition get_string (n : SecretName) (sl : Keyring -> Slot string)
  : M (string * option error) :=
  fun w =>
    (match sl (keyring (sys w)) with
     | Vacant => (EmptyString, Some ErrNotFound)
     | Held v => (v, None)
     | Jammed e => (EmptyString, Some e)
     end, log (EvSecretGet n) w).

Definition storage_GetAPIKey : M (string * option error) :=
  get_string api_key slot_api_key.
Definition storage_GetClientID : M (string * option error) :=
  get_string client_id slot_client_id.
Definition storage_GetClientSecret : M (string * option error) :=
  get_string client_secret slot_client_secret.

(** Modelled from the spec: [Storage.GetTokenInfo], the lookup of the
    JSON-encoded [token_info] secret; a nil pointer comes with the error. *)
Definition storage_GetTokenInfo : M (option TokenInfo * option error) :=
  fun w =>
    (match slot_token_info (keyring (sys w)) with
     | Vacant => (None, Some ErrNotFound)
     | Held t => (Some t, None)
     | Jammed e => (None, Some e)
     end, log (EvSecretGet token_info) w).

Definition put_token_info (t : TokenInfo) (k : Keyring) : Keyring :=
  {| slot_api_key := slot_api_key k; slot_client_id := slot_client_id k;
     slot_client_secret := slot_client_secret k; slot_token_info := Held t;
     set_fault := set_fault k |}.

(** Modelled from the spec: [Storage.SetTokenInfo], [SetSecret] on
    [token_info]; on failure the keyring is left as it was. *)
Definition storage_SetTokenInfo (t : TokenInfo) : M (option error) :=
  fun w =>
    match set_fault (keyring (sys w)) token_info with
    | Some e => (Some e, log (EvSecretSet token_info) w)
    | None =>
        (None, log (EvSecretSet token_info)
                   (with_sys (set_keyring (put_token_info t (keyring (sys w))) (sys w)) w))
    end.

(** [time.Duration(n) * time.Second] is an [int64] product and wraps. *)
Definition wrap64 (z : Z) : Z := (z + 2 ^ 63) mod 2 ^ 64 - 2 ^ 63.

Definition with_ExpiresAt (t : TokenInfo) (at_ : Time) : TokenInfo :=
  {| AccessToken := AccessToken t; TokenType := TokenType t;
     ExpiresIn := ExpiresIn t; ExpiresAt := at_; Scope := Scope t |}.

(** [fetchClientCredentialsToken].  [http.NewRequestWithContext] is called
    with the constant method "POST" and the constant endpoint URL, for which
    it returns no error; the request itself is [http_PostToken]. *)
Definition fetchClientCredentialsToken (clientID clientSecret : string)
  : M (string * option error) :=
  resp ← http_PostToken clientID clientSecret;
  match resp with
  | TransportError e => mret (EmptyString, Some e)
  | Response StatusCode body =>
      if decide (StatusCode ≠ StatusOK) then
        if decide (errResp_ErrorDescription body ≠ EmptyString) then
          mret (EmptyString,
                Some (ErrorString (errResp_Error body +:+ ": " +:+ errResp_ErrorDescription body)))
        else
          mret (EmptyString,
                Some (ErrorString ("token request failed with status " +:+ pretty StatusCode)))
      else
        match tokenResp body with
        | inr e => mret (EmptyString, Some e)
        | inl decoded =>
            now ← time_Now;
            let tokenResp :=
              with_ExpiresAt decoded (Time_Add now (wrap64 (ExpiresIn decoded * Second))) in
            err ← storage_SetTokenInfo tokenResp;
            _ ← match err with
                | Some e => emit (EvWarning "warning: failed to cache token" e)
                | None => mret tt
                end;
            mret (AccessToken tokenResp, None)
        end
  end.

Definition not_authenticated : M (string * AuthMethod * option error) :=
  mret (EmptyString, AuthMethodNone,
        Some (ErrorString "not authenticated: run 'linear auth login' or set LINEAR_API_KEY (get key from https://linear.app/settings/api)")).

(** [Manager.GetToken]; the result triple is (token, method, err). *)
Definition GetToken : M (string * AuthMethod * option error) :=
  (* Priority 1: Personal API key from environment *)
  apiKey ← os_Getenv "LINEAR_API_KEY";
  if decide (apiKey ≠ EmptyString) then mret (apiKey, AuthMethodAPIKey, None) else
  (* Priority 2: Client credentials from environment *)
  clientID ← os_Getenv "LINEAR_CLIENT_ID";
  clientSecret ← os_Getenv "LINEAR_CLIENT_SECRET";
  if decide (clientID ≠ EmptyString ∧ clientSecret ≠ EmptyString) then
    '(token, err) ← fetchClientCredentialsToken clientID clientSecret;
    match err with
    | Some e => mret (EmptyString, AuthMethodNone,
                      Some (ErrWrap "client credentials auth failed: " e))
    | None => mret (token, AuthMethodClientCredentials, None)
    end
  else
  (* Priority 3: Stored API key in keychain *)
  '(apiKey, err) ← storage_GetAPIKey;
  if decide (err = None ∧ apiKey ≠ EmptyString) then mret (apiKey, AuthMethodAPIKey, None) else
  (* Priority 4: Stored OAuth token in keychain *)
  '(tokenInfo, err) ← storage_GetTokenInfo;
  match err, tokenInfo with
  | None, Some tokenInfo =>
      now ← time_Now;
      if Time_Before (Time_Add now TokenExpiryBuffer) (ExpiresAt tokenInfo) then
        mret (AccessToken tokenInfo, AuthMethodClientCredentials, None)
      else
      (* Token expired, try to refresh using stored credentials *)
      '(clientSecret, err) ← storage_GetClientSecret;
      if decide (err = None ∧ clientSecret ≠ EmptyString) then
        '(storedClientID, _) ← storage_GetClientID;
        let storedClientID :=
          if decide (storedClientID = EmptyString) then DefaultClientID else storedClientID in
        '(token, err) ← fetchClientCredentialsToken storedClientID clientSecret;
        match err with
        | Some e => mret (EmptyString, AuthMethodNone, Some (ErrWrap "token refresh failed: " e))
        | None => mret (token, AuthMethodClientCredentials, None)
        end
      else not_authenticated
  | _, _ => not_authenticated
  end.

Definition status0 : AuthStatus :=
  {| Authenticated := false; Method := AuthMethodNone; Source := EmptyString;
     status_ExpiresAt := None; User := None |}.

Definition mark (m : AuthMethod) (src : string) (exp : option Time) (st : AuthStatus)
  : AuthStatus :=
  {| Authenticated := true; Method := m; Source := src;
     status_ExpiresAt := exp; User := User st |}.

(** [Manager.GetStatus]; it returns (status, nil) on every path. *)
Definition GetStatus : M (AuthStatus * option error) :=
  let status := status0 in
  (* Check environment variables first *)
  apiKey ← os_Getenv "LINEAR_API_KEY";
  if decide (apiKey ≠ EmptyString) then
    mret (mark AuthMethodAPIKey "env:LINEAR_API_KEY" (status_ExpiresAt status) status, None)
  else
  clientID ← os_Getenv "LINEAR_CLIENT_ID";
  clientSecret ← os_Getenv "LINEAR_CLIENT_SECRET";
  if decide (clientID ≠ EmptyString ∧ clientSecret ≠ EmptyString) then
    mret (mark AuthMethodClientCredentials "env:LINEAR_CLIENT_ID" (status_ExpiresAt status) status, None)
  else
  (* Check keychain *)
  '(apiKey, err) ← storage_GetAPIKey;
  if decide (err = None ∧ apiKey ≠ EmptyString) then
    mret (mark AuthMethodAPIKey "keychain" (status_ExpiresAt status) status, None)
  else
  '(tokenInfo, err) ← storage_GetTokenInfo;
  match err, tokenInfo with
  | None, Some tokenInfo =>
      mret (mark AuthMethodClientCredentials "keychain" (Some (ExpiresAt tokenInfo)) status, None)
  | _, _ => mret (status, None)
  end.

End auth.

(** ** internal/cache/cache.go *)

Module cache.
Import Go.

(** [DefaultTTL = 24 * time.Hour] *)
Definition DefaultTTL : Duration := 24 * Hour.

Definition CacheDir : string := "agent-linear-cli".

(** [Entry[T]] *)
Record Entry (T : Type) := mkEntry {
  Data      : T;
  Timestamp : Time
}.
Arguments mkEntry {T} _ _.
Arguments Data {T} _.
Arguments Timestamp {T} _.

Record Manager := mkManager {
  dir : string;
  ttl : Duration
}.

(** What [cache.go] needs of a type argument [T]: its zero value and what
    [encoding/json] does with an [Entry[T]].  [json_Unmarshal] is [None] when
    [json.Unmarshal] returns an error. *)
Class Cacheable (T : Type) := {
  zero : T;
  json_MarshalIndent : Entry T -> string * option error;
  json_Unmarshal : string -> option (Entry T)
}.

(** [TeamKey] and [WorkspaceKey] *)
Definition TeamKey (resource teamID : string) : string :=
  resource +:+ "-team-" +:+ teamID.

Definition WorkspaceKey (resource : string) : string :=
  resource +:+ "-workspace".

Section WithPaths.

(** [filepath.Join] of the standard library, left abstract: nothing below
    depends on how two path elements are joined and cleaned. *)
Variable filepath_Join : string -> string -> string.

(** [runtime.GOOS], the platform the program was built for. *)
Variable GOOS : string.

(** The variable [os.UserHomeDir] reads on this platform, and how it names
    that variable in its error. *)
Definition home_env : string * string :=
  if decide (GOOS = "windows") then ("USERPROFILE", "%userprofile%")
  else if decide (GOOS = "plan9") then ("home", "$home")
  else ("HOME", "$HOME").

(** [os.UserHomeDir] of the standard library: the value of the platform's
    home variable; when that is empty, a fixed directory on android and ios,
    an error elsewhere. *)
Definition os_UserHomeDir : M (string * option error) :=
  let '(env, enverr) := home_env in
  v ← os_Getenv env;
  if decide (v = EmptyString) then
    if decide (GOOS = "android") then mret ("/sdcard", None)
    else if decide (GOOS = "ios") then mret ("/", None)
    else mret (EmptyString, Some (ErrorString (enverr +:+ " is not defined")))
  else mret (v, None).

Definition getCacheDir : M (string * option error) :=
  cacheHome ← os_Getenv "XDG_CACHE_HOME";
  if decide (cacheHome = EmptyString) then
    '(home, err) ← os_UserHomeDir;
    match err with
    | Some e => mret (EmptyString, Some e)
    | None => mret (filepath_Join (filepath_Join home ".cache") CacheDir, None)
    end
  else mret (filepath_Join cacheHome CacheDir, None).

Definition NewManager : M (option Manager * option error) :=
  '(cacheDir, err) ← getCacheDir;
  match err with
  | Some e => mret (None, Some e)
  | None => mret (Some {| dir := cacheDir; ttl := DefaultTTL |}, None)
  end.

Definition ensureDir (m : Manager) : M (option error) :=
  os_MkdirAll (dir m).

Definition keyPath (m : Manager) (key : string) : string :=
  filepath_Join (dir m) (key +:+ ".json").

Section Generic.
Context {T : Type} `{Cacheable T}.

(** [Read]: the result pair is (pointer-or-nil, err). *)
Definition Read (m : Manager) (key : string) : M (option T * option error) :=
  let path := keyPath m key in
  '(data, err) ← os_ReadFile path;
  match err with
  | Some e =>
      if os_IsNotExist e then mret (None, None) (* Cache miss, not an error *)
      else mret (None, Some e)
  | None =>
      match json_Unmarshal data with
      | None => mret (None, None)               (* Invalid cache file, treat as miss *)
      | Some entry =>
          age ← time_Since (Timestamp entry);
          if ttl m <? age then
            _ ← os_Remove path;                 (* Expired, clean up *)
            mret (None, None)
          else mret (Some (Data entry), None)
      end
  end.

Definition Write (m : Manager) (key : string) (data : T) : M (option error) :=
  err ← ensureDir m;
  match err with
  | Some e => mret (Some e)
  | None =>
      now ← time_Now;
      let entry := {| Data := data; Timestamp := now |} in
      let '(bytes, err) := json_MarshalIndent entry in
      match err with
      | Some e => mret (Some e)
      | None => os_WriteFile (keyPath m key) bytes
      end
  end.

Definition Has (m : Manager) (key : string) : M bool :=
  '(data, _) ← Read m key;
  mret (match data with Some _ => true | None => false end).

(** The caller's [fetch] closure: it may change anything in [Sys]; running it
    is recorded in the trace. *)
Definition call (fetch : Sys -> (T * option error) * Sys) : M (T * option error) :=
  fun w => let '(r, s') := fetch (sys w) in (r, log EvFetch (with_sys s' w)).

Definition GetOrFetch (m : Manager) (key : string)
    (fetch : Sys -> (T * option error) * Sys) : M (T * option error) :=
  (* Try cache first *)
  '(cached, err) ← Read m key;
  match err with
  | Some e => mret (zero, Some e)
  | None =>
      match cached with
      | Some c => mret (c, None)
      | None =>
          (* Fetch fresh data *)
          '(data, err) ← call fetch;
          match err with
          | Some e => mret (data, Some e)
          | None =>
              (* Store in cache (ignore write errors) *)
              _ ← Write m key data;
              mret (data, None)
          end
      end
  end.

End Generic.

(** [Manager.Clear] *)
Definition Clear (m : Manager) (key : string) : M (option error) :=
  err ← os_Remove (keyPath m key);
  match err with
  | Some e => if os_IsNotExist e then mret None else mret (Some e)
  | None => mret None
  end.

End WithPaths.

End cache.

(** ** The priority chain, as the specification words it *)

Module chain.
Import Go auth.

Definition getenv (s : Sys) (k : string) : string :=
  default EmptyString (environ s !! k).

(** A stored string secret counts as present when its lookup succeeds with a
    non-empty value. *)
Definition usable (sl : Slot string) : option string :=
  match sl with
  | Held v => if decide (v = EmptyString) then None else Some v
  | _ => None
  end.

Inductive Branch :=
| EnvStaticKey      (* 1. environment static key *)
| EnvExchange       (* 2. environment exchange credentials *)
| StoredStaticKey   (* 3. stored static key *)
| StoredToken       (* 4. stored exchanged token *)
| NoCredential.     (* 5. none of the above *)

#[global] Instance Branch_eq_dec : EqDecision Branch.
Proof. solve_decision. Defined.

(** First applicable wins. *)
Definition spec_priority (s : Sys) : Branch :=
  if decide (getenv s "LINEAR_API_KEY" ≠ EmptyString) then EnvStaticKey
  else if decide (getenv s "LINEAR_CLIENT_ID" ≠ EmptyString
                  ∧ getenv s "LINEAR_CLIENT_SECRET" ≠ EmptyString) then EnvExchange
  else match usable (slot_api_key (keyring s)) with
       | Some _ => StoredStaticKey
       | None =>
           match slot_token_info (keyring s) with
           | Held _ => StoredToken
           | _ => NoCredential
           end
       end.

(** What a status query reports for each branch. *)
Definition spec_status (s : Sys) (b : Branch) : AuthStatus :=
  match b with
  | EnvStaticKey => mkAuthStatus true AuthMethodAPIKey "env:LINEAR_API_KEY" None None
  | EnvExchange => mkAuthStatus true AuthMethodClientCredentials "env:LINEAR_CLIENT_ID" None None
  | StoredStaticKey => mkAuthStatus true AuthMethodAPIKey "keychain" None None
  | StoredToken =>
      mkAuthStatus true AuthMethodClientCredentials "keychain"
        (match slot_token_info (keyring s) with Held t => Some (ExpiresAt t) | _ => None end)
        None
  | NoCredential => mkAuthStatus false AuthMethodNone EmptyString None None
  end.

(** The stored token is outside the refresh buffer. *)
Definition fresh (s : Sys) (t : TokenInfo) : bool :=
  bool_decide (clock s + TokenExpiryBuffer < ExpiresAt t).

(** The client id a refresh presents: the stored one, else the compiled-in
    default. *)
Definition refresh_client_id (s : Sys) : string :=
  match slot_client_id (keyring s) with
  | Held v => if decide (v = EmptyString) then DefaultClientID else v
  | _ => DefaultClientID
  end.

(** Turning the outcome of an exchange into the resolver's answer. *)
Definition exchanged (prefix : string) (r : (string * option error) * World)
  : (string * AuthMethod * option error) * World :=
  match r with
  | ((_, Some e), w') => ((EmptyString, AuthMethodNone, Some (ErrWrap prefix e)), w')
  | ((token, None), w') => ((token, AuthMethodClientCredentials, None), w')
  end.

Definition logs (evs : list Event) (w : World) : World :=
  {| sys := sys w; trace := trace w ++ evs |}.

(** What resolution through branch [b] amounts to, from world [w]. *)
Definition resolved_by (w : World) (b : Branch)
    (r : (string * AuthMethod * option error) * World) : Prop :=
  let s := sys w in
  match b with
  | EnvStaticKey =>
      r = ((getenv s "LINEAR_API_KEY", AuthMethodAPIKey, None), w)
  | EnvExchange =>
      r = exchanged "client credentials auth failed: "
            (fetchClientCredentialsToken (getenv s "LINEAR_CLIENT_ID")
                                         (getenv s "LINEAR_CLIENT_SECRET") w)
  | StoredStaticKey =>
      ∃ v, usable (slot_api_key (keyring s)) = Some v
           ∧ r = ((v, AuthMethodAPIKey, None), logs [EvSecretGet api_key] w)
  | StoredToken =>
      ∃ t, slot_token_info (keyring s) = Held t ∧
        if fresh s t then
          r = ((AccessToken t, AuthMethodClientCredentials, None),
               logs [EvSecretGet api_key; EvSecretGet token_info] w)
        else
          match usable (slot_client_secret (keyring s)) with
          | Some secret =>
              r = exchanged "token refresh failed: "
                    (fetchClientCredentialsToken (refresh_client_id s) secret
                       (logs [EvSecretGet api_key; EvSecretGet token_info;
                              EvSecretGet client_secret; EvSecretGet client_id] w))
          | None =>
              r = not_authenticated
                    (logs [EvSecretGet api_key; EvSecretGet token_info;
                           EvSecretGet client_secret] w)
          end
  | NoCredential =>
      r = not_authenticated (logs [EvSecretGet api_key; EvSecretGet token_info] w)
  end.

(** The keyring lookups a status query makes on its way to branch [b]. *)
Definition status_reads (b : Branch) : list Event :=
  match b with
  | EnvStaticKey | EnvExchange => []
  | StoredStaticKey => [EvSecretGet api_key]
  | StoredToken | NoCredential => [EvSecretGet api_key; EvSecretGet token_info]
  end.

(** The same keyring with every failing entry replaced by an absent one. *)
Definition unjam {A} (sl : Slot A) : Slot A :=
  match sl with
  | Jammed _ => Vacant
  | other => other
  end.

Definition unjam_keyring (k : Keyring) : Keyring :=
  {| slot_api_key := unjam (slot_api_key k);
     slot_client_id := unjam (slot_client_id k);
     slot_client_secret := unjam (slot_client_secret k);
     slot_token_info := unjam (slot_token_info k);
     set_fault := set_fault k |}.

Definition unjam_world (w : World) : World :=
  with_sys (set_keyring (unjam_keyring (keyring (sys w))) (sys w)) w.

End chain.

(** ** Vocabulary for the cache claims *)

Module props.
Import Go.

(** The world after [d] nanoseconds have passed. *)
Definition advance (d : Duration) (w : World) : World :=
  with_sys (set_clock (clock (sys w) + d) (sys w)) w.

Fixpoint is_prefix (p l : list ascii) : bool :=
  match p, l with
  | [], _ => true
  | _ :: _, [] => false
  | a :: p', b :: l' => if decide (a = b) then is_prefix p' l' else false
  end.

(** [s] ends with [suffix] (Go's [strings.HasSuffix]). *)
Definition ends_with (suffix s : string) : bool :=
  is_prefix (rev (list_ascii_of_string suffix)) (rev (list_ascii_of_string s)).

End props.

(** ** Concrete worlds used in the examples *)

Module fixtures.
Import Go auth.

Definition no_faults : FsOp -> string -> option error := fun _ _ => None.

Definition keyring_of (k id secret : Slot string) (t : Slot TokenInfo) : Keyring :=
  mkKeyring k id secret t (fun _ => None).

Definition endpoint_down : string -> string -> HttpOutcome :=
  fun _ _ => TransportError (ErrorString "dial tcp: connection refused").

Definition endpoint_rejects : string -> string -> HttpOutcome :=
  fun _ _ => Response 401 (mkBody "invalid_client" "Client authentication failed"
                                  (inl (mkTokenInfo "" "" 0 0 ""))).

Definition endpoint_grants (token : string) (expires_in : Z)
  : string -> string -> HttpOutcome :=
  fun _ _ => Response 200 (mkBody "" "" (inl (mkTokenInfo token "Bearer" expires_in 0 "read"))).

Definition world_of (env : gmap string string) (kr : Keyring)
    (ep : string -> string -> HttpOutcome) (now : Time) : World :=
  mkWorld (mkSys env ∅ no_faults (fun _ => None) now kr ep) [].

(** 2023-11-14T22:13:20Z *)
Definition t0 : Time := 1700000000 * Second.

Definition token_until (at_ : Time) : TokenInfo :=
  mkTokenInfo "stored-access-token" "Bearer" 86400 at_ "read".

(** Environment static key set; a stored static key and a valid stored token
    exist as well. *)
Definition w_env_key : World :=
  world_of {[ "LINEAR_API_KEY" := "lin_api_abc" ]}
    (keyring_of (Held "lin_api_stored") Vacant Vacant (Held (token_until (t0 + Hour))))
    endpoint_down t0.

(** All three environment variables set; the endpoint is unreachable. *)
Definition w_env_all : World :=
  world_of {[ "LINEAR_API_KEY" := "lin_api_abc";
              "LINEAR_CLIENT_ID" := "env-id";
              "LINEAR_CLIENT_SECRET" := "env-secret" ]}
    (keyring_of (Held "lin_api_stored") Vacant Vacant Vacant)
    endpoint_down t0.

(** Environment exchange credentials only; the endpoint rejects them while a
    stored static key exists. *)
Definition w_env_creds : World :=
  world_of {[ "LINEAR_CLIENT_ID" := "env-id"; "LINEAR_CLIENT_SECRET" := "env-secret" ]}
    (keyring_of (Held "lin_api_stored") Vacant Vacant (Held (token_until (t0 + Hour))))
    endpoint_rejects t0.

(** Only a stored token, expiring [d] from now, with a stored client secret. *)
Definition w_token (d : Duration) : World :=
  world_of ∅
    (keyring_of Vacant Vacant (Held "stored-secret") (Held (token_until (t0 + d))))
    (endpoint_grants "fresh-access-token" 3600) t0.

(** Only a stored token, already expired, and no client secret. *)
Definition w_expired_no_secret : World :=
  world_of ∅
    (keyring_of Vacant Vacant Vacant (Held (token_until (t0 - Hour))))
    endpoint_down t0.

(** The static-key entry cannot be read (vault locked); a valid token is
    stored. *)
Definition w_key_jammed : World :=
  world_of ∅
    (keyring_of (Jammed ErrPermission) Vacant Vacant (Held (token_until (t0 + Hour))))
    endpoint_down t0.

(** The token entry cannot be read. *)
Definition w_token_jammed : World :=
  world_of ∅
    (keyring_of Vacant Vacant (Held "stored-secret") (Jammed ErrPermission))
    endpoint_down t0.

(** A stale token whose refresh is rejected by the endpoint. *)
Definition w_refresh_rejected : World :=
  world_of ∅
    (keyring_of Vacant (Held "stored-id") (Held "stored-secret")
                (Held (token_until (t0 - Hour))))
    endpoint_rejects t0.

(** A stale token, a working endpoint, and a keyring that refuses writes. *)
Definition w_persist_fails : World :=
  world_of ∅
    (mkKeyring Vacant Vacant (Held "stored-secret") (Held (token_until (t0 - Hour)))
               (fun _ => Some ErrPermission))
    (endpoint_grants "fresh-access-token" 3600) t0.

(** A stored static key next to a stored token. *)
Definition w_key_and_token : World :=
  world_of ∅
    (keyring_of (Held "lin_api_stored") Vacant Vacant (Held (token_until (t0 - Hour))))
    endpoint_down t0.

(** *** For the cache *)

(** Joining with a slash, without cleaning. *)
Definition slash_join (a b : string) : string := a +:+ "/" +:+ b.

Fixpoint split_space (s : string) : option (string * string) :=
  match s with
  | EmptyString => None
  | String c rest =>
      if decide (c = " "%char) then Some (EmptyString, rest)
      else match split_space rest with
           | Some (a, b) => Some (String c a, b)
           | None => None
           end
  end.

(** A stand-in for [encoding/json] on [Entry[string]]: the timestamp in
    decimal, a space, the data. *)
Definition line_codec : cache.Cacheable string :=
  {| cache.zero := EmptyString;
     cache.json_MarshalIndent e :=
       (NilZero.string_of_int (Z.to_int (cache.Timestamp e)) +:+ " " +:+ cache.Data e, None);
     cache.json_Unmarshal s :=
       match split_space s with
       | Some (ts, data) =>
           match NilZero.int_of_string ts with
           | Some i => Some (cache.mkEntry data (Z.of_int i))
           | None => None
           end
       | None => None
       end |}.

Definition m0 : cache.Manager :=
  cache.mkManager "/home/u/.cache/agent-linear-cli" cache.DefaultTTL.

Definition teams_path : string := "/home/u/.cache/agent-linear-cli/teams-workspace.json".

Definition w_files (fs : gmap string File) (now : Time) : World :=
  mkWorld (mkSys ∅ fs no_faults (fun _ => None) now (keyring_of Vacant Vacant Vacant Vacant) endpoint_down) [].

(** An empty cache directory. *)
Definition w_cold : World := w_files ∅ t0.

(** An entry written at [t0], read [d] later. *)
Definition w_warm (d : Duration) : World :=
  w_files {[ teams_path := Regular "1700000000000000000 ENG,OPS" ]} (t0 + d).

(** A cache file that is not an entry. *)
Definition w_corrupt : World :=
  w_files {[ teams_path := Regular "{not json" ]} t0.

(** A cache file that cannot be read. *)
Definition w_denied : World :=
  w_files {[ teams_path := Unreadable ErrPermission ]} t0.

(** A cache directory that cannot be written. *)
Definition w_readonly : World :=
  mkWorld (mkSys ∅ ∅ (fun _ _ => Some ErrPermission) (fun _ => None) t0
                 (keyring_of Vacant Vacant Vacant Vacant) endpoint_down) [].

(** A full disk: the cache file can be opened and truncated, and the write
    stops after seven bytes. *)
Definition w_disk_full : World :=
  mkWorld (mkSys ∅ {[ teams_path := Regular "1600000000000000000 OLD" ]}
                 (fun op _ => match op with
                              | OpWriteFile => Some (ErrorString "no space left on device")
                              | _ => None
                              end)
                 (fun _ => Some 7%nat) t0
                 (keyring_of Vacant Vacant Vacant Vacant) endpoint_down) [].

(** An encoder that rejects every entry. *)
Definition mute_codec : cache.Cacheable string :=
  {| cache.zero := EmptyString;
     cache.json_MarshalIndent _ :=
       (EmptyString, Some (ErrorString "json: unsupported value"));
     cache.json_Unmarshal _ := None |}.

Definition fetch_ok : Sys -> (string * option error) * Sys :=
  fun s => (("ENG,OPS", None), s).

Definition fetch_fails : Sys -> (string * option error) * Sys :=
  fun s => ((EmptyString, Some (ErrorString "graphql: 503")), s).

End fixtures.

(** ** internal/auth/auth.go: login and logout *)

Module authops.
Import Go auth.

(** [strings.HasPrefix] *)
Definition strings_HasPrefix (s prefix : string) : bool := String.prefix prefix s.

Definition put_api_key (v : string) (k : Keyring) : Keyring :=
  {| slot_api_key := Held v; slot_client_id := slot_client_id k;
     slot_client_secret := slot_client_secret k; slot_token_info := slot_token_info k;
     set_fault := set_fault k |}.

Definition put_client_id (v : string) (k : Keyring) : Keyring :=
  {| slot_api_key := slot_api_key k; slot_client_id := Held v;
     slot_client_secret := slot_client_secret k; slot_token_info := slot_token_info k;
     set_fault := set_fault k |}.

Definition put_client_secret (v : string) (k : Keyring) : Keyring :=
  {| slot_api_key := slot_api_key k; slot_client_id := slot_client_id k;
     slot_client_secret := Held v; slot_token_info := slot_token_info k;
     set_fault := set_fault k |}.

(** A keyring write: it fails as [set_fault] says and then changes nothing. *)
Definition set_secret (n : SecretName) (put : Keyring -> Keyring) : M (option error) :=
  fun w =>
    match set_fault (keyring (sys w)) n with
    | Some e => (Some e, log (EvSecretSet n) w)
    | None =>
        (None, log (EvSecretSet n) (with_sys (set_keyring (put (keyring (sys w))) (sys w)) w))
    end.

(** Modelled from the spec: [Storage.SetAPIKey], [SetSecret] on [api_key]. *)
Definition storage_SetAPIKey (v : string) : M (option error) :=
  set_secret api_key (put_api_key v).

(** Modelled from the spec: [Storage.SetClientID], [SetSecret] on [client_id]. *)
Definition storage_SetClientID (v : string) : M (option error) :=
  set_secret client_id (put_client_id v).

(** Modelled from the spec: [Storage.SetClientSecret], [SetSecret] on
    [client_secret]. *)
Definition storage_SetClientSecret (v : string) : M (option error) :=
  set_secret client_secret (put_client_secret v).

Definition vacate (n : SecretName) (k : Keyring) : Keyring :=
  {| slot_api_key := match n with api_key => Vacant | _ => slot_api_key k end;
     slot_client_id := match n with client_id => Vacant | _ => slot_client_id k end;
     slot_client_secret := match n with client_secret => Vacant | _ => slot_client_secret k end;
     slot_token_info := match n with token_info => Vacant | _ => slot_token_info k end;
     set_fault := set_fault k |}.

(** [LoginWithAPIKey] *)
Definition LoginWithAPIKey (apiKey : string) : M (option error) :=
  (* Validate the API key format *)
  if negb (strings_HasPrefix apiKey "lin_api_") then
    mret (Some (ErrorString "invalid API key format: should start with 'lin_api_'"))
  else storage_SetAPIKey apiKey.

(** [LoginWithClientCredentials] *)
Definition LoginWithClientCredentials (clientID clientSecret : string) : M (option error) :=
  (* Validate by fetching a token *)
  '(_, err) ← fetchClientCredentialsToken clientID clientSecret;
  match err with
  | Some e => mret (Some (ErrWrap "invalid credentials: " e))
  | None =>
      (* Store credentials *)
      err ← storage_SetClientID clientID;
      match err with
      | Some e => mret (Some e)
      | None => storage_SetClientSecret clientSecret
      end
  end.

Section Logout.

(** Which deletions the keyring refuses, and the [Error()] text of an error
    value: both belong to code that is not among the sources. *)
Variable delete_fault : SecretName -> option error.
Variable Error_text : error -> string.

(** Modelled from the spec: the four [Storage.Delete...] methods,
    [DeleteSecret(name) -> error]; deleting an entry that is not there is not
    an error (logout with nothing stored succeeds).  The trace records a
    deletion as a write to the entry. *)
Definition storage_Delete (n : SecretName) : M (option error) :=
  fun w =>
    match delete_fault n with
    | Some e => (Some e, log (EvSecretSet n) w)
    | None =>
        (None, log (EvSecretSet n)
                   (with_sys (set_keyring (vacate n (keyring (sys w))) (sys w)) w))
    end.

(** [append(errs, err)] under [if err != nil]. *)
Definition collect (errs : list error) (err : option error) : list error :=
  match err with
  | Some e => errs ++ [e]
  | None => errs
  end.

(** [fmt]'s [%v] of a slice of errors: the texts in brackets, separated by
    spaces. *)
Fixpoint join_texts (texts : list string) : string :=
  match texts with
  | [] => EmptyString
  | [t] => t
  | t :: rest => t +:+ " " +:+ join_texts rest
  end.

Definition fmt_errors (errs : list error) : string :=
  "[" +:+ join_texts (map Error_text errs) +:+ "]".

(** [Logout] *)
Definition Logout : M (option error) :=
  let errs := [] in
  err ← storage_Delete api_key;
  let errs := collect errs err in
  err ← storage_Delete token_info;
  let errs := collect errs err in
  err ← storage_Delete client_id;
  let errs := collect errs err in
  err ← storage_Delete client_secret;
  let errs := collect errs err in
  if decide (0 < length errs)%nat then
    mret (Some (ErrorString ("logout completed with errors: " +:+ fmt_errors errs)))
  else mret None.

End Logout.

End authops.

(** ** Vocabulary and worlds for the login, logout and refresh properties *)

Module authfix.
Import Go auth fixtures.

(** Whether the keyring holds nothing under [n]. *)
Definition is_vacant (n : SecretName) (k : Keyring) : bool :=
  match n with
  | api_key => match slot_api_key k with Vacant => true | _ => false end
  | client_id => match slot_client_id k with Vacant => true | _ => false end
  | client_secret => match slot_client_secret k with Vacant => true | _ => false end
  | token_info => match slot_token_info k with Vacant => true | _ => false end
  end.

(** The keyrings [k] and [k'] hold the same thing under [n]. *)
Definition same_slot (n : SecretName) (k k' : Keyring) : Prop :=
  match n with
  | api_key => slot_api_key k = slot_api_key k'
  | client_id => slot_client_id k = slot_client_id k'
  | client_secret => slot_client_secret k = slot_client_secret k'
  | token_info => slot_token_info k = slot_token_info k'
  end.

(** The order in which [Logout] deletes. *)
Definition logout_order : list SecretName :=
  [api_key; token_info; client_id; client_secret].

(** The token an exchange stores: the decoded response with its expiry
    computed from the clock. *)
Definition stamped (now : Time) (decoded : TokenInfo) : TokenInfo :=
  with_ExpiresAt decoded (Time_Add now (wrap64 (ExpiresIn decoded * Second))).

Definition no_delete_fault : SecretName -> option error := fun _ => None.

Definition token_delete_fault : SecretName -> option error :=
  fun n => match n with token_info => Some ErrPermission | _ => None end.

Definition plain_text (e : error) : string :=
  match e with
  | ErrPermission => "permission denied"
  | ErrorString msg => msg
  | _ => "error"
  end.

(** Nothing stored, nothing in the environment. *)
Definition w_blank (ep : string -> string -> HttpOutcome) : World :=
  world_of ∅ (keyring_of Vacant Vacant Vacant Vacant) ep t0.

(** Nothing stored; the keyring refuses to store a client id. *)
Definition w_id_refused : World :=
  world_of ∅
    (mkKeyring Vacant Vacant Vacant Vacant
       (fun n => match n with client_id => Some ErrPermission | _ => None end))
    (endpoint_grants "fresh-access-token" 3600) t0.

(** Everything stored. *)
Definition w_full : World :=
  world_of ∅
    (keyring_of (Held "lin_api_stored") (Held "stored-id") (Held "stored-secret")
                (Held (token_until (t0 + Hour))))
    endpoint_down t0.

Definition granted : TokenInfo := mkTokenInfo "fresh-access-token" "Bearer" 3600 0 "read".

Definition granted_body : Body := mkBody "" "" (inl granted).

End authfix.

(** ** internal/cache/cache.go: clearing the whole cache *)

Module cacheops.
Import Go cache.

(** The loop of [filepath.Ext]: from the end of the path towards its start,
    stopping at a separator, returning the path from the first dot met. *)
Fixpoint ext_scan (backwards : list ascii) (seen : list ascii) : list ascii :=
  match backwards with
  | [] => []
  | c :: rest =>
      if decide (c = "/"%char) then []
      else if decide (c = "."%char) then c :: seen
      else ext_scan rest (c :: seen)
  end.

(** [filepath.Ext] (Unix separator). *)
Definition filepath_Ext (path : string) : string :=
  string_of_list_ascii (ext_scan (rev (list_ascii_of_string path)) []).

Section ClearAll.

Variable filepath_Join : string -> string -> string.

(** [os.ReadDir]: the names in a directory, or an error.  Directories are
    not part of [Sys], so what a directory lists is left to the caller of the
    model. *)
Variable os_ReadDir : Sys -> string -> list string * option error.

(** The body of [for _, entry := range entries]. *)
Fixpoint remove_json (m : Manager) (entries : list string) : M unit :=
  match entries with
  | [] => mret tt
  | name :: rest =>
      _ ← (if decide (filepath_Ext name = ".json")
           then _ ← os_Remove (filepath_Join (dir m) name); mret tt
           else mret tt);
      remove_json m rest
  end.

(** [Manager.ClearAll] *)
Definition ClearAll (m : Manager) : M (option error) :=
  fun w =>
    let '(entries, err) := os_ReadDir (sys w) (dir m) in
    match err with
    | Some e => if os_IsNotExist e then (None, w) else (Some e, w)
    | None =>
        let '(_, w') := remove_json m entries w in
        (None, w')
    end.

End ClearAll.

End cacheops.

(** ** internal/cmd: helpers of the user, config and issue commands *)

Module cmd.

(** [api.User] *)
Record User := mkUser {
  ID          : string;
  Name        : string;
  DisplayName : string;
  Email       : string;
  Active      : bool;
  Admin       : bool
}.

(** The loop of [filterUsers]: [continue] skips, [append] keeps. *)
Fixpoint filter_loop (activeOnly adminsOnly : bool) (users filtered : list User)
  : list User :=
  match users with
  | [] => filtered
  | u :: rest =>
      if activeOnly && negb (Active u) then filter_loop activeOnly adminsOnly rest filtered
      else if adminsOnly && negb (Admin u) then filter_loop activeOnly adminsOnly rest filtered
      else filter_loop activeOnly adminsOnly rest (filtered ++ [u])
  end.

(** [filterUsers] *)
Definition filterUsers (users : list User) (activeOnly adminsOnly : bool) : list User :=
  if negb activeOnly && negb adminsOnly then users
  else filter_loop activeOnly adminsOnly users [].

(** What [filterUsers] is asked to keep. *)
Definition wanted (activeOnly adminsOnly : bool) (u : User) : bool :=
  (negb activeOnly || Active u) && (negb adminsOnly || Admin u).

(** [strings.Contains]: [substr] occurs in [s] at some position. *)
Fixpoint strings_Contains (s substr : string) : bool :=
  String.prefix substr s
  || match s with
     | EmptyString => false
     | String _ rest => strings_Contains rest substr
     end.

(** [maskSecret]; [len] and the slices count bytes. *)
Definition maskSecret (secret : string) : string :=
  if (String.length secret <=? 8)%nat then "****"
  else substring 0 4 secret +:+ "..."
       +:+ substring (String.length secret - 4) 4 secret.

(** [strings.ReplaceAll] for a one-byte [old] and a one-byte [new]. *)
Fixpoint replace_byte (old new : ascii) (s : string) : string :=
  match s with
  | EmptyString => EmptyString
  | String c rest =>
      String (if decide (c = old) then new else c) (replace_byte old new rest)
  end.

(** The test of the rune loop in [slugify].  The three ranges are ASCII, and
    in UTF-8 no byte of a multi-byte or invalid sequence is ASCII, so ranging
    over runes keeps exactly the bytes that pass this test. *)
Definition is_slug_char (c : ascii) : bool :=
  let n := nat_of_ascii c in
  ((97 <=? n) && (n <=? 122) || (48 <=? n) && (n <=? 57) || (n =? 45))%nat.

Fixpoint keep_slug_chars (s : string) : string :=
  match s with
  | EmptyString => EmptyString
  | String c rest =>
      if is_slug_char c then String c (keep_slug_chars rest) else keep_slug_chars rest
  end.

Definition is_hyphen (c : ascii) : bool := bool_decide (c = "-"%char).

Definition first_char_is_hyphen (s : string) : bool :=
  match s with
  | String c _ => is_hyphen c
  | EmptyString => false
  end.

(** [strings.Contains(slug, "--")] *)
Fixpoint has_double_hyphen (s : string) : bool :=
  match s with
  | EmptyString => false
  | String c rest => is_hyphen c && first_char_is_hyphen rest || has_double_hyphen rest
  end.

(** [strings.ReplaceAll(slug, "--", "-")]: matches are taken from the left
    and do not overlap. *)
Fixpoint replace_double_hyphen (s : string) : string :=
  match s with
  | EmptyString => EmptyString
  | String c rest =>
      match rest with
      | String c' rest' =>
          if is_hyphen c && is_hyphen c' then String "-" (replace_double_hyphen rest')
          else String c (replace_double_hyphen rest)
      | EmptyString => String c EmptyString
      end
  end.

(** The loop [for strings.Contains(slug, "--") { slug = ReplaceAll(...) }],
    run for at most [fuel] rounds. *)
Fixpoint squeeze (fuel : nat) (slug : string) : string :=
  match fuel with
  | O => slug
  | S fuel' =>
      if has_double_hyphen slug then squeeze fuel' (replace_double_hyphen slug)
      else slug
  end.

Fixpoint trim_left_hyphens (s : string) : string :=
  match s with
  | EmptyString => EmptyString
  | String c rest => if is_hyphen c then trim_left_hyphens rest else s
  end.

Fixpoint trim_right_hyphens (s : string) : string :=
  match s with
  | EmptyString => EmptyString
  | String c rest =>
      match trim_right_hyphens rest with
      | EmptyString => if is_hyphen c then EmptyString else String c EmptyString
      | kept => String c kept
      end
  end.

(** [strings.Trim(slug, "-")] *)
Definition trim_hyphens (s : string) : string :=
  trim_right_hyphens (trim_left_hyphens s).

Fixpoint last_char_is_hyphen (s : string) : bool :=
  match s with
  | EmptyString => false
  | String c EmptyString => is_hyphen c
  | String _ rest => last_char_is_hyphen rest
  end.

Fixpoint all_slug_chars (s : string) : bool :=
  match s with
  | EmptyString => true
  | String c rest => is_slug_char c && all_slug_chars rest
  end.

Section WithToLower.

(** [strings.ToLower] of the standard library (it lowers Unicode letters,
    not only ASCII ones), left abstract. *)
Variable strings_ToLower : string -> string.

(** The test in the loop of [searchUsers]; [query] is already lowered. *)
Definition matches (query : string) (u : User) : bool :=
  strings_Contains (strings_ToLower (Name u)) query
  || strings_Contains (strings_ToLower (DisplayName u)) query
  || strings_Contains (strings_ToLower (Email u)) query.

Fixpoint search_loop (query : string) (users matched : list User) : list User :=
  match users with
  | [] => matched
  | u :: rest =>
      if matches query u then search_loop query rest (matched ++ [u])
      else search_loop query rest matched
  end.

(** [searchUsers] *)
Definition searchUsers (users : list User) (query : string) : list User :=
  let query := strings_ToLower query in
  search_loop query users [].

(** [slugify].  The squeezing loop gets as many rounds as the slug has
    bytes; [squeeze_enough] below shows that this is enough for it to end on
    its own. *)
Definition slugify (s : string) : string :=
  (* Convert to lowercase *)
  let s := strings_ToLower s in
  (* Replace spaces and underscores with hyphens *)
  let s := replace_byte " " "-" s in
  let s := replace_byte "_" "-" s in
  (* Remove non-alphanumeric characters (except hyphens) *)
  let result := keep_slug_chars s in
  (* Remove consecutive hyphens *)
  let slug := squeeze (String.length result) result in
  (* Trim hyphens from ends *)
  trim_hyphens slug.

(** [generateBranchName] *)
Definition generateBranchName (identifier title : string) : string :=
  let branch := strings_ToLower identifier in
  let slug := slugify title in
  let branch := if decide (slug ≠ EmptyString) then branch +:+ "-" +:+ slug else branch in
  if (50 <? String.length branch)%nat then substring 0 50 branch else branch.

End WithToLower.

(** Lowering of the ASCII letters only, for the examples. *)
Definition ascii_lower (c : ascii) : ascii :=
  let n := nat_of_ascii c in
  if ((65 <=? n) && (n <=? 90))%nat then ascii_of_nat (n + 32) else c.

Fixpoint ascii_ToLower (s : string) : string :=
  match s with
  | EmptyString => EmptyString
  | String c rest => String (ascii_lower c) (ascii_ToLower rest)
  end.

Definition ann : User := mkUser "u1" "Ann Lee" "ann" "ann@example.com" true true.
Definition bob : User := mkUser "u2" "Bob Ray" "bob" "bob@example.com" true false.
Definition cyd : User := mkUser "u3" "Cyd Orr" "cyd" "cyd@elsewhere.org" false true.

End cmd.

(** * Verification *)

Import Go auth cache chain props fixtures.


Lemma log_as_logs ev w : log ev w = logs [ev] w.
Proof. reflexivity. Qed.

Lemma logs_logs evs1 evs2 w : logs evs2 (logs evs1 w) = logs (evs1 ++ evs2) w.
Proof. unfold logs; simpl. by rewrite <- app_assoc. Qed.

Lemma logs_nil w : logs [] w = w.
Proof. destruct w. unfold logs; simpl. by rewrite app_nil_r. Qed.

(** Bring nested trace extensions into the form [logs evs w]. *)
Ltac norm_trace :=
  rewrite ?log_as_logs; rewrite ?logs_logs; simpl app.

Lemma usable_get n sl w :
  get_string n sl w =
  (match usable (sl (keyring (sys w))) with
   | Some v => (v, None)
   | None =>
       match sl (keyring (sys w)) with
       | Held v => (v, None)
       | Vacant => (EmptyString, Some ErrNotFound)
       | Jammed e => (EmptyString, Some e)
       end
   end, logs [EvSecretGet n] w).
Proof.
  unfold get_string, usable. destruct (sl _); try reflexivity.
  case_decide; reflexivity.
Qed.

Lemma Time_Before_fresh s t :
  Time_Before (Time_Add (clock s) TokenExpiryBuffer) (ExpiresAt t) = fresh s t.
Proof.
  unfold Time_Before, Time_Add, fresh.
  destruct (Z.ltb_spec (clock s + TokenExpiryBuffer) (ExpiresAt t));
    symmetry; [apply bool_decide_eq_true | apply bool_decide_eq_false]; lia.
Qed.

Lemma GetToken_resolves w : resolved_by w (spec_priority (sys w)) (GetToken w).
Proof.
  unfold spec_priority, GetToken, resolved_by.
  unfold mbind, M_bind, mret, M_ret, os_Getenv, getenv. simpl.
  case_decide; [reflexivity|].
  case_decide.
  { unfold exchanged. destruct (fetchClientCredentialsToken _ _ w) as [[tok [e|]] w']; reflexivity. }
  unfold storage_GetAPIKey, storage_GetTokenInfo, storage_GetClientSecret,
    storage_GetClientID, time_Now, get_string, usable, refresh_client_id, exchanged.
  simpl.
  destruct (slot_api_key (keyring (sys w))) as [|v|e] eqn:Hk;
  destruct (slot_token_info (keyring (sys w))) as [|t|e'] eqn:Ht;
  destruct (slot_client_secret (keyring (sys w))) as [|cs|es] eqn:Hs;
  destruct (slot_client_id (keyring (sys w))) as [|ci|ei] eqn:Hi;
  simpl;
  repeat first
    [ progress (rewrite ?Hk, ?Ht, ?Hs, ?Hi, ?Time_Before_fresh; simpl)
    | case_decide
    | match goal with
      | |- ∃ _, _ ∧ _ => eexists; split; [reflexivity|]
      | |- context [fresh ?s ?t] => destruct (fresh s t)
      end ];
  try (exfalso; naive_solver); norm_trace; try reflexivity.
  all: try match goal with
       | |- context [fetchClientCredentialsToken ?a ?b ?c] =>
           destruct (fetchClientCredentialsToken a b c) as [[tok [er|]] w']
       end; try reflexivity.
Qed.

(** *** Traces *)

Lemma new_events_trace {A} (c : M A) w evs :
  trace (snd (c w)) = trace w ++ evs → new_events c w = evs.
Proof. unfold new_events. intros ->. apply drop_app_length. Qed.

Lemma new_events_logs {A} (c : M A) w evs :
  snd (c w) = logs evs w → new_events c w = evs.
Proof. intros E. apply new_events_trace. by rewrite E. Qed.

Lemma count_none (p q : Event -> bool) evs :
  (∀ ev, p ev = true → q ev = true) → count q evs = 0%nat → count p evs = 0%nat.
Proof.
  intros Hpq. unfold count. induction evs as [|ev evs IH]; simpl; [done|].
  destruct (q ev) eqn:Eq; simpl; [done|]. intros Hq.
  destruct (p ev) eqn:Ep; simpl; [|by apply IH].
  apply Hpq in Ep. congruence.
Qed.

Lemma count_app p l1 l2 : count p (l1 ++ l2) = (count p l1 + count p l2)%nat.
Proof. unfold count. by rewrite List.filter_app, length_app. Qed.

Lemma snd_exchanged prefix r : snd (exchanged prefix r) = snd r.
Proof. by destruct r as [[tok [e|]] w']. Qed.

Lemma fst_exchanged prefix r :
  fst (exchanged prefix r) =
  match fst r with
  | (_, Some e) => (EmptyString, AuthMethodNone, Some (ErrWrap prefix e))
  | (token, None) => (token, AuthMethodClientCredentials, None)
  end.
Proof. by destruct r as [[tok [e|]] w']. Qed.

(** *** The token exchange *)

(** A failed exchange has sent its request and done nothing else. *)
Lemma fetch_failure id secret w tok e :
  fst (fetchClientCredentialsToken id secret w) = (tok, Some e) →
  tok = EmptyString ∧
  snd (fetchClientCredentialsToken id secret w) = logs [EvExchange id secret] w.
Proof.
  unfold fetchClientCredentialsToken, http_PostToken, time_Now, storage_SetTokenInfo, emit.
  unfold mbind, M_bind, mret, M_ret. simpl.
  destruct (token_endpoint _ _ _) as [e0|code body]; simpl.
  { intros [= <- <-]. done. }
  repeat case_decide; simpl; try (intros [= <- <-]; done).
  destruct (tokenResp body) as [d|e1]; simpl; try (intros [= <- <-]; done).
  destruct (set_fault _ _); simpl; intros [=].
Qed.

(** Every exchange sends exactly one request; what follows it in the trace is
    the best-effort write of the new token. *)
Lemma fetch_trace id secret w :
  ∃ evs, trace (snd (fetchClientCredentialsToken id secret w))
         = trace w ++ EvExchange id secret :: evs
         ∧ count is_exchange evs = 0%nat ∧ count is_secret_get evs = 0%nat.
Proof.
  unfold fetchClientCredentialsToken, http_PostToken, time_Now, storage_SetTokenInfo, emit.
  unfold mbind, M_bind, mret, M_ret. simpl.
  destruct (token_endpoint _ _ _) as [e0|code body]; simpl.
  { by exists []. }
  repeat case_decide; simpl; try by exists [].
  destruct (tokenResp body) as [d|e1]; simpl; try by exists [].
  destruct (set_fault _ _); simpl; rewrite <- !app_assoc; simpl;
    eexists; (split; [reflexivity|done]).
Qed.

(** *** Which branch applies *)

Lemma priority_stored w :
  getenv (sys w) "LINEAR_API_KEY" = EmptyString →
  ¬ (getenv (sys w) "LINEAR_CLIENT_ID" ≠ EmptyString
     ∧ getenv (sys w) "LINEAR_CLIENT_SECRET" ≠ EmptyString) →
  spec_priority (sys w) =
    match usable (slot_api_key (keyring (sys w))) with
    | Some _ => StoredStaticKey
    | None => match slot_token_info (keyring (sys w)) with
              | Held _ => StoredToken
              | _ => NoCredential
              end
    end.
Proof.
  intros Hk Hc. unfold spec_priority.
  case_decide; [done|]. case_decide; [done|]. reflexivity.
Qed.

(** ** Claims about [GetToken] *)

(** C1.  Whenever LINEAR_API_KEY holds a non-empty value, [GetToken] returns
    exactly that value with the api_key method and leaves the world as it
    found it: the trace gains no event, so no keyring entry is read and no
    token-exchange request is sent, whatever the keyring holds. *)
Theorem GetToken_env_static_key (w : World) (k : string) :
  environ (sys w) !! "LINEAR_API_KEY" = Some k →
  k ≠ EmptyString →
  GetToken w = ((k, AuthMethodAPIKey, None), w)
  ∧ new_events GetToken w = []
  ∧ count is_secret_get (new_events GetToken w) = 0%nat
  ∧ count is_exchange (new_events GetToken w) = 0%nat.
Proof.
  intros Hk Hne.
  assert (E : GetToken w = ((k, AuthMethodAPIKey, None), w)).
  { pose proof (GetToken_resolves w) as R.
    unfold spec_priority, getenv in R. rewrite Hk in R. simpl in R.
    case_decide; [|done]. simpl in R. unfold getenv in R. by rewrite Hk in R. }
  assert (N : new_events GetToken w = []).
  { apply new_events_logs. rewrite E. simpl. by rewrite logs_nil. }
  rewrite N. done.
Qed.

Lemma GetToken_env_static_key_witness :
  environ (sys w_env_key) !! "LINEAR_API_KEY" = Some "lin_api_abc"
  ∧ slot_api_key (keyring (sys w_env_key)) = Held "lin_api_stored"
  ∧ fresh (sys w_env_key) (token_until (t0 + Hour)) = true
  ∧ GetToken w_env_key = (("lin_api_abc", AuthMethodAPIKey, None), w_env_key)
  ∧ count is_exchange (new_events GetToken w_env_key) = 0%nat.
Proof.
  split; [reflexivity|]. split; [reflexivity|]. split; [reflexivity|].
  destruct (GetToken_env_static_key w_env_key "lin_api_abc") as (E & _ & _ & X);
    [reflexivity | discriminate | ].
  split; [exact E | exact X].
Defined.

(** What [GetToken] does once the stored-token branch is the applicable one. *)
Lemma GetToken_stored_token w t :
  getenv (sys w) "LINEAR_API_KEY" = EmptyString →
  ¬ (getenv (sys w) "LINEAR_CLIENT_ID" ≠ EmptyString
     ∧ getenv (sys w) "LINEAR_CLIENT_SECRET" ≠ EmptyString) →
  usable (slot_api_key (keyring (sys w))) = None →
  slot_token_info (keyring (sys w)) = Held t →
  if fresh (sys w) t then
    GetToken w = ((AccessToken t, AuthMethodClientCredentials, None),
                  logs [EvSecretGet api_key; EvSecretGet token_info] w)
  else
    match usable (slot_client_secret (keyring (sys w))) with
    | Some secret =>
        GetToken w =
        exchanged "token refresh failed: "
          (fetchClientCredentialsToken (refresh_client_id (sys w)) secret
             (logs [EvSecretGet api_key; EvSecretGet token_info;
                    EvSecretGet client_secret; EvSecretGet client_id] w))
    | None =>
        GetToken w =
        not_authenticated
          (logs [EvSecretGet api_key; EvSecretGet token_info;
                 EvSecretGet client_secret] w)
    end.
Proof.
  intros Hk Hc Hu Ht.
  pose proof (GetToken_resolves w) as R.
  rewrite (priority_stored w Hk Hc), Hu, Ht in R. simpl in R.
  destruct R as (t' & Ht' & R). rewrite Ht in Ht'. by injection Ht' as <-.
Qed.

(** The events of a refresh: three lookups that lead to it, the client-id
    lookup, one exchange request, then the best-effort write. *)
Lemma refresh_events prefix id secret w pre :
  ∃ evs, new_events (fun w0 => exchanged prefix
                        (fetchClientCredentialsToken id secret (logs pre w0))) w
         = pre ++ EvExchange id secret :: evs
         ∧ count is_exchange evs = 0%nat ∧ count is_secret_get evs = 0%nat.
Proof.
  destruct (fetch_trace id secret (logs pre w)) as (evs & E & X & G).
  exists evs. split; [|done].
  apply new_events_trace. rewrite snd_exchanged, E. simpl.
  by rewrite <- app_assoc.
Qed.

(** C2.  With no environment credential and no stored static key, a stored
    token is returned unchanged and without any exchange request exactly when
    now + 5 minutes is strictly before its expiry.  At expiry = now + 4m59s
    the token is stale: [GetToken] goes on to the refresh step (it looks up
    the stored client secret, and with a secret in store sends one exchange
    request under the stored or default client id).  At expiry = now + 5m01s
    the stored token is returned after the two keyring lookups alone. *)
Theorem GetToken_refresh_buffer (w : World) (t : TokenInfo) :
  getenv (sys w) "LINEAR_API_KEY" = EmptyString →
  ¬ (getenv (sys w) "LINEAR_CLIENT_ID" ≠ EmptyString
     ∧ getenv (sys w) "LINEAR_CLIENT_SECRET" ≠ EmptyString) →
  usable (slot_api_key (keyring (sys w))) = None →
  slot_token_info (keyring (sys w)) = Held t →
  ((fst (GetToken w) = (AccessToken t, AuthMethodClientCredentials, None)
    ∧ count is_exchange (new_events GetToken w) = 0%nat)
   ↔ clock (sys w) + 5 * Minute < ExpiresAt t)
  ∧ (ExpiresAt t = clock (sys w) + (4 * Minute + 59 * Second) →
     take 3 (new_events GetToken w)
       = [EvSecretGet api_key; EvSecretGet token_info; EvSecretGet client_secret]
     ∧ ∀ secret, usable (slot_client_secret (keyring (sys w))) = Some secret →
         count is_exchange (new_events GetToken w) = 1%nat
         ∧ EvExchange (refresh_client_id (sys w)) secret ∈ new_events GetToken w)
  ∧ (ExpiresAt t = clock (sys w) + (5 * Minute + 1 * Second) →
     GetToken w = ((AccessToken t, AuthMethodClientCredentials, None),
                   logs [EvSecretGet api_key; EvSecretGet token_info] w)
     ∧ count is_exchange (new_events GetToken w) = 0%nat).
Proof.
  intros Hk Hc Hu Ht.
  pose proof (GetToken_stored_token w t Hk Hc Hu Ht) as R.
  assert (F : fresh (sys w) t = true ↔ clock (sys w) + 5 * Minute < ExpiresAt t).
  { unfold fresh, TokenExpiryBuffer. apply bool_decide_eq_true. }
  assert (S : fresh (sys w) t = false →
     take 3 (new_events GetToken w)
       = [EvSecretGet api_key; EvSecretGet token_info; EvSecretGet client_secret]
     ∧ (fst (GetToken w) = (AccessToken t, AuthMethodClientCredentials, None) →
        count is_exchange (new_events GetToken w) ≠ 0%nat)
     ∧ ∀ secret, usable (slot_client_secret (keyring (sys w))) = Some secret →
         count is_exchange (new_events GetToken w) = 1%nat
         ∧ EvExchange (refresh_client_id (sys w)) secret ∈ new_events GetToken w).
  { intros Hf. rewrite Hf in R.
    destruct (usable (slot_client_secret (keyring (sys w)))) as [secret|] eqn:Hs.
    - destruct (refresh_events "token refresh failed: " (refresh_client_id (sys w)) secret w
                  [EvSecretGet api_key; EvSecretGet token_info;
                   EvSecretGet client_secret; EvSecretGet client_id])
        as (evs & E & X & _).
      assert (E' : new_events GetToken w =
                   [EvSecretGet api_key; EvSecretGet token_info;
                    EvSecretGet client_secret; EvSecretGet client_id]
                   ++ EvExchange (refresh_client_id (sys w)) secret :: evs).
      { rewrite <- E. unfold new_events. by rewrite R. }
      rewrite E'. split; [reflexivity|].
      assert (C : count is_exchange
                    ([EvSecretGet api_key; EvSecretGet token_info;
                      EvSecretGet client_secret; EvSecretGet client_id]
                     ++ EvExchange (refresh_client_id (sys w)) secret :: evs) = 1%nat).
      { rewrite count_app. change (0 + S (count is_exchange evs) = 1)%nat. lia. }
      split; [rewrite C; lia|].
      intros ? [= <-]. split; [exact C|].
      apply elem_of_app. right. apply elem_of_cons. by left.
    - assert (E' : new_events GetToken w =
                   [EvSecretGet api_key; EvSecretGet token_info; EvSecretGet client_secret]).
      { apply new_events_logs. by rewrite R. }
      rewrite E'. split; [reflexivity|]. split; [|done].
      rewrite R. discriminate. }
  assert (Y : fresh (sys w) t = true →
     GetToken w = ((AccessToken t, AuthMethodClientCredentials, None),
                   logs [EvSecretGet api_key; EvSecretGet token_info] w)
     ∧ count is_exchange (new_events GetToken w) = 0%nat).
  { intros Hf. rewrite Hf in R. split; [exact R|].
    rewrite (new_events_logs GetToken w [EvSecretGet api_key; EvSecretGet token_info]);
      [reflexivity | by rewrite R]. }
  split; [|split].
  - split.
    + intros [Hr Hx]. apply F. destruct (fresh (sys w) t) eqn:Hf; [done|].
      destruct (S eq_refl) as (_ & N & _). by destruct (N Hr).
    + intros Hlt. apply F in Hlt. destruct (Y Hlt) as [-> ?]. done.
  - intros He.
    assert (Hf : fresh (sys w) t = false).
    { apply not_true_is_false. rewrite F, He. unfold Minute, Second, Nanosecond. lia. }
    destruct (S Hf) as (T3 & _ & X). done.
  - intros He. apply Y, F. rewrite He. unfold Minute, Second, Nanosecond. lia.
Qed.

Lemma GetToken_refresh_buffer_witness :
  (getenv (sys (w_token (4 * Minute + 59 * Second))) "LINEAR_API_KEY" = EmptyString
   ∧ usable (slot_api_key (keyring (sys (w_token (4 * Minute + 59 * Second))))) = None
   ∧ count is_exchange (new_events GetToken (w_token (4 * Minute + 59 * Second))) = 1%nat)
  ∧ fst (GetToken (w_token (5 * Minute + 1 * Second)))
    = ("stored-access-token", AuthMethodClientCredentials, None).
Proof.
  split.
  - split; [reflexivity|]. split; [reflexivity|].
    destruct (GetToken_refresh_buffer (w_token (4 * Minute + 59 * Second))
                (token_until (t0 + (4 * Minute + 59 * Second)))) as (_ & A & _);
      [reflexivity | intros [H _]; by apply H | reflexivity | reflexivity | ].
    destruct (A eq_refl) as (_ & X).
    destruct (X "stored-secret" eq_refl) as (C & _). exact C.
  - destruct (GetToken_refresh_buffer (w_token (5 * Minute + 1 * Second))
                (token_until (t0 + (5 * Minute + 1 * Second)))) as (_ & _ & B);
      [reflexivity | intros [H _]; by apply H | reflexivity | reflexivity | ].
    destruct (B eq_refl) as (E & _). by rewrite E.
Defined.

(** C3, as stated, fails: here the lookup of the stored static key returns a
    permission error (not "not found"), and [GetToken] answers with the
    stored token and no error; and where the lookup of the stored token
    fails, the caller gets "not authenticated", not the lookup's error. *)
Lemma GetToken_lookup_error_swallowed :
  (fst (storage_GetAPIKey w_key_jammed) = (EmptyString, Some ErrPermission)
   ∧ fst (GetToken w_key_jammed)
     = ("stored-access-token", AuthMethodClientCredentials, None))
  ∧ (fst (storage_GetTokenInfo w_token_jammed) = (None, Some ErrPermission)
     ∧ fst (GetToken w_token_jammed) = fst (not_authenticated w_token_jammed)).
Proof. repeat split. Qed.

Lemma fetch_fst_logs id secret evs w :
  fst (fetchClientCredentialsToken id secret (logs evs w))
  = fst (fetchClientCredentialsToken id secret w).
Proof.
  unfold fetchClientCredentialsToken, http_PostToken, time_Now, storage_SetTokenInfo, emit.
  unfold mbind, M_bind, mret, M_ret. simpl.
  destruct (token_endpoint _ _ _) as [e0|code body]; simpl; [done|].
  repeat case_decide; simpl; try done.
  destruct (tokenResp body) as [d|e1]; simpl; [|done].
  by destruct (set_fault _ _).
Qed.

Lemma fetch_unjam id secret evs w :
  fst (fetchClientCredentialsToken id secret (logs evs (unjam_world w)))
  = fst (fetchClientCredentialsToken id secret (logs evs w))
  ∧ trace (snd (fetchClientCredentialsToken id secret (logs evs (unjam_world w))))
    = trace (snd (fetchClientCredentialsToken id secret (logs evs w))).
Proof.
  unfold fetchClientCredentialsToken, http_PostToken, time_Now, storage_SetTokenInfo, emit.
  unfold mbind, M_bind, mret, M_ret. simpl.
  destruct (token_endpoint _ _ _) as [e0|code body]; simpl; [done|].
  repeat case_decide; simpl; try done.
  destruct (tokenResp body) as [d|e1]; simpl; [|done].
  by destruct (set_fault _ _).
Qed.

Lemma usable_unjam sl : usable (unjam sl) = usable sl.
Proof. by destruct sl. Qed.

Lemma priority_unjam w : spec_priority (sys (unjam_world w)) = spec_priority (sys w).
Proof.
  unfold spec_priority, getenv. simpl. rewrite usable_unjam.
  by destruct (slot_token_info (keyring (sys w))).
Qed.

Lemma refresh_client_id_unjam w :
  refresh_client_id (sys (unjam_world w)) = refresh_client_id (sys w).
Proof. unfold refresh_client_id. simpl. by destruct (slot_client_id (keyring (sys w))). Qed.

(** A failing keyring entry is indistinguishable from an absent one. *)
Lemma GetToken_unjam w :
  fst (GetToken (unjam_world w)) = fst (GetToken w)
  ∧ trace (snd (GetToken (unjam_world w))) = trace (snd (GetToken w)).
Proof.
  pose proof (GetToken_resolves w) as R.
  pose proof (GetToken_resolves (unjam_world w)) as R'.
  rewrite priority_unjam in R'.
  destruct (spec_priority (sys w)); unfold resolved_by in R, R';
    cbv beta iota zeta in R, R'.
  - by rewrite R, R'.
  - rewrite R, R'. clear R R'. unfold getenv; simpl.
    destruct (fetch_unjam (default EmptyString (environ (sys w) !! "LINEAR_CLIENT_ID"))
                (default EmptyString (environ (sys w) !! "LINEAR_CLIENT_SECRET")) [] w)
      as [E1 E2].
    rewrite !logs_nil in E1, E2.
    by rewrite !fst_exchanged, !snd_exchanged, E1, E2.
  - destruct R as (v & Hv & ->). destruct R' as (v' & Hv' & ->).
    simpl in Hv'. rewrite usable_unjam in Hv'. by simplify_eq.
  - destruct R as (t & Ht & R). destruct R' as (t' & Ht' & R').
    simpl in Ht'. rewrite Ht in Ht'. simpl in Ht'. injection Ht' as <-.
    change (fresh (sys (unjam_world w)) t) with (fresh (sys w) t) in R'.
    change (keyring (sys (unjam_world w))) with (unjam_keyring (keyring (sys w))) in R'.
    change (slot_client_secret (unjam_keyring (keyring (sys w))))
      with (unjam (slot_client_secret (keyring (sys w)))) in R'.
    destruct (fresh (sys w) t); [by rewrite R, R'|].
    rewrite usable_unjam in R'.
    destruct (usable (slot_client_secret (keyring (sys w)))) as [secret|].
    + rewrite R, R', (refresh_client_id_unjam w). clear R R'.
      destruct (fetch_unjam (refresh_client_id (sys w)) secret
                  [EvSecretGet api_key; EvSecretGet token_info;
                   EvSecretGet client_secret; EvSecretGet client_id] w) as [E1 E2].
      by rewrite !fst_exchanged, !snd_exchanged, E1, E2.
    + by rewrite R, R'.
  - by rewrite R, R'.
Qed.

Lemma priority_env_exchange w :
  getenv (sys w) "LINEAR_API_KEY" = EmptyString →
  getenv (sys w) "LINEAR_CLIENT_ID" ≠ EmptyString →
  getenv (sys w) "LINEAR_CLIENT_SECRET" ≠ EmptyString →
  spec_priority (sys w) = EnvExchange.
Proof.
  intros Hk Hi Hs. unfold spec_priority.
  case_decide; [done|]. case_decide; [done|]. naive_solver.
Qed.

(** C3 (amended).  Of the steps [GetToken] attempts, the token exchanges are
    the ones whose failure reaches the caller: a failed exchange with the
    environment credentials and a failed refresh of a stale stored token are
    returned (wrapped) and nothing further is tried.  A keyring lookup that
    fails is not reported: the answer and the calls made are those of the same
    keyring with every failing entry absent.  Failing to store a newly
    exchanged token does not fail the exchange. *)
Theorem GetToken_failure_policy (w : World) :
  (∀ tok e,
     spec_priority (sys w) = EnvExchange →
     fst (fetchClientCredentialsToken (getenv (sys w) "LINEAR_CLIENT_ID")
            (getenv (sys w) "LINEAR_CLIENT_SECRET") w) = (tok, Some e) →
     fst (GetToken w)
     = (EmptyString, AuthMethodNone, Some (ErrWrap "client credentials auth failed: " e)))
  ∧ (∀ t secret tok e,
       spec_priority (sys w) = StoredToken →
       slot_token_info (keyring (sys w)) = Held t →
       fresh (sys w) t = false →
       usable (slot_client_secret (keyring (sys w))) = Some secret →
       fst (fetchClientCredentialsToken (refresh_client_id (sys w)) secret w)
       = (tok, Some e) →
       fst (GetToken w)
       = (EmptyString, AuthMethodNone, Some (ErrWrap "token refresh failed: " e)))
  ∧ (fst (GetToken w) = fst (GetToken (unjam_world w))
     ∧ new_events GetToken w = new_events GetToken (unjam_world w))
  ∧ (∀ id secret body d e,
       token_endpoint (sys w) id secret = Response StatusOK body →
       tokenResp body = inl d →
       set_fault (keyring (sys w)) token_info = Some e →
       fst (fetchClientCredentialsToken id secret w) = (AccessToken d, None)).
Proof.
  pose proof (GetToken_resolves w) as R.
  split; [|split; [|split]].
  - intros tok e Hb Hf. rewrite Hb in R. simpl in R.
    by rewrite R, fst_exchanged, Hf.
  - intros t secret tok e Hb Ht Hfr Hs Hf. rewrite Hb in R. simpl in R.
    destruct R as (t' & Ht' & R). rewrite Ht in Ht'. injection Ht' as <-.
    rewrite Hfr, Hs in R.
    by rewrite R, fst_exchanged, fetch_fst_logs, Hf.
  - destruct (GetToken_unjam w) as [E1 E2]. split; [done|].
    unfold new_events. by rewrite E2.
  - intros id secret body d e Hr Hd Hs.
    unfold fetchClientCredentialsToken, http_PostToken, time_Now, storage_SetTokenInfo, emit.
    unfold mbind, M_bind, mret, M_ret. simpl. rewrite Hr. simpl.
    rewrite Hd. simpl. by rewrite Hs.
Qed.

Lemma GetToken_failure_policy_witness :
  (spec_priority (sys w_refresh_rejected) = StoredToken
   ∧ fresh (sys w_refresh_rejected) (token_until (t0 - Hour)) = false
   ∧ fst (GetToken w_refresh_rejected)
     = (EmptyString, AuthMethodNone,
        Some (ErrWrap "token refresh failed: "
                (ErrorString "invalid_client: Client authentication failed"))))
  ∧ (set_fault (keyring (sys w_persist_fails)) token_info = Some ErrPermission
     ∧ fst (fetchClientCredentialsToken DefaultClientID "stored-secret" w_persist_fails)
       = ("fresh-access-token", None)).
Proof.
  split.
  - split; [reflexivity|]. split; [reflexivity|].
    destruct (GetToken_failure_policy w_refresh_rejected) as (_ & B & _).
    apply (B (token_until (t0 - Hour)) "stored-secret" EmptyString); reflexivity.
  - split; [reflexivity|].
    destruct (GetToken_failure_policy w_persist_fails) as (_ & _ & _ & D).
    apply (D DefaultClientID "stored-secret"
             (mkBody "" "" (inl (mkTokenInfo "fresh-access-token" "Bearer" 3600 0 "read")))
             (mkTokenInfo "fresh-access-token" "Bearer" 3600 0 "read") ErrPermission);
      reflexivity.
Defined.

(** C4, as stated, fails: both exchange variables are set and non-empty, yet
    with LINEAR_API_KEY set as well [GetToken] performs no exchange and
    returns the static key. *)
Lemma GetToken_env_key_preempts_exchange :
  getenv (sys w_env_all) "LINEAR_CLIENT_ID" = "env-id"
  ∧ getenv (sys w_env_all) "LINEAR_CLIENT_SECRET" = "env-secret"
  ∧ GetToken w_env_all = (("lin_api_abc", AuthMethodAPIKey, None), w_env_all)
  ∧ count is_exchange (new_events GetToken w_env_all) = 0%nat.
Proof. repeat split. Qed.

(** C4 (amended).  With LINEAR_API_KEY unset or empty and both exchange
    variables non-empty, [GetToken] is the exchange with those credentials:
    the request is the first thing it does and no keyring entry is read; if
    the exchange fails, the failure is returned, wrapped, and the only event
    of the whole call is that one request. *)
Theorem GetToken_env_exchange (w : World) (id secret : string) :
  getenv (sys w) "LINEAR_API_KEY" = EmptyString →
  getenv (sys w) "LINEAR_CLIENT_ID" = id → id ≠ EmptyString →
  getenv (sys w) "LINEAR_CLIENT_SECRET" = secret → secret ≠ EmptyString →
  GetToken w = exchanged "client credentials auth failed: "
                 (fetchClientCredentialsToken id secret w)
  ∧ (∃ evs, new_events GetToken w = EvExchange id secret :: evs
            ∧ count is_secret_get evs = 0%nat ∧ count is_exchange evs = 0%nat)
  ∧ (∀ tok e,
       fst (fetchClientCredentialsToken id secret w) = (tok, Some e) →
       GetToken w = ((EmptyString, AuthMethodNone,
                      Some (ErrWrap "client credentials auth failed: " e)),
                     logs [EvExchange id secret] w)
       ∧ count is_secret_get (new_events GetToken w) = 0%nat).
Proof.
  intros Hk Hi Hine Hs Hsne.
  pose proof (GetToken_resolves w) as R.
  rewrite (priority_env_exchange w) in R by congruence.
  simpl in R. rewrite Hi, Hs in R.
  split; [exact R|]. split.
  - destruct (fetch_trace id secret w) as (evs & E & X & G).
    exists evs. split; [|done].
    apply new_events_trace. by rewrite R, snd_exchanged.
  - intros tok e Hf. destruct (fetch_failure id secret w tok e Hf) as [-> Hw].
    assert (E : GetToken w = ((EmptyString, AuthMethodNone,
                      Some (ErrWrap "client credentials auth failed: " e)),
                     logs [EvExchange id secret] w)).
    { rewrite R. destruct (fetchClientCredentialsToken id secret w) as [[tok' o] w'].
      simpl in *. by simplify_eq. }
    split; [exact E|].
    rewrite (new_events_logs GetToken w [EvExchange id secret]); [done | by rewrite E].
Qed.

Lemma GetToken_env_exchange_witness :
  getenv (sys w_env_creds) "LINEAR_API_KEY" = EmptyString
  ∧ slot_api_key (keyring (sys w_env_creds)) = Held "lin_api_stored"
  ∧ GetToken w_env_creds
    = ((EmptyString, AuthMethodNone,
        Some (ErrWrap "client credentials auth failed: "
                (ErrorString "invalid_client: Client authentication failed"))),
       logs [EvExchange "env-id" "env-secret"] w_env_creds).
Proof.
  split; [reflexivity|]. split; [reflexivity|].
  destruct (GetToken_env_exchange w_env_creds "env-id" "env-secret") as (_ & _ & F);
    [reflexivity | reflexivity | discriminate | reflexivity | discriminate | ].
  destruct (F EmptyString (ErrorString "invalid_client: Client authentication failed"))
    as [E _]; [reflexivity | exact E].
Defined.

(** ** Claims about [GetStatus] *)

(** [GetStatus] in closed form: the status of the first applicable branch,
    and the keyring lookups made on the way there. *)
Lemma GetStatus_run w :
  GetStatus w = ((spec_status (sys w) (spec_priority (sys w)), None),
                 logs (status_reads (spec_priority (sys w))) w).
Proof.
  unfold spec_priority, GetStatus, spec_status, status_reads.
  unfold mbind, M_bind, mret, M_ret, os_Getenv, getenv. simpl.
  case_decide; [by rewrite logs_nil|].
  case_decide; [by rewrite logs_nil|].
  unfold storage_GetAPIKey, storage_GetTokenInfo, get_string, usable. simpl.
  destruct (slot_api_key (keyring (sys w))) as [|v|e] eqn:Hk;
  destruct (slot_token_info (keyring (sys w))) as [|t|e'] eqn:Ht;
  simpl;
  repeat first
    [ progress (rewrite ?Hk, ?Ht; simpl)
    | case_decide ];
  try (exfalso; naive_solver); norm_trace; reflexivity.
Qed.

Lemma count_status_reads p b :
  (∀ n, p (EvSecretGet n) = false) → count p (status_reads b) = 0%nat.
Proof. intros Hp. destruct b; simpl; unfold count; simpl; rewrite ?Hp; done. Qed.

(** C9.  From every world, [GetStatus] leaves the system state as it was (the
    keyring, the cache files and everything else in [Sys]); the events it
    adds are keyring lookups only, so it sends no exchange request and changes
    nothing; it returns no error.  The status it reports is that of the first
    applicable branch of the chain env static key, env exchange credentials,
    stored static key, stored token, and [GetToken] resolves through that
    same branch. *)
Theorem GetStatus_frame_and_priority (w : World) :
  sys (snd (GetStatus w)) = sys w
  ∧ keyring (sys (snd (GetStatus w))) = keyring (sys w)
  ∧ files (sys (snd (GetStatus w))) = files (sys w)
  ∧ count is_exchange (new_events GetStatus w) = 0%nat
  ∧ count is_mutation (new_events GetStatus w) = 0%nat
  ∧ Forall (fun ev => is_secret_get ev = true) (new_events GetStatus w)
  ∧ fst (GetStatus w) = (spec_status (sys w) (spec_priority (sys w)), None)
  ∧ resolved_by w (spec_priority (sys w)) (GetToken w).
Proof.
  pose proof (GetStatus_run w) as E.
  assert (N : new_events GetStatus w = status_reads (spec_priority (sys w))).
  { apply new_events_logs. by rewrite E. }
  rewrite N, E. simpl.
  repeat split; try (by apply count_status_reads).
  - destruct (spec_priority (sys w)); simpl; repeat constructor.
  - apply GetToken_resolves.
Qed.

(** C10, as stated, fails: a stored token is retrievable in both worlds, yet
    the status reports the api_key method, from the environment in the first
    and from the keychain in the second. *)
Lemma GetStatus_token_preempted :
  (fst (storage_GetTokenInfo w_env_key) = (Some (token_until (t0 + Hour)), None)
   ∧ fst (GetStatus w_env_key)
     = (mkAuthStatus true AuthMethodAPIKey "env:LINEAR_API_KEY" None None, None))
  ∧ (fst (storage_GetTokenInfo w_key_and_token) = (Some (token_until (t0 - Hour)), None)
     ∧ fst (GetStatus w_key_and_token)
       = (mkAuthStatus true AuthMethodAPIKey "keychain" None None, None)).
Proof. repeat split. Qed.

(** C10 (amended).  When no environment credential applies and no usable
    static key is stored, [GetStatus] reports any retrievable stored token as
    authenticated, method client_credentials, source keychain, with the
    token's expiry attached, whatever that expiry is.  In particular an
    expired token with no stored client secret, for which [GetToken] fails
    with "not authenticated", is still reported as authenticated. *)
Theorem GetStatus_stored_token (w : World) (t : TokenInfo) :
  getenv (sys w) "LINEAR_API_KEY" = EmptyString →
  ¬ (getenv (sys w) "LINEAR_CLIENT_ID" ≠ EmptyString
     ∧ getenv (sys w) "LINEAR_CLIENT_SECRET" ≠ EmptyString) →
  usable (slot_api_key (keyring (sys w))) = None →
  slot_token_info (keyring (sys w)) = Held t →
  fst (GetStatus w)
  = (mkAuthStatus true AuthMethodClientCredentials "keychain" (Some (ExpiresAt t)) None,
     None)
  ∧ (ExpiresAt t <= clock (sys w) →
     usable (slot_client_secret (keyring (sys w))) = None →
     fst (GetToken w) = fst (not_authenticated w)).
Proof.
  intros Hk Hc Hu Ht. split.
  - rewrite GetStatus_run, (priority_stored w Hk Hc), Hu, Ht. simpl. by rewrite Ht.
  - intros Hexp Hs.
    pose proof (GetToken_stored_token w t Hk Hc Hu Ht) as R.
    assert (Hf : fresh (sys w) t = false).
    { unfold fresh. apply bool_decide_eq_false.
      unfold TokenExpiryBuffer, Minute, Second, Nanosecond. lia. }
    rewrite Hf, Hs in R. by rewrite R.
Qed.

Lemma GetStatus_stored_token_witness :
  ExpiresAt (token_until (t0 - Hour)) <= clock (sys w_expired_no_secret)
  ∧ fst (GetStatus w_expired_no_secret)
    = (mkAuthStatus true AuthMethodClientCredentials "keychain" (Some (t0 - Hour)) None,
       None)
  ∧ fst (GetToken w_expired_no_secret) = fst (not_authenticated w_expired_no_secret).
Proof.
  destruct (GetStatus_stored_token w_expired_no_secret (token_until (t0 - Hour)))
    as [A B]; [reflexivity | intros [H _]; by apply H | reflexivity | reflexivity | ].
  split; [discriminate|]. split; [exact A|].
  apply B; [discriminate | reflexivity].
Defined.

(** ** Claims about the cache *)

Example cold_read :
  @Read slash_join string line_codec m0 "teams-workspace" w_cold
  = ((None, None), log (EvReadFile teams_path) w_cold).
Proof. reflexivity. Qed.

Example warm_read :
  fst (@Read slash_join string line_codec m0 "teams-workspace" (w_warm Hour))
  = (Some "ENG,OPS", None).
Proof. reflexivity. Qed.

Example write_read :
  fst (@Read slash_join string line_codec m0 "teams-workspace"
         (snd (@Write slash_join string line_codec m0 "teams-workspace" "ENG,OPS" w_cold)))
  = (Some "ENG,OPS", None).
Proof. vm_compute. reflexivity. Qed.

Lemma expired_iff (limit now ts : Z) :
  minDuration <= limit < maxDuration →
  (limit <? Time_Sub now ts) = true ↔ limit < now - ts.
Proof.
  intros Hr. unfold Time_Sub.
  destruct (Z.ltb_spec (now - ts) minDuration);
    [|destruct (Z.ltb_spec maxDuration (now - ts))];
    rewrite Z.ltb_lt; lia.
Qed.

Lemma DefaultTTL_value : DefaultTTL = 86400000000000.
Proof. reflexivity. Qed.

Lemma DefaultTTL_range : minDuration <= DefaultTTL < maxDuration.
Proof. rewrite DefaultTTL_value. unfold minDuration, maxDuration. lia. Qed.

Section CacheProofs.

Variable Join : string -> string -> string.
Context {T : Type} `{Cacheable T}.

(** Close a goal [∃ evs, trace _ = trace w ++ evs ∧ _] once the trace is
    in normal form. *)
Ltac trace_ex := rewrite <- ?app_assoc; eexists; (split; [reflexivity | done]).

Ltac run_cache :=
  unfold cache.Read, cache.Write, cache.GetOrFetch, call, ensureDir, time_Since, time_Now,
    os_ReadFile, os_Remove, os_WriteFile, os_MkdirAll;
  unfold mbind, M_bind, mret, M_ret; simpl.

(** [Read] adds the file read, and the removal when the entry is stale. *)
Lemma Read_trace m key w :
  ∃ evs, trace (snd (Read Join m key w)) = trace w ++ evs
         ∧ count is_fetch evs = 0%nat ∧ count is_cache_write evs = 0%nat.
Proof.
  run_cache.
  destruct (files (sys w) !! keyPath Join m key) as [[c|e]|]; simpl.
  - destruct (json_Unmarshal c) as [entry|]; simpl; [|trace_ex].
    destruct (ttl m <? _); simpl; [|trace_ex].
    destruct (fs_fault (sys w) OpRemove _); simpl; [trace_ex|].
    destruct (files (sys w) !! _); simpl; trace_ex.
  - destruct (os_IsNotExist e); trace_ex.
  - trace_ex.
Qed.

Lemma Write_trace m key data w :
  ∃ evs, trace (snd (Write Join m key data w)) = trace w ++ evs
         ∧ count is_fetch evs = 0%nat.
Proof.
  run_cache.
  destruct (fs_fault (sys w) OpMkdirAll _); simpl; [trace_ex|].
  destruct (json_MarshalIndent _) as [bytes [e|]]; simpl; [trace_ex|].
  destruct (fs_fault (sys w) OpWriteFile _); simpl; [|trace_ex].
  destruct (torn_write (sys w) _); simpl; trace_ex.
Qed.

(** [Write] succeeds exactly along this path. *)
Lemma Write_success m key data w :
  fst (Write Join m key data w) = None →
  ∃ bytes,
    json_MarshalIndent {| Data := data; Timestamp := clock (sys w) |} = (bytes, None)
    ∧ files (sys (snd (Write Join m key data w)))
      = <[keyPath Join m key := Regular bytes]> (files (sys w))
    ∧ clock (sys (snd (Write Join m key data w))) = clock (sys w)
    ∧ fs_fault (sys (snd (Write Join m key data w))) = fs_fault (sys w).
Proof.
  run_cache.
  destruct (fs_fault (sys w) OpMkdirAll _); simpl; [done|].
  destruct (json_MarshalIndent _) as [bytes [e|]]; simpl; [done|].
  destruct (fs_fault (sys w) OpWriteFile _); simpl;
    [by destruct (torn_write (sys w) _)|].
  intros _. by exists bytes.
Qed.

(** When the directory can be created, the entry encoded and the file
    written, [Write] stores the encoded entry under the key's path. *)
Lemma Write_stores m key data w bytes :
  fs_fault (sys w) OpMkdirAll (dir m) = None →
  json_MarshalIndent {| Data := data; Timestamp := clock (sys w) |} = (bytes, None) →
  fs_fault (sys w) OpWriteFile (keyPath Join m key) = None →
  fst (Write Join m key data w) = None
  ∧ files (sys (snd (Write Join m key data w)))
    = <[keyPath Join m key := Regular bytes]> (files (sys w))
  ∧ trace (snd (Write Join m key data w))
    = trace w ++ [EvMkdirAll (dir m); EvWriteFile (keyPath Join m key)].
Proof.
  intros Hd Hm Hf. run_cache.
  rewrite Hd. simpl. rewrite Hm. simpl. rewrite Hf. simpl.
  by rewrite <- app_assoc.
Qed.

(** [GetOrFetch] in closed form. *)
Lemma GetOrFetch_run m key fetch w :
  GetOrFetch Join m key fetch w =
  match Read Join m key w with
  | ((_, Some e), w1) => ((zero, Some e), w1)
  | ((Some c, None), w1) => ((c, None), w1)
  | ((None, None), w1) =>
      match call fetch w1 with
      | ((data, Some e), w2) => ((data, Some e), w2)
      | ((data, None), w2) => ((data, None), snd (Write Join m key data w2))
      end
  end.
Proof.
  unfold cache.GetOrFetch, mbind, M_bind, mret, M_ret.
  destruct (cache.Read Join m key w) as [[[c|] [e|]] w1]; try reflexivity.
  destruct (call fetch w1) as [[data [e|]] w2]; [reflexivity|].
  by destruct (cache.Write Join m key data w2).
Qed.

(** C5.  [GetOrFetch] on a hit returns the cached value and [fetch] does
    not run.  On a miss [fetch] runs exactly once, in the world [Read] left.
    If it succeeds, [GetOrFetch] returns the fetched value with no error
    whatever becomes of the write, and it has written that value: wherever
    the file system lets the directory be created and the file be written
    and the entry (the value, stamped with the time after the fetch) encodes
    to [bytes], the files afterwards are those [fetch] left with [bytes]
    stored under the key's path, by one [os.WriteFile] on that path.  If
    [fetch] fails, its value and error are returned as they are, nothing is
    written and the cache files are as [fetch] left them. *)
Theorem GetOrFetch_read_through (m : Manager) (key : string)
    (fetch : Sys -> (T * option error) * Sys) (w : World) :
  (∀ c, fst (Read Join m key w) = (Some c, None) →
        GetOrFetch Join m key fetch w = ((c, None), snd (Read Join m key w))
        ∧ count is_fetch (new_events (GetOrFetch Join m key fetch) w) = 0%nat)
  ∧ (fst (Read Join m key w) = (None, None) →
     count is_fetch (new_events (GetOrFetch Join m key fetch) w) = 1%nat
     ∧ (∀ data,
          fst (fetch (sys (snd (Read Join m key w)))) = (data, None) →
          fst (GetOrFetch Join m key fetch w) = (data, None)
          ∧ snd (GetOrFetch Join m key fetch w)
            = snd (Write Join m key data (snd (call fetch (snd (Read Join m key w)))))
          ∧ (∀ bytes,
               fs_fault (snd (fetch (sys (snd (Read Join m key w))))) OpMkdirAll (dir m)
               = None →
               json_MarshalIndent
                 {| Data := data;
                    Timestamp := clock (snd (fetch (sys (snd (Read Join m key w))))) |}
               = (bytes, None) →
               fs_fault (snd (fetch (sys (snd (Read Join m key w)))))
                 OpWriteFile (keyPath Join m key) = None →
               files (sys (snd (GetOrFetch Join m key fetch w)))
               = <[keyPath Join m key := Regular bytes]>
                   (files (snd (fetch (sys (snd (Read Join m key w))))))
               ∧ files (sys (snd (GetOrFetch Join m key fetch w))) !! keyPath Join m key
                 = Some (Regular bytes)
               ∧ count (λ ev, bool_decide (ev = EvWriteFile (keyPath Join m key)))
                   (new_events (GetOrFetch Join m key fetch) w) = 1%nat)
          ∧ (fst (Write Join m key data (snd (call fetch (snd (Read Join m key w))))) = None →
             ∃ bytes,
               json_MarshalIndent
                 {| Data := data;
                    Timestamp := clock (snd (fetch (sys (snd (Read Join m key w))))) |}
               = (bytes, None)
               ∧ files (sys (snd (GetOrFetch Join m key fetch w))) !! keyPath Join m key
                 = Some (Regular bytes)))
     ∧ (∀ data e,
          fst (fetch (sys (snd (Read Join m key w)))) = (data, Some e) →
          GetOrFetch Join m key fetch w
          = ((data, Some e), snd (call fetch (snd (Read Join m key w))))
          ∧ files (sys (snd (GetOrFetch Join m key fetch w)))
            = files (snd (fetch (sys (snd (Read Join m key w)))))
          ∧ count is_cache_write (new_events (GetOrFetch Join m key fetch) w) = 0%nat)).
Proof.
  destruct (Read_trace m key w) as (revs & Rt & Rf & Rw).
  unfold new_events. rewrite GetOrFetch_run.
  destruct (cache.Read Join m key w) as [[cached rerr] w1] eqn:ER. simpl in *.
  split.
  - intros c [= -> ->]. split; [reflexivity|].
    simpl. rewrite Rt, drop_app_length. exact Rf.
  - intros [= -> ->].
    unfold call.
    destruct (fetch (sys w1)) as [[data ferr] s2] eqn:EF. simpl.
    split; [|split].
    + destruct ferr as [e|]; simpl.
      * rewrite Rt, <- app_assoc, drop_app_length, count_app, Rf. reflexivity.
      * destruct (Write_trace m key data (log EvFetch (with_sys s2 w1))) as (wevs & Wt & Wf).
        rewrite Wt. simpl. rewrite Rt, <- !app_assoc, drop_app_length.
        rewrite !count_app, Rf, Wf. reflexivity.
    + intros ? [= <- ->]. split; [reflexivity|]. split; [reflexivity|].
      split.
      { intros bytes Hd Hm Hf. simpl.
        destruct (Write_stores m key data (log EvFetch (with_sys s2 w1)) bytes Hd Hm Hf)
          as (_ & Hfs & Ht).
        rewrite Hfs, Ht. simpl.
        split; [reflexivity|]. split; [apply lookup_insert_eq|].
        rewrite Rt, <- !app_assoc, drop_app_length, !count_app.
        rewrite (count_none _ is_cache_write revs); [|by intros [] | exact Rw].
        simpl. unfold count. cbn [List.filter].
        rewrite bool_decide_eq_false_2 by discriminate.
        by rewrite bool_decide_eq_true_2. }
      intros Hw. simpl.
      destruct (Write_success m key data (log EvFetch (with_sys s2 w1)) Hw)
        as (bytes & Hm & Hf & _).
      exists bytes. split; [exact Hm|]. rewrite Hf. apply lookup_insert_eq.
    + intros ? e [= <- ->]. simpl.
      split; [reflexivity|]. split; [reflexivity|].
      rewrite Rt, <- app_assoc, drop_app_length, count_app, Rw. reflexivity.
Qed.

(** What [Read] does with a readable file holding a well-formed entry. *)
Lemma Read_entry m key w c entry :
  minDuration <= ttl m < maxDuration →
  files (sys w) !! keyPath Join m key = Some (Regular c) →
  json_Unmarshal c = Some entry →
  (ttl m < clock (sys w) - Timestamp entry →
   Read Join m key w
   = ((None, None), snd (os_Remove (keyPath Join m key) (log (EvReadFile (keyPath Join m key)) w))))
  ∧ (clock (sys w) - Timestamp entry <= ttl m →
     Read Join m key w
     = ((Some (Data entry), None), log (EvReadFile (keyPath Join m key)) w)).
Proof.
  intros Hr Hf Hu.
  unfold cache.Read, time_Since, time_Now, os_ReadFile.
  unfold mbind, M_bind, mret, M_ret. simpl. rewrite Hf. simpl. rewrite Hu. simpl.
  destruct (ttl m <? Time_Sub (clock (sys w)) (Timestamp entry)) eqn:E.
  - split; [|intros; apply (expired_iff _ _ _ Hr) in E; lia].
    intros _. by destruct (os_Remove _ _).
  - split; [|done]. intros Hlt. apply (expired_iff _ _ _ Hr) in Hlt. congruence.
Qed.

(** Removing an existing file that the file system lets go. *)
Lemma Remove_deletes path w :
  fs_fault (sys w) OpRemove path = None →
  files (sys (snd (os_Remove path w))) = delete path (files (sys w)).
Proof.
  intros Hf. unfold os_Remove. rewrite Hf.
  destruct (files (sys w) !! path) eqn:E; simpl; [done|].
  symmetry. by apply delete_id.
Qed.

(** A stale entry: a miss, a call of [os.Remove], and the file gone when the
    removal is not refused. *)
Lemma Read_stale m key w c entry :
  minDuration <= ttl m < maxDuration →
  files (sys w) !! keyPath Join m key = Some (Regular c) →
  json_Unmarshal c = Some entry →
  ttl m < clock (sys w) - Timestamp entry →
  fst (Read Join m key w) = (None, None)
  ∧ EvRemove (keyPath Join m key) ∈ new_events (Read Join m key) w
  ∧ (fs_fault (sys w) OpRemove (keyPath Join m key) = None →
     files (sys (snd (Read Join m key w))) = delete (keyPath Join m key) (files (sys w))).
Proof.
  intros Hr Hf Hu Hage.
  destruct (Read_entry m key w c entry Hr Hf Hu) as [E _]. specialize (E Hage).
  split; [by rewrite E|]. split.
  - unfold new_events. rewrite E. simpl.
    unfold os_Remove. simpl. rewrite Hf.
    destruct (fs_fault (sys w) OpRemove _); simpl;
      rewrite <- app_assoc, drop_app_length; set_solver.
  - intros Hrm. rewrite E. simpl. by rewrite Remove_deletes.
Qed.

(** C6.  [Read] reports a miss with no error when the file is missing,
    when its contents do not decode, and when the entry is older than the
    TTL; in the last case it also calls [os.Remove] on the file, which is then
    gone unless the file system refuses the removal.  Otherwise it returns the
    stored data.  A failure of [os.ReadFile] other than "does not exist" is
    returned to the caller. *)
Theorem Read_outcomes (m : Manager) (key : string) (w : World) :
  minDuration <= ttl m < maxDuration →
  (files (sys w) !! keyPath Join m key = None →
   Read Join m key w = ((None, None), log (EvReadFile (keyPath Join m key)) w))
  ∧ (∀ c, files (sys w) !! keyPath Join m key = Some (Regular c) →
          json_Unmarshal c = None →
          Read Join m key w = ((None, None), log (EvReadFile (keyPath Join m key)) w))
  ∧ (∀ c entry,
       files (sys w) !! keyPath Join m key = Some (Regular c) →
       json_Unmarshal c = Some entry →
       ttl m < clock (sys w) - Timestamp entry →
       fst (Read Join m key w) = (None, None)
       ∧ EvRemove (keyPath Join m key) ∈ new_events (Read Join m key) w
       ∧ (fs_fault (sys w) OpRemove (keyPath Join m key) = None →
          files (sys (snd (Read Join m key w)))
          = delete (keyPath Join m key) (files (sys w))))
  ∧ (∀ c entry,
       files (sys w) !! keyPath Join m key = Some (Regular c) →
       json_Unmarshal c = Some entry →
       clock (sys w) - Timestamp entry <= ttl m →
       Read Join m key w
       = ((Some (Data entry), None), log (EvReadFile (keyPath Join m key)) w))
  ∧ (∀ e, files (sys w) !! keyPath Join m key = Some (Unreadable e) →
          os_IsNotExist e = false →
          Read Join m key w = ((None, Some e), log (EvReadFile (keyPath Join m key)) w)).
Proof.
  intros Hr. split; [|split; [|split; [|split]]].
  - intros Hf. unfold cache.Read, os_ReadFile, mbind, M_bind, mret, M_ret. simpl.
    by rewrite Hf.
  - intros c Hf Hu. unfold cache.Read, os_ReadFile, mbind, M_bind, mret, M_ret. simpl.
    rewrite Hf. simpl. by rewrite Hu.
  - intros c entry Hf Hu Hage. by apply (Read_stale m key w c entry).
  - intros c entry Hf Hu Hage. by destruct (Read_entry m key w c entry Hr Hf Hu) as [_ ->].
  - intros e Hf He. unfold cache.Read, os_ReadFile, mbind, M_bind, mret, M_ret. simpl.
    rewrite Hf. simpl. by rewrite He.
Qed.

(** C7.  For a manager with the 24-hour TTL: after a successful
    [Write key data], with a codec that reads back what it wrote, [Read key]
    returns [data] for as long as the time elapsed since the write does not
    exceed the TTL: immediately, at any age up to the TTL, and at exactly the
    TTL.  Once more than the TTL has elapsed,
    [Read] returns absence and calls [os.Remove] on the file, which is gone
    afterwards unless the file system refuses the removal. *)
Theorem Write_Read_round_trip (m : Manager) (key : string) (data : T) (w : World) :
  ttl m = DefaultTTL →
  fst (Write Join m key data w) = None →
  (∀ bytes,
     json_MarshalIndent {| Data := data; Timestamp := clock (sys w) |} = (bytes, None) →
     json_Unmarshal bytes = Some {| Data := data; Timestamp := clock (sys w) |}) →
  DefaultTTL = 24 * 3600 * 1000000000
  ∧ fst (Read Join m key (snd (Write Join m key data w))) = (Some data, None)
  ∧ ∀ d : Duration,
      (d <= ttl m →
       fst (Read Join m key (advance d (snd (Write Join m key data w)))) = (Some data, None))
      ∧ (ttl m < d →
         fst (Read Join m key (advance d (snd (Write Join m key data w)))) = (None, None)
         ∧ EvRemove (keyPath Join m key)
           ∈ new_events (Read Join m key) (advance d (snd (Write Join m key data w)))
         ∧ (fs_fault (sys w) OpRemove (keyPath Join m key) = None →
            files (sys (snd (Read Join m key (advance d (snd (Write Join m key data w))))))
              !! keyPath Join m key = None)).
Proof.
  intros Httl Hw Hc.
  assert (Hr : minDuration <= ttl m < maxDuration).
  { rewrite Httl. apply DefaultTTL_range. }
  assert (Hpos : 0 <= ttl m) by (rewrite Httl, DefaultTTL_value; lia).
  destruct (Write_success m key data w Hw) as (bytes & Hm & Hf & Hclk & Hfault).
  set (w1 := snd (cache.Write Join m key data w)) in *. clearbody w1.
  assert (A : ∀ d, d <= ttl m →
            fst (cache.Read Join m key (advance d w1)) = (Some data, None)).
  { intros d Hd.
    destruct (Read_entry m key (advance d w1) bytes
                {| Data := data; Timestamp := clock (sys w) |} Hr) as [_ ->].
    - simpl. rewrite Hf. apply lookup_insert_eq.
    - by apply Hc.
    - reflexivity.
    - simpl. lia. }
  split; [reflexivity|]. split.
  - specialize (A 0). replace (advance 0 w1) with w1 in A.
    + by apply A.
    + unfold advance, with_sys, set_clock. destruct w1 as [[] ?]. simpl.
      by rewrite Z.add_0_r.
  - intros d. split; [apply A|].
    intros Hd.
    assert (Hl : files (sys (advance d w1)) !! cache.keyPath Join m key = Some (Regular bytes)).
    { simpl. rewrite Hf. apply lookup_insert_eq. }
    destruct (Read_stale m key (advance d w1) bytes
                {| Data := data; Timestamp := clock (sys w) |} Hr Hl (Hc _ Hm))
      as (S1 & S2 & S3).
    { simpl. lia. }
    split; [exact S1|]. split; [exact S2|].
    intros Hrm. rewrite S3; [apply lookup_delete_eq|].
    simpl. by rewrite Hfault.
Qed.

End CacheProofs.

Lemma NewManager_ttl Join GOOS w m :
  fst (NewManager Join GOOS w) = (Some m, None) → ttl m = DefaultTTL.
Proof.
  unfold NewManager, getCacheDir, os_UserHomeDir, home_env, os_Getenv,
    mbind, M_bind, mret, M_ret.
  simpl. repeat case_decide; simpl; intros [= <-]; reflexivity.
Qed.

Lemma GetOrFetch_read_through_witness :
  (fst (@Read slash_join string line_codec m0 "teams-workspace" (w_warm Hour))
   = (Some "ENG,OPS", None)
   ∧ fst (@GetOrFetch slash_join string line_codec m0 "teams-workspace" fetch_fails
            (w_warm Hour)) = ("ENG,OPS", None)
   ∧ count is_fetch
       (new_events (@GetOrFetch slash_join string line_codec m0 "teams-workspace" fetch_fails)
          (w_warm Hour)) = 0%nat)
  ∧ (fst (@Read slash_join string line_codec m0 "teams-workspace" w_cold) = (None, None)
     ∧ count is_fetch
         (new_events (@GetOrFetch slash_join string line_codec m0 "teams-workspace" fetch_ok)
            w_cold) = 1%nat
     ∧ fst (@GetOrFetch slash_join string line_codec m0 "teams-workspace" fetch_ok w_cold)
       = ("ENG,OPS", None)
     ∧ files (sys (snd (@GetOrFetch slash_join string line_codec m0 "teams-workspace"
                          fetch_ok w_cold)))
       = {[ teams_path := Regular "1700000000000000000 ENG,OPS" ]}
     ∧ files (sys (snd (@GetOrFetch slash_join string line_codec m0 "teams-workspace"
                          fetch_ok w_cold))) !! teams_path
       = Some (Regular "1700000000000000000 ENG,OPS")
     ∧ count (λ ev, bool_decide (ev = EvWriteFile teams_path))
         (new_events (@GetOrFetch slash_join string line_codec m0 "teams-workspace" fetch_ok)
            w_cold) = 1%nat
     ∧ fst (@GetOrFetch slash_join string line_codec m0 "teams-workspace" fetch_ok w_readonly)
       = ("ENG,OPS", None)
     ∧ fst (@GetOrFetch slash_join string line_codec m0 "teams-workspace" fetch_fails w_cold)
       = (EmptyString, Some (ErrorString "graphql: 503"))).
Proof.
  split.
  - destruct (@GetOrFetch_read_through slash_join string line_codec m0 "teams-workspace"
                fetch_fails (w_warm Hour)) as [A _].
    destruct (A "ENG,OPS" eq_refl) as [E C].
    split; [reflexivity|]. split; [by rewrite E | exact C].
  - split; [reflexivity|].
    destruct (@GetOrFetch_read_through slash_join string line_codec m0 "teams-workspace"
                fetch_ok w_cold) as [_ B].
    destruct (B eq_refl) as (C & S0 & _). split; [exact C|].
    destruct (S0 "ENG,OPS" eq_refl) as (E0 & _ & St & _).
    destruct (St "1700000000000000000 ENG,OPS" eq_refl eq_refl eq_refl) as (Fs & Fl & Fc).
    split; [exact E0|]. split; [exact Fs|]. split; [exact Fl|]. split; [exact Fc|].
    destruct (@GetOrFetch_read_through slash_join string line_codec m0 "teams-workspace"
                fetch_ok w_readonly) as [_ B'].
    destruct (B' eq_refl) as (_ & S & _). destruct (S "ENG,OPS" eq_refl) as (E & _).
    split; [exact E|].
    destruct (@GetOrFetch_read_through slash_join string line_codec m0 "teams-workspace"
                fetch_fails w_cold) as [_ B''].
    destruct (B'' eq_refl) as (_ & _ & F).
    destruct (F EmptyString (ErrorString "graphql: 503") eq_refl) as (E' & _).
    by rewrite E'.
Defined.

Lemma Read_outcomes_witness :
  fst (@Read slash_join string line_codec m0 "teams-workspace" w_cold) = (None, None)
  ∧ fst (@Read slash_join string line_codec m0 "teams-workspace" w_corrupt) = (None, None)
  ∧ (fst (@Read slash_join string line_codec m0 "teams-workspace" (w_warm (25 * Hour)))
     = (None, None)
     ∧ files (sys (snd (@Read slash_join string line_codec m0 "teams-workspace"
                          (w_warm (25 * Hour))))) = ∅)
  ∧ fst (@Read slash_join string line_codec m0 "teams-workspace" (w_warm (24 * Hour)))
    = (Some "ENG,OPS", None)
  ∧ fst (@Read slash_join string line_codec m0 "teams-workspace" w_denied)
    = (None, Some ErrPermission).
Proof.
  assert (Hr : minDuration <= ttl m0 < maxDuration).
  { split; [discriminate | reflexivity]. }
  split; [|split; [|split; [|split]]].
  - destruct (@Read_outcomes slash_join string line_codec m0 "teams-workspace" w_cold Hr)
      as (A & _).
    by rewrite A.
  - destruct (@Read_outcomes slash_join string line_codec m0 "teams-workspace" w_corrupt Hr)
      as (_ & B & _).
    by rewrite (B "{not json").
  - destruct (@Read_outcomes slash_join string line_codec m0 "teams-workspace"
                (w_warm (25 * Hour)) Hr) as (_ & _ & C & _).
    destruct (C "1700000000000000000 ENG,OPS" (mkEntry "ENG,OPS" t0))
      as (C1 & _ & C3); [reflexivity | reflexivity | reflexivity | ].
    split; [exact C1|]. rewrite C3; reflexivity.
  - destruct (@Read_outcomes slash_join string line_codec m0 "teams-workspace"
                (w_warm (24 * Hour)) Hr) as (_ & _ & _ & D & _).
    rewrite (D "1700000000000000000 ENG,OPS" (mkEntry "ENG,OPS" t0));
      [reflexivity | reflexivity | reflexivity | discriminate].
  - destruct (@Read_outcomes slash_join string line_codec m0 "teams-workspace" w_denied Hr)
      as (_ & _ & _ & _ & E).
    by rewrite (E ErrPermission).
Defined.

Lemma Write_Read_round_trip_witness :
  fst (@Write slash_join string line_codec m0 "teams-workspace" "ENG,OPS" w_cold) = None
  ∧ fst (@Read slash_join string line_codec m0 "teams-workspace"
           (snd (@Write slash_join string line_codec m0 "teams-workspace" "ENG,OPS" w_cold)))
    = (Some "ENG,OPS", None)
  ∧ fst (@Read slash_join string line_codec m0 "teams-workspace"
           (advance (24 * Hour)
              (snd (@Write slash_join string line_codec m0 "teams-workspace" "ENG,OPS" w_cold))))
    = (Some "ENG,OPS", None)
  ∧ fst (@Read slash_join string line_codec m0 "teams-workspace"
           (advance (24 * Hour + 1)
              (snd (@Write slash_join string line_codec m0 "teams-workspace" "ENG,OPS" w_cold))))
    = (None, None).
Proof.
  destruct (@Write_Read_round_trip slash_join string line_codec m0 "teams-workspace"
              "ENG,OPS" w_cold) as (_ & A & B);
    [reflexivity | reflexivity | by intros bytes [= <-] | ].
  split; [reflexivity|]. split; [exact A|]. split.
  - destruct (B (24 * Hour)) as [B1 _]. apply B1. discriminate.
  - destruct (B (24 * Hour + 1)) as [_ B2]. destruct B2 as (E & _); [reflexivity | exact E].
Defined.

(** ** Cache keys *)

Lemma list_ascii_app (a b : string) :
  list_ascii_of_string (a +:+ b) = list_ascii_of_string a ++ list_ascii_of_string b.
Proof. induction a as [|c a IH]; simpl; [done | by rewrite IH]. Qed.

Lemma append_assoc (a b c : string) : (a +:+ b) +:+ c = a +:+ b +:+ c.
Proof.
  induction a as [|x a IH]; [reflexivity|].
  change (String x ((a +:+ b) +:+ c) = String x (a +:+ b +:+ c)). by rewrite IH.
Qed.

Lemma string_of_rev (s : string) (l : list ascii) :
  rev (list_ascii_of_string s) = l → s = string_of_list_ascii (rev l).
Proof.
  intros <-. by rewrite rev_involutive, string_of_list_ascii_of_string.
Qed.

(** C8, as stated, fails: a team id that is "workspace", or that ends in
    "-workspace", makes a team key that is also a workspace key. *)
Lemma TeamKey_WorkspaceKey_collide :
  TeamKey "labels" "workspace" = WorkspaceKey "labels-team"
  ∧ TeamKey "labels" "a-workspace" = WorkspaceKey "labels-team-a".
Proof. split; reflexivity. Qed.

(** C8 (amended).  The two key functions never produce the same key for a
    team id that is not "workspace" and does not end in "-workspace"; for
    the same resource they never do, whatever the team id.  The restriction
    is needed: every other team id collides with some workspace key. *)
Theorem TeamKey_WorkspaceKey_disjoint (r1 r2 t : string) :
  (t ≠ "workspace" → ends_with "-workspace" t = false →
   TeamKey r1 t ≠ WorkspaceKey r2)
  ∧ TeamKey r1 t ≠ WorkspaceKey r1
  ∧ TeamKey r1 "workspace" = WorkspaceKey (r1 +:+ "-team")
  ∧ TeamKey r1 (t +:+ "-workspace") = WorkspaceKey (r1 +:+ "-team-" +:+ t).
Proof.
  split; [|split; [|split]].
  - intros Hne He Heq.
    apply (f_equal list_ascii_of_string) in Heq.
    unfold TeamKey, WorkspaceKey in Heq. rewrite !list_ascii_app in Heq.
    apply (f_equal (@rev ascii)) in Heq.
    rewrite !rev_app_distr, <- ?app_assoc in Heq.
    unfold ends_with in He.
    remember (rev (list_ascii_of_string t)) as x eqn:Hx. symmetry in Hx.
    simpl in Heq, He.
    do 9 (destruct x as [|? x]; simpl in Heq; [discriminate Heq | injection Heq as -> Heq]).
    destruct x as [|? x]; simpl in Heq.
    + apply string_of_rev in Hx. simpl in Hx. contradiction.
    + injection Heq as -> Heq. simpl in He. discriminate He.
  - unfold TeamKey, WorkspaceKey. intros Heq.
    apply String.app_inj in Heq. discriminate Heq.
  - unfold TeamKey, WorkspaceKey. by rewrite append_assoc.
  - unfold TeamKey, WorkspaceKey. by rewrite !append_assoc.
Qed.

Lemma TeamKey_WorkspaceKey_disjoint_witness :
  TeamKey "labels" "ENG" ≠ WorkspaceKey "labels"
  ∧ TeamKey "labels" "ENG" ≠ WorkspaceKey "labels-team-ENG".
Proof.
  split.
  - destruct (TeamKey_WorkspaceKey_disjoint "labels" "labels" "ENG") as (A & _).
    apply A; [discriminate | reflexivity].
  - destruct (TeamKey_WorkspaceKey_disjoint "labels" "labels-team-ENG" "ENG") as (A & _).
    apply A; [discriminate | reflexivity].
Defined.

(** * Further properties *)

Import authops authfix.

(** ** Login and logout *)

Lemma prefix_nonempty (k : string) :
  strings_HasPrefix k "lin_api_" = true → k ≠ EmptyString.
Proof. by destruct k. Qed.

Lemma usable_held (v : string) : v ≠ EmptyString → usable (Held v) = Some v.
Proof. intros Hv. unfold usable. by case_decide. Qed.

(** X1.  When [LoginWithAPIKey] returns an error, the keyring is exactly as
    it was; a key that does not start with "lin_api_" is refused before the
    keyring is touched at all. *)
Theorem LoginWithAPIKey_failure_frame (w : World) (k : string) :
  (fst (LoginWithAPIKey k w) ≠ None →
   keyring (sys (snd (LoginWithAPIKey k w))) = keyring (sys w))
  ∧ (strings_HasPrefix k "lin_api_" = false →
     LoginWithAPIKey k w
     = (Some (ErrorString "invalid API key format: should start with 'lin_api_'"), w)).
Proof.
  unfold LoginWithAPIKey, storage_SetAPIKey, set_secret, mret, M_ret.
  destruct (strings_HasPrefix k "lin_api_"); simpl.
  - split; [|done]. by destruct (set_fault (keyring (sys w)) api_key).
  - done.
Qed.

Lemma LoginWithAPIKey_failure_frame_witness :
  LoginWithAPIKey "sk-not-a-linear-key" w_full
  = (Some (ErrorString "invalid API key format: should start with 'lin_api_'"), w_full).
Proof.
  destruct (LoginWithAPIKey_failure_frame w_full "sk-not-a-linear-key") as [_ B].
  apply B. reflexivity.
Defined.

(** X2.  After a successful [LoginWithAPIKey k], with no environment
    credential set, [GetToken] returns [k] with the api_key method and sends
    no exchange request, and [GetStatus] reports api_key from the keychain,
    whatever token was stored before. *)
Theorem LoginWithAPIKey_then_GetToken (w : World) (k : string) :
  fst (LoginWithAPIKey k w) = None →
  getenv (sys w) "LINEAR_API_KEY" = EmptyString →
  ¬ (getenv (sys w) "LINEAR_CLIENT_ID" ≠ EmptyString
     ∧ getenv (sys w) "LINEAR_CLIENT_SECRET" ≠ EmptyString) →
  fst (GetToken (snd (LoginWithAPIKey k w))) = (k, AuthMethodAPIKey, None)
  ∧ count is_exchange (new_events GetToken (snd (LoginWithAPIKey k w))) = 0%nat
  ∧ fst (GetStatus (snd (LoginWithAPIKey k w)))
    = (mkAuthStatus true AuthMethodAPIKey "keychain" None None, None).
Proof.
  intros Hok Hk Hc.
  unfold LoginWithAPIKey, storage_SetAPIKey, set_secret, mret, M_ret in *.
  destruct (strings_HasPrefix k "lin_api_") eqn:Hp; simpl in *; [|done].
  destruct (set_fault (keyring (sys w)) api_key) eqn:Hf; simpl in *; [done|].
  set (w1 := log _ _).
  assert (Hu : usable (slot_api_key (keyring (sys w1))) = Some k).
  { simpl. apply usable_held. by apply prefix_nonempty. }
  assert (Hp1 : spec_priority (sys w1) = StoredStaticKey).
  { rewrite (priority_stored w1); [by rewrite Hu | exact Hk | exact Hc]. }
  pose proof (GetToken_resolves w1) as R. rewrite Hp1 in R.
  destruct R as (v & Hv & R). rewrite Hu in Hv. injection Hv as <-.
  split; [by rewrite R|]. split.
  - rewrite (new_events_logs GetToken w1 [EvSecretGet api_key]); [done | by rewrite R].
  - by rewrite GetStatus_run, Hp1.
Qed.

Lemma LoginWithAPIKey_then_GetToken_witness :
  slot_token_info (keyring (sys w_full)) = Held (token_until (t0 + Hour))
  ∧ fst (GetToken (snd (LoginWithAPIKey "lin_api_new" w_full)))
    = ("lin_api_new", AuthMethodAPIKey, None).
Proof.
  split; [reflexivity|].
  destruct (LoginWithAPIKey_then_GetToken w_full "lin_api_new") as (A & _);
    [reflexivity | reflexivity | intros [H _]; by apply H | exact A].
Defined.

(** X3.  [Logout] attempts all four deletions, in the order api_key,
    token_info, client_id, client_secret, whichever of them fail.  It returns
    nil exactly when none failed; otherwise one error whose text lists the
    failures in that order.  Every entry whose deletion did not fail is gone,
    and every entry whose deletion failed is as it was. *)
Theorem Logout_best_effort (fault : SecretName -> option error)
    (text : error -> string) (w : World) :
  new_events (Logout fault text) w = map EvSecretSet logout_order
  ∧ (fst (Logout fault text w) = None ↔ ∀ n, fault n = None)
  ∧ fst (Logout fault text w)
    = match omap fault logout_order with
      | [] => None
      | errs => Some (ErrorString ("logout completed with errors: "
                                   +:+ fmt_errors text errs))
      end
  ∧ (∀ n, fault n = None →
          is_vacant n (keyring (sys (snd (Logout fault text w)))) = true)
  ∧ (∀ n, fault n ≠ None →
          same_slot n (keyring (sys (snd (Logout fault text w)))) (keyring (sys w))).
Proof.
  unfold Logout, storage_Delete, collect, logout_order, new_events.
  unfold mbind, M_bind, mret, M_ret. simpl.
  destruct (fault api_key) eqn:F1; destruct (fault token_info) eqn:F2;
  destruct (fault client_id) eqn:F3; destruct (fault client_secret) eqn:F4;
  simpl; rewrite <- ?app_assoc, drop_app_length; simpl.
  all: split; [reflexivity|].
  all: split; [split; [try done; by intros _ [] | intros Hn; try done;
                 first [ by rewrite Hn in F1 | by rewrite Hn in F2
                       | by rewrite Hn in F3 | by rewrite Hn in F4 ] ]|].
  all: split; [reflexivity|].
  all: split; intros [] Hn; simpl; congruence.
Qed.

Lemma Logout_best_effort_witness :
  fst (Logout token_delete_fault plain_text w_full)
  = Some (ErrorString "logout completed with errors: [permission denied]")
  ∧ slot_api_key (keyring (sys (snd (Logout token_delete_fault plain_text w_full)))) = Vacant
  ∧ slot_token_info (keyring (sys (snd (Logout token_delete_fault plain_text w_full))))
    = Held (token_until (t0 + Hour)).
Proof.
  destruct (Logout_best_effort token_delete_fault plain_text w_full)
    as (_ & _ & E & V & S).
  split; [exact E|]. split.
  - generalize (V api_key eq_refl). unfold is_vacant.
    by destruct (slot_api_key _).
  - apply (S token_info). discriminate.
Defined.

(** X4.  After a [Logout] in which no deletion failed, and with no
    environment credential set, [GetToken] fails with "not authenticated"
    without sending a request and [GetStatus] reports no authentication; a
    second [Logout] again returns nil and leaves the keyring as the first
    left it. *)
Theorem Logout_then_unauthenticated (fault : SecretName -> option error)
    (text : error -> string) (w : World) :
  (∀ n, fault n = None) →
  getenv (sys w) "LINEAR_API_KEY" = EmptyString →
  ¬ (getenv (sys w) "LINEAR_CLIENT_ID" ≠ EmptyString
     ∧ getenv (sys w) "LINEAR_CLIENT_SECRET" ≠ EmptyString) →
  fst (Logout fault text w) = None
  ∧ fst (GetToken (snd (Logout fault text w)))
    = fst (not_authenticated w)
  ∧ count is_exchange (new_events GetToken (snd (Logout fault text w))) = 0%nat
  ∧ fst (GetStatus (snd (Logout fault text w))) = (status0, None)
  ∧ fst (Logout fault text (snd (Logout fault text w))) = None
  ∧ keyring (sys (snd (Logout fault text (snd (Logout fault text w)))))
    = keyring (sys (snd (Logout fault text w))).
Proof.
  intros Hn Hk Hc.
  unfold Logout, storage_Delete, collect.
  unfold mbind, M_bind, mret, M_ret. simpl. rewrite !Hn. simpl.
  set (w1 := log _ _).
  assert (Hp1 : spec_priority (sys w1) = NoCredential).
  { by rewrite (priority_stored w1). }
  pose proof (GetToken_resolves w1) as R. rewrite Hp1 in R. simpl in R.
  split; [done|]. split; [by rewrite R|]. split.
  - rewrite (new_events_logs GetToken w1 [EvSecretGet api_key; EvSecretGet token_info]);
      [done | by rewrite R].
  - split; [by rewrite GetStatus_run, Hp1|]. done.
Qed.

Lemma Logout_then_unauthenticated_witness :
  fst (GetToken w_full) = ("lin_api_stored", AuthMethodAPIKey, None)
  ∧ fst (GetStatus (snd (Logout no_delete_fault plain_text w_full))) = (status0, None).
Proof.
  split; [reflexivity|].
  destruct (Logout_then_unauthenticated no_delete_fault plain_text w_full)
    as (_ & _ & _ & A & _);
    [reflexivity | reflexivity | intros [H _]; by apply H | exact A].
Defined.

(** ** Exchange, client-credentials login and refresh *)

(** A granted exchange: the access token is returned; the stamped token is
    stored, or, when the keyring refuses, a warning is printed instead. *)
Lemma fetch_success id secret w body d :
  token_endpoint (sys w) id secret = Response StatusOK body →
  tokenResp body = inl d →
  fst (fetchClientCredentialsToken id secret w) = (AccessToken d, None)
  ∧ snd (fetchClientCredentialsToken id secret w)
    = match set_fault (keyring (sys w)) token_info with
      | None =>
          logs [EvExchange id secret; EvSecretSet token_info]
            (with_sys (set_keyring (put_token_info (stamped (clock (sys w)) d)
                                      (keyring (sys w))) (sys w)) w)
      | Some e =>
          logs [EvExchange id secret; EvSecretSet token_info;
                EvWarning "warning: failed to cache token" e] w
      end.
Proof.
  intros Hr Hd.
  unfold fetchClientCredentialsToken, http_PostToken, time_Now, storage_SetTokenInfo, emit.
  unfold mbind, M_bind, mret, M_ret. simpl. rewrite Hr. simpl. rewrite Hd. simpl.
  destruct (set_fault (keyring (sys w)) token_info); simpl; (split; [reflexivity|]);
    unfold log, logs, with_sys; simpl; by rewrite <- !app_assoc.
Qed.

(** A world with no environment credential and no usable static key, holding
    a token that is outside the refresh buffer: [GetToken] returns it. *)
Lemma GetToken_fresh w t :
  getenv (sys w) "LINEAR_API_KEY" = EmptyString →
  ¬ (getenv (sys w) "LINEAR_CLIENT_ID" ≠ EmptyString
     ∧ getenv (sys w) "LINEAR_CLIENT_SECRET" ≠ EmptyString) →
  usable (slot_api_key (keyring (sys w))) = None →
  slot_token_info (keyring (sys w)) = Held t →
  clock (sys w) + TokenExpiryBuffer < ExpiresAt t →
  GetToken w = ((AccessToken t, AuthMethodClientCredentials, None),
                logs [EvSecretGet api_key; EvSecretGet token_info] w).
Proof.
  intros Hk Hc Hu Ht Hf.
  pose proof (GetToken_stored_token w t Hk Hc Hu Ht) as R.
  assert (F : fresh (sys w) t = true) by (by apply bool_decide_eq_true).
  by rewrite F in R.
Qed.

(** X5.  [LoginWithClientCredentials] with credentials the endpoint does
    not accept returns the failure wrapped as "invalid credentials" after
    exactly one request; nothing is stored: the system state is unchanged. *)
Theorem LoginWithClientCredentials_rejected (w : World) (id secret tok : string)
    (e : error) :
  fst (fetchClientCredentialsToken id secret w) = (tok, Some e) →
  LoginWithClientCredentials id secret w
  = (Some (ErrWrap "invalid credentials: " e), logs [EvExchange id secret] w).
Proof.
  intros Hf. destruct (fetch_failure id secret w tok e Hf) as [-> Hw].
  unfold LoginWithClientCredentials, mbind, M_bind, mret, M_ret.
  destruct (fetchClientCredentialsToken id secret w) as [[tok' o] w'].
  simpl in *. by simplify_eq.
Qed.

Lemma LoginWithClientCredentials_rejected_witness :
  LoginWithClientCredentials "some-id" "wrong-secret" (w_blank endpoint_rejects)
  = (Some (ErrWrap "invalid credentials: "
             (ErrorString "invalid_client: Client authentication failed")),
     logs [EvExchange "some-id" "wrong-secret"] (w_blank endpoint_rejects)).
Proof.
  apply (LoginWithClientCredentials_rejected _ _ _ EmptyString). reflexivity.
Defined.

(** X6.  [LoginWithClientCredentials] with credentials the endpoint grants,
    on a keyring that accepts writes: it returns nil after one request and
    three keyring writes; the keyring then holds the client id, the client
    secret, and the granted token with expiry = now + expires_in seconds
    (an int64 product).  With no environment credential and no usable static
    key, a following [GetToken], any time before the token enters the
    refresh buffer, returns the granted access token and sends no request. *)
Theorem LoginWithClientCredentials_granted (w : World) (id secret : string)
    (body : Body) (d : TokenInfo) (elapsed : Duration) :
  token_endpoint (sys w) id secret = Response StatusOK body →
  tokenResp body = inl d →
  (∀ n, set_fault (keyring (sys w)) n = None) →
  getenv (sys w) "LINEAR_API_KEY" = EmptyString →
  ¬ (getenv (sys w) "LINEAR_CLIENT_ID" ≠ EmptyString
     ∧ getenv (sys w) "LINEAR_CLIENT_SECRET" ≠ EmptyString) →
  usable (slot_api_key (keyring (sys w))) = None →
  elapsed + TokenExpiryBuffer < wrap64 (ExpiresIn d * Second) →
  fst (LoginWithClientCredentials id secret w) = None
  ∧ new_events (LoginWithClientCredentials id secret) w
    = [EvExchange id secret; EvSecretSet token_info;
       EvSecretSet client_id; EvSecretSet client_secret]
  ∧ keyring (sys (snd (LoginWithClientCredentials id secret w)))
    = put_client_secret secret
        (put_client_id id
           (put_token_info (stamped (clock (sys w)) d) (keyring (sys w))))
  ∧ fst (GetToken (advance elapsed (snd (LoginWithClientCredentials id secret w))))
    = (AccessToken d, AuthMethodClientCredentials, None)
  ∧ count is_exchange
      (new_events GetToken (advance elapsed (snd (LoginWithClientCredentials id secret w))))
    = 0%nat.
Proof.
  intros Hr Hd Hs Hk Hc Hu He.
  destruct (fetch_success id secret w body d Hr Hd) as [F1 F2].
  rewrite (Hs token_info) in F2.
  unfold LoginWithClientCredentials, new_events, mbind, M_bind, mret, M_ret.
  destruct (fetchClientCredentialsToken id secret w) as [[tok o] w1].
  simpl in F1, F2. injection F1 as -> ->. subst w1.
  unfold storage_SetClientID, storage_SetClientSecret, set_secret. simpl.
  rewrite !Hs. simpl. rewrite !Hs. simpl.
  split; [reflexivity|]. split.
  { rewrite <- !app_assoc. apply drop_app_length. }
  split; [reflexivity|].
  set (w2 := advance elapsed _).
  assert (G : GetToken w2
              = ((AccessToken (stamped (clock (sys w)) d), AuthMethodClientCredentials, None),
                 logs [EvSecretGet api_key; EvSecretGet token_info] w2)).
  { apply GetToken_fresh; try done.
    simpl. unfold Time_Add. lia. }
  split; [by rewrite G|].
  rewrite G. unfold logs. simpl. by rewrite drop_app_length.
Qed.

Lemma LoginWithClientCredentials_granted_witness :
  fst (LoginWithClientCredentials "my-id" "my-secret"
         (w_blank (endpoint_grants "fresh-access-token" 3600))) = None
  ∧ fst (GetToken (advance (54 * Minute)
           (snd (LoginWithClientCredentials "my-id" "my-secret"
                   (w_blank (endpoint_grants "fresh-access-token" 3600))))))
    = ("fresh-access-token", AuthMethodClientCredentials, None).
Proof.
  destruct (LoginWithClientCredentials_granted
              (w_blank (endpoint_grants "fresh-access-token" 3600))
              "my-id" "my-secret" granted_body granted (54 * Minute))
    as (A & _ & _ & B & _);
    [reflexivity | reflexivity | reflexivity | reflexivity
    | intros [H _]; by apply H | reflexivity | reflexivity | ].
  split; [exact A | exact B].
Defined.

(** X7.  If the endpoint grants the credentials but the keyring refuses to
    store the client id, [LoginWithClientCredentials] returns that error and
    stores neither the client id nor the client secret; the granted token,
    written by the exchange itself, stays in the keyring, so that (with no
    environment credential and no usable static key) a following [GetToken]
    succeeds with it although the login failed. *)
Theorem LoginWithClientCredentials_leaves_token (w : World) (id secret : string)
    (body : Body) (d : TokenInfo) (e : error) :
  token_endpoint (sys w) id secret = Response StatusOK body →
  tokenResp body = inl d →
  set_fault (keyring (sys w)) token_info = None →
  set_fault (keyring (sys w)) client_id = Some e →
  getenv (sys w) "LINEAR_API_KEY" = EmptyString →
  ¬ (getenv (sys w) "LINEAR_CLIENT_ID" ≠ EmptyString
     ∧ getenv (sys w) "LINEAR_CLIENT_SECRET" ≠ EmptyString) →
  usable (slot_api_key (keyring (sys w))) = None →
  TokenExpiryBuffer < wrap64 (ExpiresIn d * Second) →
  fst (LoginWithClientCredentials id secret w) = Some e
  ∧ keyring (sys (snd (LoginWithClientCredentials id secret w)))
    = put_token_info (stamped (clock (sys w)) d) (keyring (sys w))
  ∧ fst (GetToken (snd (LoginWithClientCredentials id secret w)))
    = (AccessToken d, AuthMethodClientCredentials, None).
Proof.
  intros Hr Hd Hst Hsi Hk Hc Hu He.
  destruct (fetch_success id secret w body d Hr Hd) as [F1 F2].
  rewrite Hst in F2.
  unfold LoginWithClientCredentials, mbind, M_bind, mret, M_ret.
  destruct (fetchClientCredentialsToken id secret w) as [[tok o] w1].
  simpl in F1, F2. injection F1 as -> ->. subst w1.
  unfold storage_SetClientID, set_secret. simpl. rewrite Hsi. simpl.
  split; [reflexivity|]. split; [reflexivity|].
  rewrite (GetToken_fresh _ (stamped (clock (sys w)) d)); try done.
  simpl. unfold Time_Add. lia.
Qed.

Lemma LoginWithClientCredentials_leaves_token_witness :
  fst (LoginWithClientCredentials "my-id" "my-secret" w_id_refused) = Some ErrPermission
  ∧ slot_client_secret (keyring (sys (snd (LoginWithClientCredentials "my-id" "my-secret"
                                             w_id_refused)))) = Vacant
  ∧ fst (GetToken (snd (LoginWithClientCredentials "my-id" "my-secret" w_id_refused)))
    = ("fresh-access-token", AuthMethodClientCredentials, None).
Proof.
  destruct (LoginWithClientCredentials_leaves_token w_id_refused "my-id" "my-secret"
              granted_body granted ErrPermission) as (A & B & C);
    [reflexivity | reflexivity | reflexivity | reflexivity | reflexivity
    | intros [H _]; by apply H | reflexivity | reflexivity | ].
  split; [exact A|]. split; [by rewrite B | exact C].
Defined.

(** The refresh of a stale stored token, when the endpoint grants it. *)
Lemma GetToken_refresh_granted w t secret body d :
  getenv (sys w) "LINEAR_API_KEY" = EmptyString →
  ¬ (getenv (sys w) "LINEAR_CLIENT_ID" ≠ EmptyString
     ∧ getenv (sys w) "LINEAR_CLIENT_SECRET" ≠ EmptyString) →
  usable (slot_api_key (keyring (sys w))) = None →
  slot_token_info (keyring (sys w)) = Held t →
  ExpiresAt t <= clock (sys w) + TokenExpiryBuffer →
  usable (slot_client_secret (keyring (sys w))) = Some secret →
  token_endpoint (sys w) (refresh_client_id (sys w)) secret = Response StatusOK body →
  tokenResp body = inl d →
  GetToken w
  = ((AccessToken d, AuthMethodClientCredentials, None),
     match set_fault (keyring (sys w)) token_info with
     | None =>
         logs [EvSecretGet api_key; EvSecretGet token_info;
               EvSecretGet client_secret; EvSecretGet client_id;
               EvExchange (refresh_client_id (sys w)) secret; EvSecretSet token_info]
           (with_sys (set_keyring (put_token_info (stamped (clock (sys w)) d)
                                     (keyring (sys w))) (sys w)) w)
     | Some e =>
         logs [EvSecretGet api_key; EvSecretGet token_info;
               EvSecretGet client_secret; EvSecretGet client_id;
               EvExchange (refresh_client_id (sys w)) secret; EvSecretSet token_info;
               EvWarning "warning: failed to cache token" e] w
     end).
Proof.
  intros Hk Hc Hu Ht Hst Hs Hr Hd.
  pose proof (GetToken_stored_token w t Hk Hc Hu Ht) as R.
  assert (F : fresh (sys w) t = false) by (apply bool_decide_eq_false; lia).
  rewrite F, Hs in R. rewrite R.
  destruct (fetch_success (refresh_client_id (sys w)) secret
              (logs [EvSecretGet api_key; EvSecretGet token_info;
                     EvSecretGet client_secret; EvSecretGet client_id] w) body d Hr Hd)
    as [F1 F2].
  destruct (fetchClientCredentialsToken _ _ _) as [[tok o] w1].
  simpl in F1, F2. injection F1 as -> ->. subst w1. simpl.
  destruct (set_fault (keyring (sys w)) token_info); simpl;
    unfold logs, with_sys; simpl; by rewrite <- !app_assoc.
Qed.

(** X8.  A stale stored token with a stored client secret, an endpoint that
    grants the refresh and a keyring that accepts the write: [GetToken] sends
    exactly one exchange request, returns the new access token and stores it
    with its new expiry; a following [GetToken], any time before the new token
    enters the refresh buffer, returns the same token and sends no request. *)
Theorem GetToken_refresh_then_reuse (w : World) (t : TokenInfo) (secret : string)
    (body : Body) (d : TokenInfo) (elapsed : Duration) :
  getenv (sys w) "LINEAR_API_KEY" = EmptyString →
  ¬ (getenv (sys w) "LINEAR_CLIENT_ID" ≠ EmptyString
     ∧ getenv (sys w) "LINEAR_CLIENT_SECRET" ≠ EmptyString) →
  usable (slot_api_key (keyring (sys w))) = None →
  slot_token_info (keyring (sys w)) = Held t →
  ExpiresAt t <= clock (sys w) + TokenExpiryBuffer →
  usable (slot_client_secret (keyring (sys w))) = Some secret →
  token_endpoint (sys w) (refresh_client_id (sys w)) secret = Response StatusOK body →
  tokenResp body = inl d →
  set_fault (keyring (sys w)) token_info = None →
  elapsed + TokenExpiryBuffer < wrap64 (ExpiresIn d * Second) →
  fst (GetToken w) = (AccessToken d, AuthMethodClientCredentials, None)
  ∧ count is_exchange (new_events GetToken w) = 1%nat
  ∧ slot_token_info (keyring (sys (snd (GetToken w))))
    = Held (stamped (clock (sys w)) d)
  ∧ fst (GetToken (advance elapsed (snd (GetToken w))))
    = (AccessToken d, AuthMethodClientCredentials, None)
  ∧ count is_exchange (new_events GetToken (advance elapsed (snd (GetToken w)))) = 0%nat.
Proof.
  intros Hk Hc Hu Ht Hst Hs Hr Hd Hf He.
  pose proof (GetToken_refresh_granted w t secret body d Hk Hc Hu Ht Hst Hs Hr Hd) as G.
  rewrite Hf in G.
  split; [by rewrite G|]. split.
  { erewrite new_events_trace; [|rewrite G; simpl; reflexivity]. reflexivity. }
  split; [by rewrite G|].
  rewrite G. simpl.
  set (w2 := advance elapsed _).
  assert (G2 : GetToken w2
               = ((AccessToken (stamped (clock (sys w)) d), AuthMethodClientCredentials, None),
                  logs [EvSecretGet api_key; EvSecretGet token_info] w2)).
  { apply GetToken_fresh; try done. simpl. unfold Time_Add. lia. }
  split; [by rewrite G2|].
  erewrite new_events_logs; [|rewrite G2; simpl; reflexivity]. reflexivity.
Qed.

Lemma GetToken_refresh_then_reuse_witness :
  count is_exchange (new_events GetToken (w_token (- Hour))) = 1%nat
  ∧ fst (GetToken (advance (30 * Minute) (snd (GetToken (w_token (- Hour))))))
    = ("fresh-access-token", AuthMethodClientCredentials, None)
  ∧ count is_exchange
      (new_events GetToken (advance (30 * Minute) (snd (GetToken (w_token (- Hour))))))
    = 0%nat.
Proof.
  destruct (GetToken_refresh_then_reuse (w_token (- Hour)) (token_until (t0 + - Hour))
              "stored-secret" granted_body granted (30 * Minute))
    as (_ & A & _ & B & C);
    [reflexivity | intros [H _]; by apply H | reflexivity | reflexivity | discriminate
    | reflexivity | reflexivity | reflexivity | reflexivity | reflexivity | ].
  split; [exact A|]. split; [exact B | exact C].
Defined.

(** X9.  The same refresh on a keyring that refuses the write: [GetToken]
    still returns the new access token, prints a warning, and leaves the
    system state as it was; the stale token is therefore still the stored
    one, and the next [GetToken] sends another exchange request. *)
Theorem GetToken_refresh_not_persisted (w : World) (t : TokenInfo) (secret : string)
    (body : Body) (d : TokenInfo) (e : error) :
  getenv (sys w) "LINEAR_API_KEY" = EmptyString →
  ¬ (getenv (sys w) "LINEAR_CLIENT_ID" ≠ EmptyString
     ∧ getenv (sys w) "LINEAR_CLIENT_SECRET" ≠ EmptyString) →
  usable (slot_api_key (keyring (sys w))) = None →
  slot_token_info (keyring (sys w)) = Held t →
  ExpiresAt t <= clock (sys w) + TokenExpiryBuffer →
  usable (slot_client_secret (keyring (sys w))) = Some secret →
  token_endpoint (sys w) (refresh_client_id (sys w)) secret = Response StatusOK body →
  tokenResp body = inl d →
  set_fault (keyring (sys w)) token_info = Some e →
  fst (GetToken w) = (AccessToken d, AuthMethodClientCredentials, None)
  ∧ EvWarning "warning: failed to cache token" e ∈ new_events GetToken w
  ∧ sys (snd (GetToken w)) = sys w
  ∧ fst (GetToken (snd (GetToken w))) = (AccessToken d, AuthMethodClientCredentials, None)
  ∧ count is_exchange (new_events GetToken (snd (GetToken w))) = 1%nat.
Proof.
  intros Hk Hc Hu Ht Hst Hs Hr Hd Hf.
  pose proof (GetToken_refresh_granted w t secret body d Hk Hc Hu Ht Hst Hs Hr Hd) as G.
  rewrite Hf in G.
  split; [by rewrite G|]. split.
  { erewrite new_events_logs; [|rewrite G; simpl; reflexivity]. set_solver. }
  split; [by rewrite G|].
  rewrite G. simpl.
  set (w2 := logs _ w).
  pose proof (GetToken_refresh_granted w2 t secret body d Hk Hc Hu Ht Hst Hs Hr Hd) as G2.
  simpl in G2. rewrite Hf in G2.
  split; [by rewrite G2|].
  erewrite new_events_logs; [|rewrite G2; simpl; reflexivity]. reflexivity.
Qed.

Lemma GetToken_refresh_not_persisted_witness :
  fst (GetToken w_persist_fails)
  = ("fresh-access-token", AuthMethodClientCredentials, None)
  ∧ count is_exchange (new_events GetToken (snd (GetToken w_persist_fails))) = 1%nat.
Proof.
  destruct (GetToken_refresh_not_persisted w_persist_fails (token_until (t0 - Hour))
              "stored-secret" granted_body granted ErrPermission)
    as (A & _ & _ & _ & B);
    [reflexivity | intros [H _]; by apply H | reflexivity | reflexivity | discriminate
    | reflexivity | reflexivity | reflexivity | reflexivity | ].
  split; [exact A | exact B].
Defined.

(** X10.  [fetchClientCredentialsToken] fails exactly when the transport
    fails, the status is not 200, or the body of a 200 response does not
    decode.  A failure returns the empty token and leaves the system state
    untouched.  For a status other than 200 the error text is
    "<error>: <description>" when the response carries a description, and
    "token request failed with status <code>" otherwise, whatever else the
    body holds. *)
Theorem exchange_failure_cases (id secret : string) (w : World) :
  (snd (fst (fetchClientCredentialsToken id secret w)) ≠ None ↔
   match token_endpoint (sys w) id secret with
   | TransportError _ => True
   | Response code body => code ≠ StatusOK ∨ ∃ e, tokenResp body = inr e
   end)
  ∧ (snd (fst (fetchClientCredentialsToken id secret w)) ≠ None →
     fst (fst (fetchClientCredentialsToken id secret w)) = EmptyString
     ∧ sys (snd (fetchClientCredentialsToken id secret w)) = sys w)
  ∧ (∀ code body,
       token_endpoint (sys w) id secret = Response code body →
       code ≠ StatusOK →
       snd (fst (fetchClientCredentialsToken id secret w))
       = Some (ErrorString
                 (if decide (errResp_ErrorDescription body = EmptyString)
                  then "token request failed with status " +:+ pretty code
                  else errResp_Error body +:+ ": " +:+ errResp_ErrorDescription body))).
Proof.
  unfold fetchClientCredentialsToken, http_PostToken, time_Now, storage_SetTokenInfo, emit.
  unfold mbind, M_bind, mret, M_ret. simpl.
  destruct (token_endpoint (sys w) id secret) as [e0|code body]; simpl.
  { split; [done|]. split; [done|]. by intros. }
  destruct (decide (code ≠ StatusOK)) as [Hc|Hc]; simpl.
  - split; [|split].
    + case_decide; simpl; (split; [intros _; by left | done]).
    + by case_decide.
    + intros ?? [= <- <-] _. repeat case_decide; simpl; congruence.
  - destruct (tokenResp body) as [d|e1] eqn:Hd; simpl.
    + split; [|split].
      * assert (N : ¬ (code ≠ StatusOK ∨ ∃ e : error, @inl TokenInfo error d = inr e)).
        { intros Hor. destruct Hor as [Hor|Hor]; [done | by destruct Hor]. }
        destruct (set_fault _ _); simpl; split; done.
      * by destruct (set_fault _ _).
      * intros ?? [= <- <-] ?. done.
    + split; [|split].
      * split; [|done]. intros _. right. by eexists.
      * done.
      * intros ?? [= <- <-] ?. done.
Qed.

Lemma exchange_failure_cases_witness :
  fst (fetchClientCredentialsToken "id" "secret" (w_blank endpoint_rejects))
  = (EmptyString, Some (ErrorString "invalid_client: Client authentication failed")).
Proof.
  destruct (exchange_failure_cases "id" "secret" (w_blank endpoint_rejects))
    as (_ & A & B).
  assert (Hb := B 401 (mkBody "invalid_client" "Client authentication failed"
                              (inl (mkTokenInfo "" "" 0 0 ""))) eq_refl).
  assert (Hs : snd (fst (fetchClientCredentialsToken "id" "secret"
                           (w_blank endpoint_rejects)))
               = Some (ErrorString "invalid_client: Client authentication failed")).
  { apply Hb. discriminate. }
  assert (Ha : fst (fst (fetchClientCredentialsToken "id" "secret"
                           (w_blank endpoint_rejects))) = EmptyString).
  { apply A. rewrite Hs. discriminate. }
  destruct (fst (fetchClientCredentialsToken "id" "secret" (w_blank endpoint_rejects)))
    as [tok o].
  simpl in Ha, Hs. by rewrite Ha, Hs.
Defined.

Lemma wrap64_small (z : Z) : - 2 ^ 63 <= z < 2 ^ 63 → wrap64 z = z.
Proof.
  intros Hz. unfold wrap64.
  rewrite Z.mod_small; lia.
Qed.

(** X11.  For a grant whose expires_in is between 0 and 9223372036 seconds
    (no int64 overflow), a successful exchange on a keyring that accepts the
    write stores the decoded token with expiry = now + expires_in seconds.
    That token is outside the five-minute refresh buffer at that same instant
    exactly when expires_in exceeds 300: a grant of five minutes or less is
    stale on arrival. *)
Theorem exchange_expiry (id secret : string) (w : World) (body : Body) (d : TokenInfo) :
  token_endpoint (sys w) id secret = Response StatusOK body →
  tokenResp body = inl d →
  set_fault (keyring (sys w)) token_info = None →
  0 <= ExpiresIn d <= 9223372036 →
  slot_token_info (keyring (sys (snd (fetchClientCredentialsToken id secret w))))
  = Held (with_ExpiresAt d (clock (sys w) + ExpiresIn d * 1000000000))
  ∧ (fresh (sys (snd (fetchClientCredentialsToken id secret w)))
       (with_ExpiresAt d (clock (sys w) + ExpiresIn d * 1000000000)) = true
     ↔ 300 < ExpiresIn d).
Proof.
  intros Hr Hd Hf Hrange.
  destruct (fetch_success id secret w body d Hr Hd) as [_ F2].
  rewrite Hf in F2. rewrite F2. simpl.
  unfold stamped, Time_Add, Second, Nanosecond.
  rewrite wrap64_small by lia.
  split; [by rewrite Z.mul_1_r|].
  unfold fresh. rewrite bool_decide_eq_true. simpl.
  unfold TokenExpiryBuffer, Minute, Second, Nanosecond. lia.
Qed.

Lemma exchange_expiry_witness :
  slot_token_info
    (keyring (sys (snd (fetchClientCredentialsToken "id" "secret"
                          (w_blank (endpoint_grants "fresh-access-token" 3600))))))
  = Held (with_ExpiresAt granted (t0 + 3600 * 1000000000)).
Proof.
  destruct (exchange_expiry "id" "secret"
              (w_blank (endpoint_grants "fresh-access-token" 3600)) granted_body granted)
    as [A _];
    [reflexivity | reflexivity | reflexivity | split; discriminate | exact A].
Defined.

(** ** The cache: more of [cache.go] *)

Import cacheops.

Example Ext_json : filepath_Ext "teams-workspace.json" = ".json".
Proof. reflexivity. Qed.

Example Ext_last_dot : filepath_Ext "archive.tar.gz" = ".gz".
Proof. reflexivity. Qed.

Example Ext_dot_in_directory : filepath_Ext "cache.d/teams" = EmptyString.
Proof. reflexivity. Qed.

Section CacheMore.

Variable Join : string -> string -> string.
Context {T : Type} `{Cacheable T}.

(** What [Read] returns depends on the file under the key's path, the clock
    and nothing else. *)
Lemma Read_fst_ext m key w1 w2 :
  files (sys w1) !! keyPath Join m key = files (sys w2) !! keyPath Join m key →
  clock (sys w1) = clock (sys w2) →
  fst (Read Join m key w1) = fst (Read Join m key w2).
Proof.
  intros Hf Hc.
  unfold cache.Read, time_Since, time_Now, os_ReadFile, os_Remove.
  unfold mbind, M_bind, mret, M_ret. simpl. rewrite Hf.
  destruct (files (sys w2) !! keyPath Join m key) as [[c|e]|]; simpl;
    [|by destruct (os_IsNotExist e)|done].
  destruct (json_Unmarshal c) as [entry|]; simpl; [|done].
  rewrite Hc.
  destruct (ttl m <? _); simpl; [|done].
  destruct (fs_fault (sys w1) OpRemove _), (fs_fault (sys w2) OpRemove _); simpl; try done.
  all: by repeat match goal with |- context [match ?x with _ => _ end] => destruct x end.
Qed.

(** X12.  [Has] is true exactly when the file under the key's path is
    readable, decodes to an entry, and that entry is not older than the TTL.
    It has the effects of [Read]: asking about a stale entry removes its
    file. *)
Theorem Has_characterised (m : Manager) (key : string) (w : World) :
  minDuration <= ttl m < maxDuration →
  (fst (@Has Join T _ m key w) = true ↔
   ∃ c entry, files (sys w) !! keyPath Join m key = Some (Regular c)
              ∧ json_Unmarshal c = Some entry
              ∧ clock (sys w) - Timestamp entry <= ttl m)
  ∧ snd (@Has Join T _ m key w) = snd (Read Join m key w).
Proof.
  intros Hr. unfold Has, mbind, M_bind, mret, M_ret.
  split.
  - destruct (files (sys w) !! keyPath Join m key) as [[c|e]|] eqn:Hf.
    + destruct (json_Unmarshal c) as [entry|] eqn:Hu.
      * destruct (Read_entry Join m key w c entry Hr Hf Hu) as [S F].
        destruct (Z_lt_le_dec (ttl m) (clock (sys w) - Timestamp entry)) as [Hlt|Hle].
        -- rewrite (S Hlt). simpl. split; [done|].
           intros (c' & entry' & [= <-] & Hu' & Hle). rewrite Hu in Hu'.
           injection Hu' as <-. lia.
        -- rewrite (F Hle). simpl. split; [|done]. intros _. by exists c, entry.
      * unfold cache.Read, os_ReadFile, mbind, M_bind, mret, M_ret. simpl.
        rewrite Hf. simpl. rewrite Hu. simpl. split; [done|].
        intros (c' & entry' & [= <-] & Hu' & _). congruence.
    + unfold cache.Read, os_ReadFile, mbind, M_bind, mret, M_ret. simpl.
      rewrite Hf. simpl. destruct (os_IsNotExist e); simpl;
        (split; [done|]); intros (c' & entry' & [=] & _).
    + unfold cache.Read, os_ReadFile, mbind, M_bind, mret, M_ret. simpl.
      rewrite Hf. simpl. split; [done|]. intros (c' & entry' & [=] & _).
  - by destruct (cache.Read Join m key w) as [[d e] w'].
Qed.

(** X13.  When the file system does not refuse the removal, [Clear] returns
    nil whether or not the entry existed; afterwards the file is gone, every
    other file is as it was, and [Read] of the key is a miss. *)
Theorem Clear_removes (m : Manager) (key : string) (w : World) :
  fs_fault (sys w) OpRemove (keyPath Join m key) = None →
  fst (Clear Join m key w) = None
  ∧ files (sys (snd (Clear Join m key w))) = delete (keyPath Join m key) (files (sys w))
  ∧ fst (Read Join m key (snd (Clear Join m key w))) = (None, None).
Proof.
  intros Hf. unfold Clear, os_Remove, mbind, M_bind, mret, M_ret. simpl. rewrite Hf.
  assert (R : ∀ w', files (sys w') = delete (keyPath Join m key) (files (sys w)) →
                    fst (cache.Read Join m key w') = (None, None)).
  { intros w' Hw'. unfold cache.Read, os_ReadFile, mbind, M_bind, mret, M_ret. simpl.
    by rewrite Hw', lookup_delete_eq. }
  destruct (files (sys w) !! keyPath Join m key) eqn:E; simpl.
  - split; [done|]. split; [done|]. by apply R.
  - assert (D : delete (keyPath Join m key) (files (sys w)) = files (sys w))
      by (by apply delete_id).
    split; [done|]. split; [by rewrite D|]. apply R. simpl. by rewrite D.
Qed.

(** X14.  The three ways [Write] fails.  When the directory cannot be
    created, or the entry cannot be encoded, [Write] returns that error, no
    file has changed and [os.WriteFile] was not called.  When [os.WriteFile]
    itself fails, [Write] returns its error and the key's file is whatever
    that call left: the file as it was, or a prefix of the encoded entry in
    place of the old contents. *)
Theorem Write_failure_outcomes (m : Manager) (key : string) (data : T) (w : World) :
  (∀ e, fs_fault (sys w) OpMkdirAll (dir m) = Some e →
        fst (Write Join m key data w) = Some e
        ∧ files (sys (snd (Write Join m key data w))) = files (sys w)
        ∧ new_events (Write Join m key data) w = [EvMkdirAll (dir m)])
  ∧ (∀ bytes e,
       fs_fault (sys w) OpMkdirAll (dir m) = None →
       json_MarshalIndent {| Data := data; Timestamp := clock (sys w) |} = (bytes, Some e) →
       fst (Write Join m key data w) = Some e
       ∧ files (sys (snd (Write Join m key data w))) = files (sys w)
       ∧ new_events (Write Join m key data) w = [EvMkdirAll (dir m)])
  ∧ (∀ bytes e,
       fs_fault (sys w) OpMkdirAll (dir m) = None →
       json_MarshalIndent {| Data := data; Timestamp := clock (sys w) |} = (bytes, None) →
       fs_fault (sys w) OpWriteFile (keyPath Join m key) = Some e →
       fst (Write Join m key data w) = Some e
       ∧ files (sys (snd (Write Join m key data w)))
         = match torn_write (sys w) (keyPath Join m key) with
           | None => files (sys w)
           | Some n =>
               <[keyPath Join m key := Regular (substring 0 n bytes)]> (files (sys w))
           end
       ∧ new_events (Write Join m key data) w
         = [EvMkdirAll (dir m); EvWriteFile (keyPath Join m key)]).
Proof.
  unfold new_events.
  unfold cache.Write, ensureDir, time_Now, os_MkdirAll, os_WriteFile.
  unfold mbind, M_bind, mret, M_ret. simpl.
  split; [|split].
  - intros e ->. simpl. by rewrite drop_app_length.
  - intros bytes e Hd Hm. rewrite Hd. simpl. rewrite Hm. simpl.
    by rewrite drop_app_length.
  - intros bytes e Hd Hm Hf. rewrite Hd. simpl. rewrite Hm. simpl. rewrite Hf.
    destruct (torn_write (sys w) _); simpl;
      by rewrite <- app_assoc, drop_app_length.
Qed.

(** X15.  [Write] of one key does not change what [Read] returns for a key
    stored under a different path. *)
Theorem Write_other_key (m : Manager) (key key' : string) (data : T) (w : World) :
  keyPath Join m key' ≠ keyPath Join m key →
  fst (Read Join m key' (snd (Write Join m key data w))) = fst (Read Join m key' w).
Proof.
  intros Hne. apply Read_fst_ext.
  - unfold cache.Write, ensureDir, time_Now, os_MkdirAll, os_WriteFile.
    unfold mbind, M_bind, mret, M_ret. simpl.
    destruct (fs_fault (sys w) OpMkdirAll _); simpl; [done|].
    destruct (json_MarshalIndent _) as [bytes [e|]]; simpl; [done|].
    destruct (fs_fault (sys w) OpWriteFile _); simpl;
      [destruct (torn_write (sys w) _); simpl|]; by rewrite ?lookup_insert_ne.
  - unfold cache.Write, ensureDir, time_Now, os_MkdirAll, os_WriteFile.
    unfold mbind, M_bind, mret, M_ret. simpl.
    destruct (fs_fault (sys w) OpMkdirAll _); simpl; [done|].
    destruct (json_MarshalIndent _) as [bytes [e|]]; simpl; [done|].
    destruct (fs_fault (sys w) OpWriteFile _); simpl;
      [by destruct (torn_write (sys w) _)|done].
Qed.

End CacheMore.

Lemma Has_characterised_witness :
  fst (@Has slash_join string line_codec m0 "teams-workspace" (w_warm Hour)) = true
  ∧ files (sys (snd (@Has slash_join string line_codec m0 "teams-workspace"
                       (w_warm (25 * Hour))))) = ∅.
Proof.
  assert (Hr : minDuration <= ttl m0 < maxDuration).
  { split; [discriminate | reflexivity]. }
  split.
  - destruct (@Has_characterised slash_join string line_codec m0 "teams-workspace"
                (w_warm Hour) Hr) as [A _].
    apply A. exists "1700000000000000000 ENG,OPS", (mkEntry "ENG,OPS" t0).
    split; [reflexivity|]. split; [reflexivity | discriminate].
  - destruct (@Has_characterised slash_join string line_codec m0 "teams-workspace"
                (w_warm (25 * Hour)) Hr) as [_ B].
    rewrite B. reflexivity.
Defined.

Lemma Clear_removes_witness :
  fst (Clear slash_join m0 "teams-workspace" (w_warm Hour)) = None
  ∧ fst (Clear slash_join m0 "teams-workspace" w_cold) = None
  ∧ fst (@Read slash_join string line_codec m0 "teams-workspace"
           (snd (Clear slash_join m0 "teams-workspace" (w_warm Hour)))) = (None, None).
Proof.
  destruct (@Clear_removes slash_join string line_codec m0 "teams-workspace" (w_warm Hour))
    as (A & _ & C); [reflexivity|].
  destruct (@Clear_removes slash_join string line_codec m0 "teams-workspace" w_cold)
    as (B & _); [reflexivity|].
  split; [exact A|]. split; [exact B | exact C].
Defined.

Lemma Write_failure_outcomes_witness :
  (fst (@Write slash_join string line_codec m0 "teams-workspace" "ENG,OPS" w_readonly)
   = Some ErrPermission
   ∧ files (sys (snd (@Write slash_join string line_codec m0 "teams-workspace" "ENG,OPS"
                        w_readonly))) = ∅)
  ∧ (fst (@Write slash_join string mute_codec m0 "teams-workspace" "ENG,OPS" (w_warm Hour))
     = Some (ErrorString "json: unsupported value")
     ∧ files (sys (snd (@Write slash_join string mute_codec m0 "teams-workspace" "ENG,OPS"
                          (w_warm Hour))))
       = {[ teams_path := Regular "1700000000000000000 ENG,OPS" ]})
  ∧ (fst (@Write slash_join string line_codec m0 "teams-workspace" "ENG,OPS" w_disk_full)
     = Some (ErrorString "no space left on device")
     ∧ files (sys (snd (@Write slash_join string line_codec m0 "teams-workspace" "ENG,OPS"
                          w_disk_full)))
       = {[ teams_path := Regular "1700000" ]}).
Proof.
  split; [|split].
  - destruct (@Write_failure_outcomes slash_join string line_codec m0 "teams-workspace"
                "ENG,OPS" w_readonly) as (A & _).
    destruct (A ErrPermission eq_refl) as (E & F & _).
    split; [exact E | exact F].
  - destruct (@Write_failure_outcomes slash_join string mute_codec m0 "teams-workspace"
                "ENG,OPS" (w_warm Hour)) as (_ & B & _).
    destruct (B EmptyString (ErrorString "json: unsupported value") eq_refl eq_refl)
      as (E & F & _).
    split; [exact E | exact F].
  - destruct (@Write_failure_outcomes slash_join string line_codec m0 "teams-workspace"
                "ENG,OPS" w_disk_full) as (_ & _ & C).
    destruct (C "1700000000000000000 ENG,OPS" (ErrorString "no space left on device")
                eq_refl eq_refl eq_refl) as (E & F & _).
    split; [exact E|]. rewrite F. vm_compute. reflexivity.
Defined.

Lemma Write_other_key_witness :
  fst (@Read slash_join string line_codec m0 "teams-workspace"
         (snd (@Write slash_join string line_codec m0 "users-workspace" "ann,bob"
                 (w_warm Hour))))
  = (Some "ENG,OPS", None).
Proof.
  rewrite (@Write_other_key slash_join string line_codec m0 "users-workspace"
             "teams-workspace" "ann,bob" (w_warm Hour)); [reflexivity | discriminate].
Defined.

Section CacheCompose.

Variable Join : string -> string -> string.
Context {T : Type} `{Cacheable T}.

(** X16.  A [GetOrFetch] that missed, fetched and stored its result makes
    the next [GetOrFetch] of the key a hit for as long as the entry is within
    the 24-hour TTL: the stored value is returned and the second fetch function
    is not called.  The first miss may have been a missing, an undecodable or
    an expired file alike. *)
Theorem GetOrFetch_then_hit (m : Manager) (key : string)
    (fetch fetch' : Sys -> (T * option error) * Sys) (w : World)
    (data : T) (s2 : Sys) (elapsed : Duration) :
  ttl m = DefaultTTL →
  fst (Read Join m key w) = (None, None) →
  fetch (sys (snd (Read Join m key w))) = ((data, None), s2) →
  fst (Write Join m key data (snd (call fetch (snd (Read Join m key w))))) = None →
  (∀ bytes,
     json_MarshalIndent {| Data := data; Timestamp := clock s2 |} = (bytes, None) →
     json_Unmarshal bytes = Some {| Data := data; Timestamp := clock s2 |}) →
  elapsed <= ttl m →
  fst (GetOrFetch Join m key fetch w) = (data, None)
  ∧ fst (GetOrFetch Join m key fetch' (advance elapsed (snd (GetOrFetch Join m key fetch w))))
    = (data, None)
  ∧ count is_fetch
      (new_events (GetOrFetch Join m key fetch')
         (advance elapsed (snd (GetOrFetch Join m key fetch w)))) = 0%nat.
Proof.
  intros Httl Hmiss Hfetch Hw Hc Hel.
  assert (Hr : minDuration <= ttl m < maxDuration).
  { rewrite Httl. apply DefaultTTL_range. }
  rewrite (GetOrFetch_run Join m key fetch w).
  destruct (cache.Read Join m key w) as [[cached rerr] w1]. simpl in *.
  injection Hmiss as -> ->.
  unfold call in *. rewrite Hfetch in *. simpl in *.
  destruct (Write_success Join m key data (log EvFetch (with_sys s2 w1)) Hw)
    as (bytes & Hm & Hf & Hclk & _).
  simpl in Hm, Hclk.
  split; [reflexivity|].
  set (w3 := snd (cache.Write Join m key data _)) in *. clearbody w3.
  destruct (Read_entry Join m key (advance elapsed w3) bytes
              {| Data := data; Timestamp := clock s2 |} Hr) as [_ Hit].
  { simpl. rewrite Hf. apply lookup_insert_eq. }
  { by apply Hc. }
  specialize (Hit ltac:(simpl; lia)).
  destruct (Read_trace Join m key (advance elapsed w3)) as (revs & Rt & Rf & _).
  unfold new_events. rewrite (GetOrFetch_run Join m key fetch' (advance elapsed w3)).
  rewrite Hit in *. simpl in *.
  split; [reflexivity|].
  rewrite drop_app_length. reflexivity.
Qed.

(** X17.  When the cache file exists but cannot be read (an error other
    than "does not exist"), [GetOrFetch] returns the zero value with that
    error; the fetch function is not called and nothing is written. *)
Theorem GetOrFetch_read_error (m : Manager) (key : string)
    (fetch : Sys -> (T * option error) * Sys) (w : World) (e : error) :
  files (sys w) !! keyPath Join m key = Some (Unreadable e) →
  os_IsNotExist e = false →
  GetOrFetch Join m key fetch w
  = ((zero, Some e), log (EvReadFile (keyPath Join m key)) w)
  ∧ count is_fetch (new_events (GetOrFetch Join m key fetch) w) = 0%nat
  ∧ count is_cache_write (new_events (GetOrFetch Join m key fetch) w) = 0%nat.
Proof.
  intros Hf He.
  assert (E : GetOrFetch Join m key fetch w
              = ((zero, Some e), log (EvReadFile (keyPath Join m key)) w)).
  { rewrite GetOrFetch_run.
    unfold cache.Read, os_ReadFile, mbind, M_bind, mret, M_ret. simpl.
    rewrite Hf. simpl. by rewrite He. }
  split; [exact E|].
  unfold new_events. rewrite E. simpl. by rewrite drop_app_length.
Qed.

End CacheCompose.

Lemma GetOrFetch_then_hit_witness :
  fst (@GetOrFetch slash_join string line_codec m0 "teams-workspace" fetch_fails
         (advance (24 * Hour)
            (snd (@GetOrFetch slash_join string line_codec m0 "teams-workspace" fetch_ok
                    w_corrupt))))
  = ("ENG,OPS", None).
Proof.
  destruct (@GetOrFetch_then_hit slash_join string line_codec m0 "teams-workspace"
              fetch_ok fetch_fails w_corrupt "ENG,OPS"
              (sys (snd (@Read slash_join string line_codec m0 "teams-workspace" w_corrupt)))
              (24 * Hour)) as (_ & A & _);
    [reflexivity | reflexivity | reflexivity | reflexivity
    | by intros bytes [= <-] | discriminate | exact A].
Defined.

Lemma GetOrFetch_read_error_witness :
  fst (@GetOrFetch slash_join string line_codec m0 "teams-workspace" fetch_ok w_denied)
  = (EmptyString, Some ErrPermission).
Proof.
  destruct (@GetOrFetch_read_error slash_join string line_codec m0 "teams-workspace"
              fetch_ok w_denied ErrPermission) as (A & _);
    [reflexivity | reflexivity | by rewrite A].
Defined.

(** X18.  Building a manager touches nothing: no directory is created until
    [Write].  When XDG_CACHE_HOME is set and not empty, on every platform the
    manager's directory is "agent-linear-cli" under it, whatever the home
    variables hold.  When it is not, the directory is "agent-linear-cli"
    under ".cache" under the home directory, which is the value of the
    platform's home variable (HOME; USERPROFILE on windows, home on plan9)
    or, where that is empty, "/sdcard" on android and "/" on ios.
    [NewManager] fails exactly when XDG_CACHE_HOME and the platform's home
    variable are both empty or unset and the platform is neither android nor
    ios; the error then names the home variable.  Every manager built has the
    24-hour TTL. *)
Theorem NewManager_outcome (Join : string -> string -> string) (GOOS : string)
    (w : World) :
  snd (NewManager Join GOOS w) = w
  ∧ (GOOS ≠ "windows" → GOOS ≠ "plan9" → home_env GOOS = ("HOME", "$HOME"))
  ∧ (getenv (sys w) "XDG_CACHE_HOME" ≠ EmptyString →
     fst (NewManager Join GOOS w)
     = (Some {| dir := Join (getenv (sys w) "XDG_CACHE_HOME") CacheDir;
                ttl := 24 * Hour |}, None))
  ∧ (getenv (sys w) "XDG_CACHE_HOME" = EmptyString →
     getenv (sys w) (fst (home_env GOOS)) ≠ EmptyString →
     fst (NewManager Join GOOS w)
     = (Some {| dir := Join (Join (getenv (sys w) (fst (home_env GOOS))) ".cache") CacheDir;
                ttl := 24 * Hour |}, None))
  ∧ (getenv (sys w) "XDG_CACHE_HOME" = EmptyString →
     getenv (sys w) (fst (home_env GOOS)) = EmptyString →
     fst (NewManager Join GOOS w)
     = if decide (GOOS = "android") then
         (Some {| dir := Join (Join "/sdcard" ".cache") CacheDir; ttl := 24 * Hour |}, None)
       else if decide (GOOS = "ios") then
         (Some {| dir := Join (Join "/" ".cache") CacheDir; ttl := 24 * Hour |}, None)
       else (None, Some (ErrorString (snd (home_env GOOS) +:+ " is not defined"))))
  ∧ (snd (fst (NewManager Join GOOS w)) ≠ None ↔
     getenv (sys w) "XDG_CACHE_HOME" = EmptyString
     ∧ getenv (sys w) (fst (home_env GOOS)) = EmptyString
     ∧ GOOS ≠ "android" ∧ GOOS ≠ "ios")
  ∧ (∀ m, fst (fst (NewManager Join GOOS w)) = Some m → ttl m = 24 * Hour).
Proof.
  split.
  { unfold NewManager, getCacheDir, os_UserHomeDir, os_Getenv.
    unfold mbind, M_bind, mret, M_ret.
    destruct (home_env GOOS) as [env enverr]. simpl.
    by repeat case_decide. }
  split.
  { intros Hw Hp. unfold home_env. by rewrite !decide_False. }
  unfold NewManager, getCacheDir, os_UserHomeDir, os_Getenv, getenv.
  unfold mbind, M_bind, mret, M_ret.
  destruct (home_env GOOS) as [env enverr]. simpl.
  destruct (decide (default EmptyString (environ (sys w) !! "XDG_CACHE_HOME") = EmptyString))
    as [Hx|Hx]; simpl.
  - destruct (decide (default EmptyString (environ (sys w) !! env) = EmptyString))
      as [Hh|Hh]; simpl.
    + destruct (decide (GOOS = "android")) as [Ha|Ha]; simpl;
        [|destruct (decide (GOOS = "ios")) as [Hi|Hi]; simpl].
      * split; [done|]. split; [done|]. split; [done|].
        split; [|by intros m [= <-]]. split; [done|]. by intros (_ & _ & ? & _).
      * split; [done|]. split; [done|]. split; [done|].
        split; [|by intros m [= <-]]. split; [done|]. by intros (_ & _ & _ & ?).
      * split; [done|]. split; [done|]. split; [done|].
        split; [|by intros m [=]]. split; done.
    + split; [done|]. split; [done|]. split; [done|].
      split; [|by intros m [= <-]]. split; [done|]. by intros (_ & ? & _).
  - split; [done|]. split; [done|]. split; [done|].
    split; [|by intros m [= <-]]. split; [done|]. by intros (? & _).
Qed.

Lemma NewManager_outcome_witness :
  fst (NewManager slash_join "linux"
         (world_of {[ "XDG_CACHE_HOME" := "/var/cache"; "HOME" := "/home/u" ]}
            (keyring_of Vacant Vacant Vacant Vacant) endpoint_down t0))
  = (Some {| dir := "/var/cache/agent-linear-cli"; ttl := 24 * Hour |}, None)
  ∧ fst (NewManager slash_join "linux"
           (world_of {[ "HOME" := "/home/u" ]}
              (keyring_of Vacant Vacant Vacant Vacant) endpoint_down t0))
    = (Some m0, None)
  ∧ fst (NewManager slash_join "windows"
           (world_of {[ "HOME" := "/home/u" ]}
              (keyring_of Vacant Vacant Vacant Vacant) endpoint_down t0))
    = (None, Some (ErrorString "%userprofile% is not defined"))
  ∧ fst (NewManager slash_join "android"
           (world_of ∅ (keyring_of Vacant Vacant Vacant Vacant) endpoint_down t0))
    = (Some {| dir := "/sdcard/.cache/agent-linear-cli"; ttl := 24 * Hour |}, None).
Proof.
  split; [|split; [|split]].
  - destruct (NewManager_outcome slash_join "linux"
                (world_of {[ "XDG_CACHE_HOME" := "/var/cache"; "HOME" := "/home/u" ]}
                   (keyring_of Vacant Vacant Vacant Vacant) endpoint_down t0))
      as (_ & _ & A & _).
    rewrite A; [reflexivity | discriminate].
  - destruct (NewManager_outcome slash_join "linux"
                (world_of {[ "HOME" := "/home/u" ]}
                   (keyring_of Vacant Vacant Vacant Vacant) endpoint_down t0))
      as (_ & _ & _ & B & _).
    rewrite B; [reflexivity | reflexivity | discriminate].
  - destruct (NewManager_outcome slash_join "windows"
                (world_of {[ "HOME" := "/home/u" ]}
                   (keyring_of Vacant Vacant Vacant Vacant) endpoint_down t0))
      as (_ & _ & _ & _ & C & _).
    rewrite C; reflexivity.
  - destruct (NewManager_outcome slash_join "android"
                (world_of ∅ (keyring_of Vacant Vacant Vacant Vacant) endpoint_down t0))
      as (_ & _ & _ & _ & C & _).
    rewrite C; reflexivity.
Defined.

Section ClearAllProofs.

Variable Join : string -> string -> string.
Variable ReadDir : Sys -> string -> list string * option error.

(** The removal loop touches only paths of listed ".json" names, and no
    fault setting. *)
Lemma remove_json_frame m entries w :
  fs_fault (sys (snd (remove_json Join m entries w))) = fs_fault (sys w)
  ∧ ∀ p, (∀ name, name ∈ entries → filepath_Ext name = ".json" →
                  p ≠ Join (dir m) name) →
         files (sys (snd (remove_json Join m entries w))) !! p = files (sys w) !! p.
Proof.
  revert w. induction entries as [|name rest IH]; intros w; [done|].
  simpl. unfold mbind, M_bind, mret, M_ret.
  case_decide as Hext.
  - destruct (os_Remove (Join (dir m) name) w) as [r w1] eqn:E.
    assert (Hw1 : fs_fault (sys w1) = fs_fault (sys w)
                  ∧ ∀ p, p ≠ Join (dir m) name → files (sys w1) !! p = files (sys w) !! p).
    { unfold os_Remove in E.
      destruct (fs_fault (sys w) OpRemove _); [by injection E as <- <-|].
      destruct (files (sys w) !! _); injection E as <- <-; simpl; [|done].
      split; [done|]. intros p Hp. by rewrite lookup_delete_ne. }
    destruct Hw1 as [Hfa Hfi]. destruct (IH w1) as [IH1 IH2].
    split; [by rewrite IH1|].
    intros p Hp. rewrite IH2, Hfi; [done| |].
    + apply Hp; [set_solver | done].
    + intros name' Hin. apply Hp. set_solver.
  - destruct (IH w) as [IH1 IH2]. split; [done|].
    intros p Hp. apply IH2. intros name' Hin. apply Hp. set_solver.
Qed.

Lemma Remove_effect path w :
  fs_fault (sys (snd (os_Remove path w))) = fs_fault (sys w)
  ∧ (∀ p, files (sys w) !! p = None → files (sys (snd (os_Remove path w))) !! p = None).
Proof.
  unfold os_Remove.
  destruct (fs_fault (sys w) OpRemove path); [done|].
  destruct (files (sys w) !! path) eqn:E; simpl; [|done].
  split; [done|]. intros p Hp.
  destruct (decide (path = p)) as [->|Hne];
    [apply lookup_delete_eq | by rewrite lookup_delete_ne].
Qed.

(** The removal loop never brings a file into being. *)
Lemma remove_json_absent m entries w p :
  files (sys w) !! p = None →
  files (sys (snd (remove_json Join m entries w))) !! p = None.
Proof.
  revert w. induction entries as [|name rest IH]; intros w Hp; [done|].
  simpl. unfold mbind, M_bind, mret, M_ret.
  case_decide; [|by apply IH].
  destruct (Remove_effect (Join (dir m) name) w) as [_ A].
  destruct (os_Remove (Join (dir m) name) w) as [r w1]. simpl in *.
  apply IH. by apply A.
Qed.

Lemma remove_json_clears m entries w :
  (∀ name, fs_fault (sys w) OpRemove (Join (dir m) name) = None) →
  ∀ name, name ∈ entries → filepath_Ext name = ".json" →
          files (sys (snd (remove_json Join m entries w))) !! Join (dir m) name = None.
Proof.
  revert w. induction entries as [|first rest IH]; intros w Hnf name Hin Hext;
    [by apply elem_of_nil in Hin|].
  simpl. unfold mbind, M_bind, mret, M_ret.
  destruct (decide (name = first)) as [->|Hne].
  - rewrite decide_True by done.
    pose proof (Remove_deletes (Join (dir m) first) w (Hnf first)) as D.
    destruct (os_Remove (Join (dir m) first) w) as [r w1]. simpl in D.
    apply remove_json_absent. rewrite D. apply lookup_delete_eq.
  - assert (Hrest : name ∈ rest) by set_solver.
    case_decide; [|by apply IH].
    destruct (Remove_effect (Join (dir m) first) w) as [F _].
    destruct (os_Remove (Join (dir m) first) w) as [r w1]. simpl in F.
    apply IH; [|done|done]. intros n. by rewrite F.
Qed.

(** X19.  [ClearAll]: a cache directory that does not exist is not an
    error and nothing happens; any other failure to list it is returned.
    With a listing, [ClearAll] returns nil whatever the single removals did;
    only files named by a listed entry with extension ".json" can have
    changed, and when no removal is refused each of those is gone. *)
Theorem ClearAll_outcome (m : Manager) (w : World) (entries : list string) :
  (∀ e, ReadDir (sys w) (dir m) = (entries, Some e) →
        ClearAll Join ReadDir m w = ((if os_IsNotExist e then None else Some e), w))
  ∧ (ReadDir (sys w) (dir m) = (entries, None) →
     fst (ClearAll Join ReadDir m w) = None
     ∧ (∀ p, (∀ name, name ∈ entries → filepath_Ext name = ".json" →
                      p ≠ Join (dir m) name) →
             files (sys (snd (ClearAll Join ReadDir m w))) !! p = files (sys w) !! p)
     ∧ ((∀ name, fs_fault (sys w) OpRemove (Join (dir m) name) = None) →
        ∀ name, name ∈ entries → filepath_Ext name = ".json" →
                files (sys (snd (ClearAll Join ReadDir m w))) !! Join (dir m) name = None)).
Proof.
  unfold ClearAll. split.
  - intros e ->. by destruct (os_IsNotExist e).
  - intros ->.
    destruct (remove_json_frame m entries w) as [_ F].
    pose proof (remove_json_clears m entries w) as C.
    destruct (remove_json Join m entries w) as [u w']. simpl in *.
    split; [done|]. split; [exact F | exact C].
Qed.

End ClearAllProofs.

Lemma ClearAll_outcome_witness :
  files (sys (snd (ClearAll slash_join
                     (fun _ _ => (["teams-workspace.json"; "notes.txt"], None))
                     m0 (w_warm Hour))))
    !! teams_path = None
  ∧ ClearAll slash_join (fun _ _ => ([], Some ErrNotExist)) m0 w_cold = (None, w_cold).
Proof.
  split.
  - destruct (ClearAll_outcome slash_join
                (fun _ _ => (["teams-workspace.json"; "notes.txt"], None))
                m0 (w_warm Hour) ["teams-workspace.json"; "notes.txt"]) as [_ B].
    destruct (B eq_refl) as (_ & _ & C).
    apply (C (fun _ => eq_refl) "teams-workspace.json"); [set_solver | reflexivity].
  - destruct (ClearAll_outcome slash_join (fun _ _ => ([], Some ErrNotExist)) m0 w_cold [])
      as [A _].
    apply (A ErrNotExist eq_refl).
Defined.

(** ** Command helpers *)

Example filterUsers_active :
  cmd.filterUsers [cmd.ann; cmd.bob; cmd.cyd] true false = [cmd.ann; cmd.bob].
Proof. reflexivity. Qed.

Example searchUsers_example :
  cmd.searchUsers cmd.ascii_ToLower [cmd.ann; cmd.bob; cmd.cyd] "EXAMPLE.com"
  = [cmd.ann; cmd.bob].
Proof. reflexivity. Qed.

Example maskSecret_example :
  cmd.maskSecret "lin_api_0123456789abcdef" = "lin_...cdef".
Proof. reflexivity. Qed.

Example slugify_example :
  cmd.slugify cmd.ascii_ToLower "  Fix: login_page -- crash (v2)! " = "fix-login-page-crash-v2".
Proof. reflexivity. Qed.

Example generateBranchName_example :
  cmd.generateBranchName cmd.ascii_ToLower "ENG-123" "Fix login page"
  = "eng-123-fix-login-page".
Proof. reflexivity. Qed.

Lemma filter_loop_filter a b us acc :
  cmd.filter_loop a b us acc = acc ++ List.filter (cmd.wanted a b) us.
Proof.
  revert acc. induction us as [|u us IH]; intros acc; simpl.
  { by rewrite app_nil_r. }
  unfold cmd.wanted at 1.
  destruct a, b, (cmd.Active u), (cmd.Admin u); simpl; rewrite IH;
    by rewrite <- ?app_assoc.
Qed.

Lemma filterUsers_filter us a b :
  cmd.filterUsers us a b = List.filter (cmd.wanted a b) us.
Proof.
  unfold cmd.filterUsers. destruct a, b; simpl; try apply filter_loop_filter.
  induction us as [|u us IH]; simpl; [done | by rewrite <- IH].
Qed.

Lemma filter_filter {A} (p q : A → bool) (l : list A) :
  List.filter q (List.filter p l) = List.filter (fun x => p x && q x) l.
Proof.
  induction l as [|x l IH]; simpl; [done|].
  destruct (p x); simpl; [|done]. destruct (q x); by rewrite IH.
Qed.

(** X20.  [filterUsers] returns, in their original order, exactly the users
    that pass the requested tests (active when [activeOnly], admin when
    [adminsOnly]); with neither flag that is every user.  Filtering twice is
    filtering once with the flags of both calls combined. *)
Theorem filterUsers_keeps_wanted (us : list cmd.User) (a b a' b' : bool) :
  cmd.filterUsers us a b = List.filter (cmd.wanted a b) us
  ∧ cmd.filterUsers us false false = us
  ∧ (∀ u, In u (cmd.filterUsers us a b) ↔
          In u us ∧ (a = true → cmd.Active u = true) ∧ (b = true → cmd.Admin u = true))
  ∧ cmd.filterUsers (cmd.filterUsers us a b) a' b' = cmd.filterUsers us (a || a') (b || b').
Proof.
  split; [apply filterUsers_filter|]. split; [reflexivity|]. split.
  - intros u. rewrite filterUsers_filter, List.filter_In. unfold cmd.wanted.
    destruct a, b, (cmd.Active u), (cmd.Admin u); simpl; naive_solver.
  - rewrite !filterUsers_filter, filter_filter. apply List.filter_ext.
    intros u. unfold cmd.wanted.
    by destruct a, b, a', b', (cmd.Active u), (cmd.Admin u).
Qed.

Section SearchProofs.

Variable ToLower : string -> string.

Lemma search_loop_filter q us acc :
  cmd.search_loop ToLower q us acc = acc ++ List.filter (cmd.matches ToLower q) us.
Proof.
  revert acc. induction us as [|u us IH]; intros acc; simpl.
  { by rewrite app_nil_r. }
  destruct (cmd.matches ToLower q u); rewrite IH; by rewrite <- ?app_assoc.
Qed.

Lemma Contains_empty s : cmd.strings_Contains s EmptyString = true.
Proof. by destruct s. Qed.

(** X21.  [searchUsers] returns, in their original order, exactly the users
    whose lowered name, display name or e-mail contains the lowered query.
    Searching and filtering commute.  If lowering the empty string gives the
    empty string, the empty query returns every user. *)
Theorem searchUsers_matches (us : list cmd.User) (q : string) (a b : bool) :
  cmd.searchUsers ToLower us q = List.filter (cmd.matches ToLower (ToLower q)) us
  ∧ cmd.filterUsers (cmd.searchUsers ToLower us q) a b
    = cmd.searchUsers ToLower (cmd.filterUsers us a b) q
  ∧ (ToLower EmptyString = EmptyString → cmd.searchUsers ToLower us EmptyString = us).
Proof.
  assert (E : ∀ l q', cmd.searchUsers ToLower l q'
                      = List.filter (cmd.matches ToLower (ToLower q')) l).
  { intros l q'. unfold cmd.searchUsers. apply search_loop_filter. }
  split; [apply E|]. split.
  - rewrite !E, !filterUsers_filter, !filter_filter. apply List.filter_ext.
    intros u. apply andb_comm.
  - intros H0. rewrite E, H0.
    induction us as [|u l IH]; simpl; [done|].
    unfold cmd.matches at 1. rewrite !Contains_empty. simpl. by rewrite IH.
Qed.

End SearchProofs.

Lemma searchUsers_matches_witness :
  cmd.searchUsers cmd.ascii_ToLower [cmd.ann; cmd.bob; cmd.cyd] EmptyString
  = [cmd.ann; cmd.bob; cmd.cyd].
Proof.
  destruct (searchUsers_matches cmd.ascii_ToLower [cmd.ann; cmd.bob; cmd.cyd]
              EmptyString false false) as (_ & _ & A).
  apply A. reflexivity.
Defined.

(** *** Lengths and slices of strings *)

Lemma length_append (a b : string) :
  String.length (a +:+ b) = (String.length a + String.length b)%nat.
Proof. induction a as [|c a IH]; simpl; [done | by rewrite IH]. Qed.

Lemma length_substring (s : string) (n m : nat) :
  String.length (substring n m s) = Nat.min m (String.length s - n).
Proof.
  revert n m. induction s as [|c s IH]; intros [|n] [|m]; simpl; try done;
    rewrite IH; rewrite ?Nat.sub_0_r; done.
Qed.

Lemma substring_prefix (a x : string) :
  substring 0 (String.length a) (a +:+ x) = a.
Proof.
  induction a as [|c a IH]; simpl; [by destruct x | by rewrite IH].
Qed.

Lemma substring_skip (a x : string) (n m : nat) :
  substring (String.length a + n) m (a +:+ x) = substring n m x.
Proof. induction a as [|c a IH]; simpl; done. Qed.

Lemma substring_whole (b : string) : substring 0 (String.length b) b = b.
Proof. induction b as [|c b IH]; simpl; [done | by rewrite IH]. Qed.

Lemma substring_short (s : string) (n : nat) :
  (String.length s <= n)%nat → substring 0 n s = s.
Proof.
  revert n. induction s as [|c s IH]; intros [|n] Hn; simpl in *; try done; try lia.
  rewrite IH; [done | lia].
Qed.

Lemma prefix_substring (s : string) (n : nat) :
  String.prefix (substring 0 n s) s = true.
Proof.
  revert n. induction s as [|c s IH]; intros [|n]; simpl; try done.
  destruct (ascii_dec c c); [apply IH | done].
Qed.

(** X22.  [maskSecret] shows nothing of a secret of at most 8 bytes: the
    answer is "****" whatever the secret and its length.  Of a longer
    secret it shows the first four and the last four bytes around "...":
    the answer is 11 bytes long and does not depend on the bytes in between
    or on how many they are. *)
Theorem maskSecret_hides_middle (s first last middle : string) :
  ((String.length s <= 8)%nat → cmd.maskSecret s = "****")
  ∧ ((8 < String.length s)%nat → String.length (cmd.maskSecret s) = 11%nat)
  ∧ (String.length first = 4%nat → String.length last = 4%nat →
     middle ≠ EmptyString →
     cmd.maskSecret (first +:+ middle +:+ last) = first +:+ "..." +:+ last).
Proof.
  unfold cmd.maskSecret. split; [|split].
  - intros Hs. by rewrite (proj2 (Nat.leb_le _ _) Hs).
  - intros Hs. rewrite (proj2 (Nat.leb_gt _ _) Hs).
    rewrite !length_append, !length_substring.
    change (String.length "...") with 3%nat. lia.
  - intros Hf Hl Hm.
    assert (Hmid : (0 < String.length middle)%nat) by (destruct middle; simpl; [done | lia]).
    rewrite (proj2 (Nat.leb_gt _ _)) by (rewrite !length_append; lia).
    rewrite <- Hf at 1. rewrite substring_prefix.
    rewrite !length_append.
    replace (String.length first + (String.length middle + String.length last) - 4)%nat
      with (String.length first + (String.length middle + 0))%nat by lia.
    rewrite substring_skip, substring_skip, <- Hl, substring_whole. done.
Qed.

Lemma maskSecret_hides_middle_witness :
  cmd.maskSecret "lin_api_0123456789abcdef" = "lin_...cdef"
  ∧ cmd.maskSecret "hunter2" = "****".
Proof.
  destruct (maskSecret_hides_middle "hunter2" "lin_" "cdef" "api_0123456789ab")
    as (A & _ & C).
  split; [apply C; [reflexivity | reflexivity | discriminate] | apply A; simpl; lia].
Defined.

(** *** Slugs *)

Lemma keep_all_slug s : cmd.all_slug_chars (cmd.keep_slug_chars s) = true.
Proof.
  induction s as [|c s IH]; simpl; [done|].
  destruct (cmd.is_slug_char c) eqn:E; simpl; [by rewrite E | done].
Qed.

Lemma has_double_tail c s :
  cmd.has_double_hyphen (String c s) = false → cmd.has_double_hyphen s = false.
Proof. simpl. intros Hd. by apply orb_false_elim in Hd as [_ ?]. Qed.

Lemma all_slug_tail c s :
  cmd.all_slug_chars (String c s) = true → cmd.all_slug_chars s = true.
Proof. simpl. intros Ha. by apply andb_prop in Ha as [_ ?]. Qed.

Lemma has_double_cons c s :
  cmd.has_double_hyphen (String c s)
  = cmd.is_hyphen c && cmd.first_char_is_hyphen s || cmd.has_double_hyphen s.
Proof. reflexivity. Qed.

Lemma all_slug_cons c s :
  cmd.all_slug_chars (String c s) = cmd.is_slug_char c && cmd.all_slug_chars s.
Proof. reflexivity. Qed.

Lemma replace_cons2 c c' s :
  cmd.replace_double_hyphen (String c (String c' s))
  = if cmd.is_hyphen c && cmd.is_hyphen c'
    then String "-" (cmd.replace_double_hyphen s)
    else String c (cmd.replace_double_hyphen (String c' s)).
Proof. reflexivity. Qed.

(** Statements about [replace_double_hyphen] go by induction on the string
    for the string and for the string with one more byte in front, because
    the function recurses on the tail and on the tail of the tail. *)
Lemma replace_length s :
  (String.length (cmd.replace_double_hyphen s) <= String.length s)%nat
  ∧ ∀ c, (String.length (cmd.replace_double_hyphen (String c s)) <= S (String.length s))%nat.
Proof.
  induction s as [|c' s [IH1 IH2]]; [by split; [|intros c]|].
  assert (L : ∀ c, (String.length (cmd.replace_double_hyphen (String c (String c' s)))
                    <= S (S (String.length s)))%nat).
  { intros c. rewrite replace_cons2.
    destruct (cmd.is_hyphen c && cmd.is_hyphen c').
    - cbn [String.length]. lia.
    - specialize (IH2 c'). cbn [String.length]. lia. }
  split; [apply IH2 | exact L].
Qed.

Lemma replace_shrinks s :
  (cmd.has_double_hyphen s = true →
   (String.length (cmd.replace_double_hyphen s) < String.length s)%nat)
  ∧ ∀ c, cmd.has_double_hyphen (String c s) = true →
         (String.length (cmd.replace_double_hyphen (String c s)) < S (String.length s))%nat.
Proof.
  induction s as [|c' s [IH1 IH2]].
  { split; [done|]. intros c. simpl. by rewrite andb_false_r. }
  assert (L : ∀ c, cmd.has_double_hyphen (String c (String c' s)) = true →
                   (String.length (cmd.replace_double_hyphen (String c (String c' s)))
                    < S (S (String.length s)))%nat).
  { intros c Hd. rewrite replace_cons2.
    destruct (cmd.is_hyphen c && cmd.is_hyphen c') eqn:E.
    - cbn [String.length]. destruct (replace_length s) as [L1 _]. lia.
    - assert (Hd' : cmd.has_double_hyphen (String c' s) = true).
      { change (cmd.is_hyphen c && cmd.is_hyphen c'
                || cmd.has_double_hyphen (String c' s) = true) in Hd.
        by rewrite E in Hd. }
      specialize (IH2 c' Hd'). cbn [String.length]. lia. }
  split; [apply IH2 | exact L].
Qed.

(** The squeezing loop ends on its own within as many rounds as the slug
    has bytes: what [squeeze] returns has no "--" left. *)
Lemma squeeze_enough fuel s :
  (String.length s <= fuel)%nat → cmd.has_double_hyphen (cmd.squeeze fuel s) = false.
Proof.
  revert s. induction fuel as [|fuel IH]; intros s Hl.
  - destruct s; [done | simpl in Hl; lia].
  - simpl. destruct (cmd.has_double_hyphen s) eqn:E; [|exact E].
    apply IH. destruct (replace_shrinks s) as [Sh _]. specialize (Sh E). lia.
Qed.

Lemma replace_all_slug s :
  (cmd.all_slug_chars s = true → cmd.all_slug_chars (cmd.replace_double_hyphen s) = true)
  ∧ ∀ c, cmd.all_slug_chars (String c s) = true →
         cmd.all_slug_chars (cmd.replace_double_hyphen (String c s)) = true.
Proof.
  induction s as [|c' s [IH1 IH2]]; [by split; [|intros c]|].
  assert (L : ∀ c, cmd.all_slug_chars (String c (String c' s)) = true →
                   cmd.all_slug_chars (cmd.replace_double_hyphen (String c (String c' s)))
                   = true).
  { intros c Ha. rewrite replace_cons2.
    change (cmd.is_slug_char c && cmd.all_slug_chars (String c' s) = true) in Ha.
    apply andb_prop in Ha as [Hc Ha].
    destruct (cmd.is_hyphen c && cmd.is_hyphen c').
    - change (cmd.is_slug_char "-" && cmd.all_slug_chars (cmd.replace_double_hyphen s)
              = true).
      rewrite IH1; [reflexivity|]. by apply all_slug_tail in Ha.
    - change (cmd.is_slug_char c
              && cmd.all_slug_chars (cmd.replace_double_hyphen (String c' s)) = true).
      by rewrite Hc, IH2. }
  split; [apply IH2 | exact L].
Qed.

Lemma squeeze_all_slug fuel s :
  cmd.all_slug_chars s = true → cmd.all_slug_chars (cmd.squeeze fuel s) = true.
Proof.
  revert s. induction fuel as [|fuel IH]; intros s Hs; simpl; [done|].
  destruct (cmd.has_double_hyphen s); [|done].
  apply IH. by apply replace_all_slug.
Qed.

Lemma trim_left_shape s :
  cmd.first_char_is_hyphen (cmd.trim_left_hyphens s) = false
  ∧ (cmd.all_slug_chars s = true → cmd.all_slug_chars (cmd.trim_left_hyphens s) = true)
  ∧ (cmd.has_double_hyphen s = false →
     cmd.has_double_hyphen (cmd.trim_left_hyphens s) = false).
Proof.
  induction s as [|c s (IH1 & IH2 & IH3)]; [done|].
  cbn [cmd.trim_left_hyphens]. destruct (cmd.is_hyphen c) eqn:E.
  - split; [exact IH1|]. split.
    + intros Ha. apply IH2. by apply all_slug_tail in Ha.
    + intros Hd. apply IH3. by apply has_double_tail in Hd.
  - split; [simpl; exact E | by split].
Qed.

Lemma trim_right_shape s :
  cmd.last_char_is_hyphen (cmd.trim_right_hyphens s) = false
  ∧ (cmd.first_char_is_hyphen s = false →
     cmd.first_char_is_hyphen (cmd.trim_right_hyphens s) = false)
  ∧ (cmd.all_slug_chars s = true → cmd.all_slug_chars (cmd.trim_right_hyphens s) = true)
  ∧ (cmd.has_double_hyphen s = false →
     cmd.has_double_hyphen (cmd.trim_right_hyphens s) = false)
  ∧ (cmd.first_char_is_hyphen (cmd.trim_right_hyphens s) = true →
     cmd.first_char_is_hyphen s = true).
Proof.
  induction s as [|c s (IH1 & IH2 & IH3 & IH4 & IH5)]; [done|].
  cbn [cmd.trim_right_hyphens].
  destruct (cmd.trim_right_hyphens s) as [|c' r] eqn:E.
  - destruct (cmd.is_hyphen c) eqn:Hc; [done|].
    simpl. rewrite Hc. repeat split; try done.
    + intros Ha. simpl in Ha. apply andb_prop in Ha as [-> _]. done.
  - split.
    { cbn [cmd.last_char_is_hyphen]. exact IH1. }
    split; [done|]. split.
    { intros Ha. rewrite all_slug_cons in Ha |- *.
      apply andb_prop in Ha as [-> Hs]. simpl. by apply IH3. }
    split; [|done].
    intros Hd. rewrite has_double_cons in Hd |- *.
    apply orb_false_elim in Hd as [H1 H2].
    rewrite (IH4 H2), orb_false_r.
    destruct (cmd.is_hyphen c); [|done]. simpl in H1 |- *.
    destruct (cmd.is_hyphen c') eqn:Hc'; [|done].
    assert (cmd.first_char_is_hyphen s = true) by (apply IH5; simpl; exact Hc').
    congruence.
Qed.

Section SlugProofs.

Variable ToLower : string -> string.

Lemma prefix_hyphen x : String.prefix "-" x = cmd.first_char_is_hyphen x.
Proof.
  destruct x as [|c x]; [reflexivity|].
  change (String.prefix "-" (String c x))
    with (if ascii_dec "-" c then String.prefix EmptyString x else false).
  unfold cmd.first_char_is_hyphen, cmd.is_hyphen.
  destruct (ascii_dec "-" c) as [<-|Hne].
  - by destruct x.
  - symmetry. apply bool_decide_eq_false. congruence.
Qed.

(** The test used for the squeezing loop is [strings.Contains(_, "--")]. *)
Lemma Contains_double x : cmd.strings_Contains x "--" = cmd.has_double_hyphen x.
Proof.
  induction x as [|c x IH]; [reflexivity|].
  rewrite has_double_cons. cbn [cmd.strings_Contains]. rewrite IH. f_equal.
  change (String.prefix "--" (String c x))
    with (if ascii_dec "-" c then String.prefix "-" x else false).
  unfold cmd.is_hyphen.
  destruct (ascii_dec "-" c) as [<-|Hne].
  - by rewrite prefix_hyphen.
  - symmetry. apply andb_false_intro1, bool_decide_eq_false. congruence.
Qed.

(** The shape of every slug. *)
Lemma slug_shape (s : string) :
  cmd.all_slug_chars (cmd.slugify ToLower s) = true
  ∧ cmd.has_double_hyphen (cmd.slugify ToLower s) = false
  ∧ cmd.first_char_is_hyphen (cmd.slugify ToLower s) = false
  ∧ cmd.last_char_is_hyphen (cmd.slugify ToLower s) = false.
Proof.
  unfold cmd.slugify, cmd.trim_hyphens.
  set (kept := cmd.keep_slug_chars _).
  set (slug := cmd.squeeze (String.length kept) kept).
  assert (A : cmd.all_slug_chars slug = true).
  { apply squeeze_all_slug, keep_all_slug. }
  assert (D : cmd.has_double_hyphen slug = false) by (by apply squeeze_enough).
  destruct (trim_left_shape slug) as (L1 & L2 & L3).
  destruct (trim_right_shape (cmd.trim_left_hyphens slug)) as (R1 & R2 & R3 & R4 & _).
  split; [by apply R3, L2|]. split; [by apply R4, L3|]. split; [by apply R2 | exact R1].
Qed.

(** X23.  Whatever the title and however [strings.ToLower] lowers it,
    [slugify] returns a string made only of the bytes a-z, 0-9 and "-", with
    no two hyphens in a row and no hyphen at either end; every byte of the
    result passes the test of the rune loop. *)
Theorem slugify_shape (s : string) :
  cmd.all_slug_chars (cmd.slugify ToLower s) = true
  ∧ cmd.has_double_hyphen (cmd.slugify ToLower s) = false
  ∧ cmd.first_char_is_hyphen (cmd.slugify ToLower s) = false
  ∧ cmd.last_char_is_hyphen (cmd.slugify ToLower s) = false
  ∧ cmd.strings_Contains (cmd.slugify ToLower s) "--" = false.
Proof.
  destruct (slug_shape s) as (A & D & F & L).
  split; [exact A|]. split; [exact D|]. split; [exact F|]. split; [exact L|].
  by rewrite Contains_double.
Qed.

Lemma replace_byte_id old new x :
  cmd.is_slug_char old = false → cmd.all_slug_chars x = true →
  cmd.replace_byte old new x = x.
Proof.
  intros Ho. induction x as [|c x IH]; simpl; [done|].
  intros Ha. apply andb_prop in Ha as [Hc Hx].
  rewrite IH by done. case_decide; [congruence | done].
Qed.

Lemma keep_id x : cmd.all_slug_chars x = true → cmd.keep_slug_chars x = x.
Proof.
  induction x as [|c x IH]; simpl; [done|].
  intros Ha. apply andb_prop in Ha as [-> Hx]. by rewrite IH.
Qed.

Lemma squeeze_id fuel x : cmd.has_double_hyphen x = false → cmd.squeeze fuel x = x.
Proof. intros Hd. destruct fuel; simpl; [done | by rewrite Hd]. Qed.

Lemma trim_left_id x : cmd.first_char_is_hyphen x = false → cmd.trim_left_hyphens x = x.
Proof. destruct x as [|c x]; simpl; [done | by intros ->]. Qed.

Lemma trim_right_id x : cmd.last_char_is_hyphen x = false → cmd.trim_right_hyphens x = x.
Proof.
  induction x as [|c x IH]; [done|].
  intros Hl. cbn [cmd.trim_right_hyphens].
  destruct x as [|c' x'].
  - simpl in *. by rewrite Hl.
  - rewrite IH by exact Hl. done.
Qed.

(** X24.  If [strings.ToLower] leaves unchanged every string made of the
    bytes a-z, 0-9 and "-", then [slugify] leaves its own results unchanged:
    slugifying a slug gives the same slug. *)
Theorem slugify_idempotent (s : string) :
  (∀ x, cmd.all_slug_chars x = true → ToLower x = x) →
  cmd.slugify ToLower (cmd.slugify ToLower s) = cmd.slugify ToLower s.
Proof.
  intros Hlow. destruct (slug_shape s) as (A & D & F & L).
  set (x := cmd.slugify ToLower s) in *. clearbody x.
  unfold cmd.slugify, cmd.trim_hyphens.
  rewrite (Hlow x A), !replace_byte_id, keep_id, squeeze_id, trim_left_id, trim_right_id;
    try done.
  by rewrite replace_byte_id.
Qed.

(** X25.  [generateBranchName] never returns more than 50 bytes.  Its
    result is the start of the lowered identifier followed, when the title
    leaves a non-empty slug, by "-" and that slug; it is all of it when that
    fits in 50 bytes.  A title that slugifies to nothing adds no hyphen. *)
Theorem generateBranchName_bounded (identifier title : string) :
  (String.length (cmd.generateBranchName ToLower identifier title) <= 50)%nat
  ∧ String.prefix (cmd.generateBranchName ToLower identifier title)
      (if decide (cmd.slugify ToLower title ≠ EmptyString)
       then ToLower identifier +:+ "-" +:+ cmd.slugify ToLower title
       else ToLower identifier) = true
  ∧ (cmd.slugify ToLower title ≠ EmptyString →
     (String.length (ToLower identifier) + 1
      + String.length (cmd.slugify ToLower title) <= 50)%nat →
     cmd.generateBranchName ToLower identifier title
     = ToLower identifier +:+ "-" +:+ cmd.slugify ToLower title)
  ∧ (cmd.slugify ToLower title = EmptyString →
     cmd.generateBranchName ToLower identifier title
     = substring 0 50 (ToLower identifier)).
Proof.
  unfold cmd.generateBranchName.
  set (full := if decide (cmd.slugify ToLower title ≠ EmptyString) then _ else _).
  assert (P : ∀ b, String.prefix b b = true).
  { intros b. rewrite <- (substring_whole b) at 1. apply prefix_substring. }
  split; [|split; [|split]].
  - destruct (Nat.ltb_spec 50 (String.length full)).
    + rewrite length_substring. lia.
    + done.
  - destruct (50 <? String.length full)%nat; [apply prefix_substring | apply P].
  - intros Hne Hlen. subst full. rewrite decide_True by done.
    rewrite (proj2 (Nat.ltb_ge _ _)); [done|].
    rewrite !length_append. simpl. lia.
  - intros He. subst full. rewrite decide_False by (by intros ?).
    destruct (Nat.ltb_spec 50 (String.length (ToLower identifier))); [done|].
    by rewrite substring_short.
Qed.

End SlugProofs.

Lemma ascii_lower_slug c : cmd.is_slug_char c = true → cmd.ascii_lower c = c.
Proof.
  unfold cmd.is_slug_char, cmd.ascii_lower. intros Hc.
  destruct ((65 <=? nat_of_ascii c) && (nat_of_ascii c <=? 90))%nat eqn:E; [|done].
  exfalso. apply andb_prop in E as [E1 E2].
  apply Nat.leb_le in E1, E2.
  repeat (apply orb_prop in Hc as [Hc|Hc]);
    try (apply andb_prop in Hc as [H1 H2]; apply Nat.leb_le in H1, H2; lia).
  apply Nat.eqb_eq in Hc. lia.
Qed.

Lemma ascii_ToLower_slug x : cmd.all_slug_chars x = true → cmd.ascii_ToLower x = x.
Proof.
  induction x as [|c x IH]; simpl; [done|].
  intros Ha. apply andb_prop in Ha as [Hc Hx].
  by rewrite IH, ascii_lower_slug.
Qed.

Lemma slugify_idempotent_witness :
  cmd.slugify cmd.ascii_ToLower (cmd.slugify cmd.ascii_ToLower "Fix: login_page -- crash")
  = "fix-login-page-crash".
Proof.
  rewrite (slugify_idempotent cmd.ascii_ToLower "Fix: login_page -- crash");
    [reflexivity | apply ascii_ToLower_slug].
Defined.

Lemma generateBranchName_bounded_witness :
  cmd.generateBranchName cmd.ascii_ToLower "ENG-123" "Fix login page"
  = "eng-123-fix-login-page"
  ∧ cmd.generateBranchName cmd.ascii_ToLower "ENG-123" "?!" = "eng-123".
Proof.
  destruct (generateBranchName_bounded cmd.ascii_ToLower "ENG-123" "Fix login page")
    as (_ & _ & A & _).
  destruct (generateBranchName_bounded cmd.ascii_ToLower "ENG-123" "?!")
    as (_ & _ & _ & B).
  split; [apply A; [discriminate | simpl; lia] | apply B; reflexivity].
Defined.

(** ** What [GetToken] returns, against what [GetStatus] reports *)

(** X26.  When [GetToken] fails, the token it returns is empty and the
    method is none.  When it succeeds, the method is api_key or
    client_credentials, and [GetStatus], asked in the same world, reports
    authentication with that same method. *)
Theorem GetToken_result_shape (w : World) (tok : string) (m : AuthMethod)
    (err : option error) :
  fst (GetToken w) = (tok, m, err) →
  (err ≠ None → tok = EmptyString ∧ m = AuthMethodNone)
  ∧ (err = None →
     m ≠ AuthMethodNone
     ∧ Authenticated (fst (fst (GetStatus w))) = true
     ∧ Method (fst (fst (GetStatus w))) = m).
Proof.
  intros E. rewrite GetStatus_run. simpl.
  pose proof (GetToken_resolves w) as R.
  assert (X : ∀ prefix r, fst (exchanged prefix r) = (tok, m, err) →
              (err ≠ None → tok = EmptyString ∧ m = AuthMethodNone)
              ∧ (err = None → m = AuthMethodClientCredentials)).
  { intros prefix [[t [e|]] w'] [= <- <- <-]; by split. }
  destruct (spec_priority (sys w)); unfold resolved_by in R; cbv beta iota zeta in R.
  - rewrite R in E. injection E as <- <- <-. by split.
  - rewrite R in E. destruct (X _ _ E) as [X1 X2].
    split; [exact X1|]. intros He. rewrite (X2 He). by split.
  - destruct R as (v & _ & R). rewrite R in E. injection E as <- <- <-. by split.
  - destruct R as (t & _ & R).
    destruct (fresh (sys w) t).
    + rewrite R in E. injection E as <- <- <-. by split.
    + destruct (usable (slot_client_secret (keyring (sys w)))).
      * rewrite R in E. destruct (X _ _ E) as [X1 X2].
        split; [exact X1|]. intros He. rewrite (X2 He). by split.
      * rewrite R in E. injection E as <- <- <-. by split.
  - rewrite R in E. injection E as <- <- <-. by split.
Qed.

Lemma GetToken_result_shape_witness :
  Method (fst (fst (GetStatus (w_token Hour)))) = AuthMethodClientCredentials.
Proof.
  destruct (GetToken_result_shape (w_token Hour) "stored-access-token"
              AuthMethodClientCredentials None eq_refl) as [_ A].
  destruct (A eq_refl) as (_ & _ & B). exact B.
Defined.
